(** * PHP Debug Manager: the scanning engine and the editing helpers

    A shallow embedding of [debugScanner.ts] (class [DebugScanner]), of the
    brace-balance guard of [extension.ts] and of the clear operations of
    [DebugDataProvider], followed by the properties established for them.

    Text.  A JavaScript string is modelled as a list of code units
    restricted to U+0000..U+00FF, one [ascii] each.  The predicates below
    are the JavaScript ones cut down to that range: [isSpace] is the class
    [\s] (also the set removed by [trim]), [isWord] is the class [\w], and
    [toLowerCase] folds A-Z and the Latin-1 capitals.

    Numbers.  [number] values that hold indices, sizes, counters and line
    numbers are integers; they are modelled in [Z] where the source can
    produce [-1] (the result of [indexOf]) and in [nat] where it cannot.

    Maps and sets.  [Map<string, _>] is a [gmap], [Set<string>] a [gset]. *)

From Stdlib Require Import ZArith Lia Ascii String DecimalString.
From stdpp Require Import base option list gmap sorting.

Local Open Scope Z_scope.

(** ** JavaScript strings *)

Module JS.

Abbreviation str := (list ascii).

Definition lit (s : string) : str := list_ascii_of_string s.

Definition code (c : ascii) : N := N_of_ascii c.

Definition eqc (a b : ascii) : bool := (code a =? code b)%N.

(** [\s]: TAB, LF, VT, FF, CR, space and the no-break space. *)
Definition isSpace (c : ascii) : bool :=
  ((9 <=? code c) && (code c <=? 13) || (code c =? 32) || (code c =? 160))%N.

(** [\w]: letters, digits and the underscore. *)
Definition isWord (c : ascii) : bool :=
  ((48 <=? code c) && (code c <=? 57) || (65 <=? code c) && (code c <=? 90)
   || (97 <=? code c) && (code c <=? 122) || (code c =? 95))%N.

Definition lowerChar (c : ascii) : ascii :=
  let n := code c in
  if ((65 <=? n) && (n <=? 90)
      || (192 <=? n) && (n <=? 222) && negb (n =? 215))%N
  then ascii_of_N (n + 32) else c.

Definition toLowerCase (s : str) : str := map lowerChar s.

Fixpoint trimStart (s : str) : str :=
  match s with
  | c :: r => if isSpace c then trimStart r else s
  | [] => []
  end.

Definition trimEnd (s : str) : str := rev (trimStart (rev s)).

Definition trim (s : str) : str := trimEnd (trimStart s).

Fixpoint startsWith (p s : str) : bool :=
  match p, s with
  | [], _ => true
  | a :: p', b :: s' => eqc a b && startsWith p' s'
  | _ :: _, [] => false
  end.

Definition endsWith (p s : str) : bool := startsWith (rev p) (rev s).

(** Position of the first occurrence of [needle] in [hay], if any. *)
Fixpoint search (needle hay : str) : option nat :=
  if startsWith needle hay then Some 0%nat
  else match hay with
       | [] => None
       | _ :: r => S <$> search needle r
       end.

Definition includes (needle hay : str) : bool :=
  match search needle hay with Some _ => true | None => false end.

Definition len (s : str) : Z := Z.of_nat (length s).

(** [a.length] for an array. *)
Definition len' {A} (a : list A) : Z := Z.of_nat (length a).

(** [s.indexOf(needle, from)]: [from] is clamped to [0 .. s.length]. *)
Definition indexOf (needle s : str) (from : Z) : Z :=
  let k := Z.to_nat (Z.min (Z.max from 0) (len s)) in
  match search needle (drop k s) with
  | Some i => Z.of_nat (k + i)
  | None => -1
  end.

(** A relative index of [slice]: negative values count from the end. *)
Definition relIndex (n i : Z) : Z :=
  if i <? 0 then Z.max (n + i) 0 else Z.min i n.

Definition slice (s : str) (a b : Z) : str :=
  let from := relIndex (len s) a in
  let to := relIndex (len s) b in
  take (Z.to_nat (to - from)) (drop (Z.to_nat from) s).

Definition sliceFrom (s : str) (a : Z) : str := slice s a (len s).

(** [s.split('\n')]: always at least one piece. *)
Fixpoint splitLines (s : str) : list str :=
  match s with
  | [] => [[]]
  | c :: r =>
      if eqc c "010" then [] :: splitLines r
      else match splitLines r with
           | l :: ls => (c :: l) :: ls
           | [] => [[c]]
           end
  end.

(** Decimal rendering of an integer inside a template literal. *)
Definition ofZ (z : Z) : str := lit (NilEmpty.string_of_int (Z.to_int z)).

End JS.

Import JS.

(** Named characters. *)
Definition chQuote2 : ascii := "034".
Definition chQuote1 : ascii := "'".
Definition chBackslash : ascii := "\".
Definition chSlash : ascii := "/".
Definition chHash : ascii := "#".
Definition chSemi : ascii := ";".
Definition chLParen : ascii := "(".
Definition chRParen : ascii := ")".
Definition chLBrace : ascii := "{".
Definition chRBrace : ascii := "}".

(** ** The data model of [debugScanner.ts] *)

Inductive DebugType :=
| var_dump | print_r | echo | die | exit | error_log | debug_backtrace
| print | var_export | dump | dd | trigger_error | user_error | printf
| xdebug_var_dump | xdebug_debug_zval | xdebug_break.

Inductive Severity := info | warning | error.

Record DebugStatement := {
  id : str;
  filePath : str;
  relativePath : str;
  lineNumber : Z;
  column : Z;
  content : str;
  context : str;
  type : DebugType;
  severity : Severity
}.

(** The name of a type as source text: the [tokenMap] of [scanFile], which
    maps every type to its own name. *)
Definition tokenMap (t : DebugType) : str :=
  lit match t with
      | var_dump => "var_dump" | print_r => "print_r" | echo => "echo"
      | die => "die" | exit => "exit" | error_log => "error_log"
      | debug_backtrace => "debug_backtrace" | print => "print"
      | var_export => "var_export" | dump => "dump" | dd => "dd"
      | trigger_error => "trigger_error" | user_error => "user_error"
      | printf => "printf" | xdebug_var_dump => "xdebug_var_dump"
      | xdebug_debug_zval => "xdebug_debug_zval"
      | xdebug_break => "xdebug_break"
      end.

(** ** PatternClassifier: [matchTypeFromText] *)

(** The text after [^\s*tok], when the text starts that way. *)
Definition afterToken (tok : string) (t : str) : option str :=
  let r := trimStart t in
  if startsWith (lit tok) r then Some (drop (length (lit tok)) r) else None.

(** [/^\s*tok\s*\(/.test(t)] *)
Definition testCall (tok : string) (t : str) : bool :=
  match afterToken tok t with
  | Some r => match trimStart r with
              | c :: _ => eqc c chLParen
              | [] => false
              end
  | None => false
  end.

(** [/^\s*tok\s+/.test(t)] *)
Definition testSpaced (tok : string) (t : str) : bool :=
  match afterToken tok t with
  | Some (c :: _) => isSpace c
  | _ => false
  end.

(** [/^\s*tok\b/.test(t)], for a token that ends in a word character. *)
Definition testWord (tok : string) (t : str) : bool :=
  match afterToken tok t with
  | Some (c :: _) => negb (isWord c)
  | Some [] => true
  | None => false
  end.

Definition matchTypeFromText (text : str) : option DebugType :=
  let t := toLowerCase text in
  if testCall "dd" t then Some dd
  else if testCall "var_dump" t then Some var_dump
  else if testCall "print_r" t then Some print_r
  else if testSpaced "echo" t then Some echo
  else if testSpaced "print" t then Some print
  else if testCall "var_export" t then Some var_export
  else if testCall "printf" t then Some printf
  else if testWord "die" t || testWord "exit" t
       then Some (if includes (lit "exit") t then exit else die)
  else if testCall "error_log" t then Some error_log
  else if testCall "trigger_error" t then Some trigger_error
  else if testCall "user_error" t then Some user_error
  else if testCall "debug_backtrace" t then Some debug_backtrace
  else if testCall "dump" t then Some dump
  else if testCall "xdebug_var_dump" t then Some xdebug_var_dump
  else if testCall "xdebug_debug_zval" t then Some xdebug_debug_zval
  else if testWord "xdebug_break" t then Some xdebug_break
  else None.

Definition getStatementType (content : str) : DebugType :=
  default var_dump (matchTypeFromText content).

Definition quickCheck (line : str) : bool :=
  match matchTypeFromText line with Some _ => true | None => false end.

Definition getStatementSeverity (content : str) : Severity :=
  let lower := toLowerCase content in
  if includes (lit "die") lower || includes (lit "exit") lower
     || includes (lit "dd") lower then error
  else if includes (lit "error_log") lower
          || includes (lit "trigger_error") lower
          || includes (lit "user_error") lower then warning
  else info.

Definition createDebugStatement (filePath relativePath : str)
    (lineNumber column : Z) (content context : str)
    (type : DebugType) (severity : Severity) : DebugStatement :=
  {| id := filePath ++ lit ":" ++ ofZ lineNumber ++ lit ":" ++ ofZ column;
     filePath := filePath;
     relativePath := relativePath;
     lineNumber := lineNumber;
     column := column;
     content := trim content;
     context := trim context;
     type := type;
     severity := severity |}.

(** ** SourceCursor: the state carried from line to line *)

Record LexState := {
  inBlockComment : bool;
  inString : bool;
  stringDelimiter : option ascii
}.

Definition initialLexState : LexState :=
  {| inBlockComment := false; inString := false; stringDelimiter := None |}.

(** The comment stage of one line of [scanFile]: the end of a block comment
    carried from above, the whole-line [//] and [#] comments, and the first
    block comment that opens on the line.  [Skipped] is the [continue] of
    the loop; the boolean is [inBlockComment] after the stage. *)
Inductive LineText := Skipped | Kept (lineToScan : str).

Definition stripComments (inBC : bool) (originalLine : str)
    : LineText * bool :=
  let carried :=
    if inBC then
      let endIdx := indexOf (lit "*/") originalLine 0 in
      if endIdx =? -1 then None
      else Some (sliceFrom originalLine (endIdx + 2))
    else Some originalLine in
  match carried with
  | None => (Skipped, true)
  | Some lineToScan =>
      let trimmed := trim lineToScan in
      if startsWith (lit "//") trimmed || startsWith (lit "#") trimmed
      then (Skipped, false)
      else
        let startBlock := indexOf (lit "/*") lineToScan 0 in
        if startBlock =? -1 then (Kept lineToScan, false)
        else
          let endBlock := indexOf (lit "*/") lineToScan (startBlock + 2) in
          if endBlock =? -1
          then (Kept (slice lineToScan 0 startBlock), true)
          else (Kept (slice lineToScan 0 startBlock
                      ++ sliceFrom lineToScan (endBlock + 2)), false)
  end.

Definition isDelimiter (ch : ascii) (q : option ascii) : bool :=
  match q with Some d => eqc ch d | None => false end.

Definition nextIs (c : ascii) (rest : str) : bool :=
  match rest with c2 :: _ => eqc c2 c | [] => false end.

(** The sanitizer loop of [scanFile]: string contents, quotes and the
    trailing line comment are dropped; the string state is returned for
    the next line.  [lastWasBackslash] starts at [false] on every line. *)
Fixpoint sanitize (inStr : bool) (q : option ascii) (lastWasBackslash : bool)
    (lineToScan : str) : str * (bool * option ascii) :=
  match lineToScan with
  | [] => ([], (inStr, q))
  | ch :: rest =>
      if inStr then
        if eqc ch chBackslash then sanitize true q (negb lastWasBackslash) rest
        else if isDelimiter ch q && negb lastWasBackslash
             then sanitize false None false rest
        else sanitize true q false rest
      else if eqc ch chQuote2 || eqc ch chQuote1
           then sanitize true (Some ch) false rest
      else if eqc ch chSlash && nextIs chSlash rest then ([], (false, q))
      else if eqc ch chHash then ([], (false, q))
      else let '(s, st) := sanitize false q false rest in (ch :: s, st)
  end.

(** ** StatementSegmenter *)

Record Segment := { text : str; startSan : nat; endSan : nat }.

(** The segment loop over [sanitized]: [k] is the index of the head of
    [rest], and [cur] is [sanitized.slice(segStart, k)]. *)
Fixpoint segmentsFrom (k segStart : nat) (cur rest : str) : list Segment :=
  match rest with
  | [] => []
  | ch :: rest' =>
      if eqc ch chSemi then
        let segText := cur ++ [ch] in
        (if (0 <? length (trim segText))%nat
         then [{| text := segText; startSan := segStart; endSan := k |}]
         else [])
        ++ segmentsFrom (S k) (S k) [] rest'
      else segmentsFrom (S k) segStart (cur ++ [ch]) rest'
  end.

Definition segments (sanitized : str) : list Segment :=
  segmentsFrom 0 0 [] sanitized.

(** ** CombinedStatementMerger *)

Definition isDebugSegment (txt : str) : bool :=
  match matchTypeFromText txt with Some _ => true | None => false end.

(** The text after [^\s*(?:exit|die)]. *)
Definition afterExitOrDie (t : str) : option str :=
  let r := trimStart t in
  if startsWith (lit "exit") r then Some (drop 4 r)
  else if startsWith (lit "die") r then Some (drop 3 r)
  else None.

(** The text after [[^)]*\)]: what follows the first closing parenthesis. *)
Fixpoint afterParenBody (s : str) : option str :=
  match s with
  | [] => None
  | c :: r => if eqc c chRParen then Some r else afterParenBody r
  end.

(** [\s*;\s*$] *)
Definition semicolonTail (s : str) : bool :=
  match trimStart s with
  | c :: r => eqc c chSemi && bool_decide (trimStart r = [])
  | [] => false
  end.

(** [/^\s*(?:exit|die)\s*(?:\([^)]*\))?\s*;\s*$/.test(t)] on the trimmed,
    lower-cased segment. *)
Definition isExitOnlySegment (txt : str) : bool :=
  let t := trim (toLowerCase txt) in
  match afterExitOrDie t with
  | None => false
  | Some r =>
      match trimStart r with
      | c :: body =>
          if eqc c chLParen then
            match afterParenBody body with
            | Some r2 => semicolonTail r2
            | None => false
            end
          else semicolonTail (c :: body)
      | [] => false
      end
  end.

(** The [findEnd] closure of [scanFile] (and its copy [findEnd2]): the
    index just after the first semicolon at or after [from] that is not
    inside a quoted string of [text], or [text.length].  [i] is the index
    of the head of the remaining text. *)
Fixpoint findEndLoop (inStr : bool) (q : option ascii) (esc : bool)
    (i : nat) (rest : str) : option nat :=
  match rest with
  | [] => None
  | ch :: rest' =>
      if inStr then
        if eqc ch chBackslash then findEndLoop true q (negb esc) (S i) rest'
        else if isDelimiter ch q && negb esc
             then findEndLoop false None false (S i) rest'
        else findEndLoop true q false (S i) rest'
      else if eqc ch chQuote2 || eqc ch chQuote1
           then findEndLoop true (Some ch) false (S i) rest'
      else if eqc ch chSemi then Some (S i)
      else findEndLoop false q esc (S i) rest'
  end.

Definition findEnd (text : str) (from : Z) : Z :=
  let i := Z.to_nat (Z.max 0 from) in
  match findEndLoop false None false i (drop i text) with
  | Some e => Z.of_nat e
  | None => len text
  end.

(** [\b] after a keyword: the end of the text or a non-word character. *)
Definition boundaryAfter (r : str) : bool :=
  match r with c :: _ => negb (isWord c) | [] => true end.

Definition keywordAt (kw : string) (s : str) : bool :=
  startsWith (lit kw) s && boundaryAfter (drop (length (lit kw)) s).

(** [after.search(/\b(?:exit|die)\b/)]: case-sensitive; [prevWord] tells
    whether the character before the head is a word character. *)
Fixpoint searchExitDieLoop (prevWord : bool) (s : str) : option nat :=
  match s with
  | [] => None
  | c :: r =>
      if negb prevWord && (keywordAt "exit" s || keywordAt "die" s)
      then Some 0%nat
      else S <$> searchExitDieLoop (isWord c) r
  end.

Definition searchExitDie (after : str) : Z :=
  match searchExitDieLoop false after with
  | Some i => Z.of_nat i
  | None => -1
  end.

(** [originalLine.indexOf(token, approx)], retried from the start of the
    line when nothing is found at or after [approx]. *)
Definition locateToken (originalLine token : str) (approx : Z) : Z :=
  match token with
  | [] => approx
  | _ =>
      let startTok := indexOf token originalLine approx in
      if startTok <? 0 then indexOf token originalLine 0 else startTok
  end.

Section LineScan.

Variables (filePath relativePath : str) (lineNumber : Z).
Variables (originalLine : str) (mapIdx : list nat).

Definition approxOf (seg : Segment) : Z :=
  Z.of_nat (default 0%nat (mapIdx !! startSan seg)).

Definition mergedStatement (seg : Segment) : DebugStatement :=
  let type := getStatementType (text seg) in
  let startTok := locateToken originalLine (tokenMap type) (approxOf seg) in
  let end1 := findEnd originalLine startTok in
  let after := sliceFrom originalLine end1 in
  let exitIdxLocal := searchExitDie after in
  let finalEnd :=
    if 0 <=? exitIdxLocal then findEnd originalLine (end1 + exitIdxLocal)
    else end1 in
  let combined := slice originalLine startTok finalEnd in
  createDebugStatement filePath relativePath lineNumber startTok combined
    originalLine type (getStatementSeverity combined).

Definition singleStatement (seg : Segment) : list DebugStatement :=
  let segType := getStatementType (text seg) in
  let startIdx :=
    locateToken originalLine (tokenMap segType) (approxOf seg) in
  let endIdx := findEnd originalLine startIdx in
  let segOrig := slice originalLine startIdx endIdx in
  match matchTypeFromText (text seg) with
  | Some _ =>
      [createDebugStatement filePath relativePath lineNumber startIdx
         segOrig originalLine segType (getStatementSeverity segOrig)]
  | None => []
  end.

(** The loop [for (s = 0; s < segments.length; s++)]: the argument is the
    part of [segments] from index [s] on; a merge skips two entries. *)
Fixpoint processSegments (segs : list Segment) : list DebugStatement :=
  match segs with
  | [] => []
  | seg :: rest =>
      match rest with
      | next :: rest' =>
          if isDebugSegment (text seg) && isExitOnlySegment (text next)
          then mergedStatement seg :: processSegments rest'
          else singleStatement seg ++ processSegments rest
      | [] => singleStatement seg
      end
  end.

End LineScan.

(** One iteration of the line loop of [scanFile]. *)
Definition scanLine (filePath relativePath : str) (lineNumber : Z)
    (st : LexState) (originalLine : str) : list DebugStatement * LexState :=
  match stripComments (inBlockComment st) originalLine with
  | (Skipped, inBC) =>
      ([], {| inBlockComment := inBC; inString := inString st;
              stringDelimiter := stringDelimiter st |})
  | (Kept lineToScan, inBC) =>
      let '(sanitized, (inStr, q)) :=
        sanitize (inString st) (stringDelimiter st) false lineToScan in
      let st' := {| inBlockComment := inBC; inString := inStr;
                    stringDelimiter := q |} in
      if quickCheck sanitized then
        let mapIdx := seq 0 (length sanitized) in
        (processSegments filePath relativePath lineNumber originalLine mapIdx
           (segments sanitized), st')
      else ([], st')
  end.

(** The line loop: [i] is the zero-based index of the head of [lines]. *)
Fixpoint scanLines (filePath relativePath : str) (i : nat) (st : LexState)
    (lines : list str) : list DebugStatement * LexState :=
  match lines with
  | [] => ([], st)
  | originalLine :: rest =>
      let '(found, st1) :=
        scanLine filePath relativePath (Z.of_nat i + 1) st originalLine in
      let '(more, st2) := scanLines filePath relativePath (S i) st1 rest in
      (found ++ more, st2)
  end.

(** The statements of a file's text: the body of [scanFile] between the
    read and the cache update. *)
Definition scanContent (filePath relativePath content : str)
    : list DebugStatement :=
  (scanLines filePath relativePath 0 initialLexState (splitLines content)).1.

(** ** FileScanEngine *)

Record Stats := { size : Z; mtime : Z }.

(** What a rejected promise carries: the size gate of [scanFile], a failed
    [stat], [readFile] or [readdir], and the missing workspace of
    [scanWorkspace].  The message texts are not modelled. *)
Inductive Failure := FileTooLarge (bytes : Z) | ReadError | NoWorkspace.

Inductive Outcome (A : Type) := Returned (a : A) | Thrown (e : Failure).
Arguments Returned {A} a.
Arguments Thrown {A} e.

(** [ScanError] without its wall-clock [timestamp]. *)
Record ScanError := { errorPath : str; errorOf : Failure }.

Record ScanResult := {
  statements : list DebugStatement;
  scannedFiles : Z;
  totalStatements : Z;
  errors : list ScanError;
  scanTime : Z
}.

Record CacheEntry := { cachedMtime : Z; cachedSize : Z; hash : str }.

(** The mutable fields of a [DebugScanner]. *)
Record Scanner := {
  scanInProgress : bool;
  scanResults : gmap str (list DebugStatement);
  scanErrors : list ScanError;
  fileCache : gmap str CacheEntry
}.

(** What the scanner reads from its surroundings: the two configuration
    values, the file system, and the path arithmetic of the host.
    [isExcluded] stands for the compiled exclude patterns, [relativeOf] for
    [path.relative] against the first workspace folder, and [localeCompare]
    for [String.prototype.localeCompare]; [None] from [stat] or [readFile]
    is a rejected promise. *)
Record Host := {
  maxFileSize : Z;
  isExcluded : str -> bool;
  relativeOf : str -> str;
  localeCompare : str -> str -> Z;
  stat : str -> option Stats;
  readFile : str -> option str
}.

(** A directory listing as [readdir] with [withFileTypes] reports it,
    unfolded into a tree; [None] is a directory that cannot be read. *)
#[warnings="-register-all"]
Inductive Node :=
| FileNode (name : str)
| DirNode (name : str) (listing : option (list Node))
| OtherNode (name : str).

Record WorkspaceFolder := { fsPath : str; entries : option (list Node) }.

Definition emptyResult : ScanResult :=
  {| statements := []; scannedFiles := 0; totalStatements := 0;
     errors := []; scanTime := 0 |}.

Definition getFileHash (stats : Stats) : str :=
  ofZ (size stats) ++ lit "-" ++ ofZ (mtime stats).

Definition shouldSkipDirectory (dirName : str) : bool :=
  bool_decide (toLowerCase dirName ∈
    map lit ["vendor"; "node_modules"; ".git"; ".svn"; ".hg"; "cache";
             "temp"; "tmp"; "logs"; "storage"; ".history"; "tests"; "test";
             "spec"; "docs"; "documentation"]%string).

(** [path.join] on a directory path and the name of one of its entries,
    for the separator [/] and a directory path that is normalised and does
    not end in a separator (on such arguments [path.join] has nothing to
    normalise; a root directory [/] and the separator of Windows are not
    covered). *)
Definition pathJoin (dirPath name : str) : str := dirPath ++ lit "/" ++ name.

(** A stable sort with a comparator, as [Array.prototype.sort] is. *)
Section Sort.
Context {A : Type} (cmp : A -> A -> Z).

Fixpoint insertSorted (x : A) (l : list A) : list A :=
  match l with
  | [] => [x]
  | y :: r => if cmp x y <=? 0 then x :: l else y :: insertSorted x r
  end.

Fixpoint sortBy (l : list A) : list A :=
  match l with
  | [] => []
  | x :: r => insertSorted x (sortBy r)
  end.
End Sort.

Section Engine.

Variable host : Host.

(** The comparator of both scans:
    [a.filePath.localeCompare(b.filePath) || a.lineNumber - b.lineNumber] *)
Definition compareStatements (a b : DebugStatement) : Z :=
  let c := localeCompare host (filePath a) (filePath b) in
  if c =? 0 then lineNumber a - lineNumber b else c.

Definition scanFile (sc : Scanner) (path : str)
    : Outcome (list DebugStatement) * Scanner :=
  match stat host path with
  | None => (Thrown ReadError, sc)
  | Some stats =>
      if maxFileSize host <? size stats
      then (Thrown (FileTooLarge (size stats)), sc)
      else
        let fileHash := getFileHash stats in
        let hit := match fileCache sc !! path with
                   | Some cached => bool_decide (hash cached = fileHash)
                   | None => false
                   end in
        if hit then (Returned (default [] (scanResults sc !! path)), sc)
        else
          match readFile host path with
          | None => (Thrown ReadError, sc)
          | Some content =>
              let found := scanContent path (relativeOf host path) content in
              (Returned found,
               {| scanInProgress := scanInProgress sc;
                  scanResults := <[path := found]> (scanResults sc);
                  scanErrors := scanErrors sc;
                  fileCache :=
                    <[path := {| cachedMtime := mtime stats;
                                 cachedSize := size stats;
                                 hash := fileHash |}]> (fileCache sc) |})
          end
  end.

(** The files of one batch, each taken to completion in turn.  The
    source starts them together under [Promise.all]; every call touches
    the cache entries of its own path only, and [Promise.all] keeps the
    order of the batch. *)
Fixpoint scanBatch (sc : Scanner) (batch : list str)
    : list (str * Outcome (list DebugStatement)) * Scanner :=
  match batch with
  | [] => ([], sc)
  | fp :: rest =>
      let '(o, sc1) := scanFile sc fp in
      let '(os, sc2) := scanBatch sc1 rest in
      ((fp, o) :: os, sc2)
  end.

Definition batchSize : nat := 50.

(** The running totals of a scan: [statements], [errors], [scannedFiles]. *)
Record Totals := {
  foundSoFar : list DebugStatement;
  errorsSoFar : list ScanError;
  filesSoFar : Z
}.

Definition noTotals : Totals :=
  {| foundSoFar := []; errorsSoFar := []; filesSoFar := 0 |}.

(** [scanFiles] folds a batch into the totals: the [catch] of its closure
    turns a rejection into an entry of [errors] and an empty list.  The
    statements are pushed in the order of the batch.  The entries of
    [errors] are pushed when the rejections arrive, which the scheduling
    of the host decides; here they stand in the order of the batch, so
    only what does not depend on the order of the errors within a batch
    carries over to the source. *)
Fixpoint absorb (t : Totals) (os : list (str * Outcome (list DebugStatement)))
    : Totals :=
  match os with
  | [] => t
  | (fp, Returned found) :: rest =>
      absorb {| foundSoFar := foundSoFar t ++ found;
                errorsSoFar := errorsSoFar t;
                filesSoFar := filesSoFar t + 1 |} rest
  | (fp, Thrown e) :: rest =>
      absorb {| foundSoFar := foundSoFar t;
                errorsSoFar :=
                  errorsSoFar t ++ [{| errorPath := fp; errorOf := e |}];
                filesSoFar := filesSoFar t + 1 |} rest
  end.

(** A rejection of a batch, which is what [Promise.all] without a handler
    propagates: the source propagates the one that arrives first, here it
    is the first one in the order of the batch.  Which of several
    rejections it is does not carry over to the source; that there is one
    does. *)
Fixpoint firstThrown (os : list (str * Outcome (list DebugStatement)))
    : option Failure :=
  match os with
  | [] => None
  | (_, Thrown e) :: _ => Some e
  | (_, Returned _) :: rest => firstThrown rest
  end.

(** [for (let i = 0; i < targets.length; i += batchSize)] of [scanFiles];
    [fuel] bounds the number of iterations. *)
Fixpoint scanFilesLoop (fuel i : nat) (targets : list str) (t : Totals)
    (sc : Scanner) : Totals * Scanner :=
  match fuel with
  | O => (t, sc)
  | S fuel' =>
      if (i <? length targets)%nat then
        let batch := take batchSize (drop i targets) in
        let '(os, sc1) := scanBatch sc batch in
        scanFilesLoop fuel' (i + batchSize) targets (absorb t os) sc1
      else (t, sc)
  end.

(** The same loop in [scanWorkspace], where nothing catches. *)
Fixpoint scanWorkspaceLoop (fuel i : nat) (filePaths : list str)
    (t : Totals) (sc : Scanner) : Outcome Totals * Scanner :=
  match fuel with
  | O => (Returned t, sc)
  | S fuel' =>
      if (i <? length filePaths)%nat then
        let batch := take batchSize (drop i filePaths) in
        let '(os, sc1) := scanBatch sc batch in
        match firstThrown os with
        | Some e => (Thrown e, sc1)
        | None =>
            scanWorkspaceLoop fuel' (i + batchSize) filePaths
              (absorb t os) sc1
        end
      else (Returned t, sc)
  end.

Definition withProgress (b : bool) (sc : Scanner) : Scanner :=
  {| scanInProgress := b; scanResults := scanResults sc;
     scanErrors := scanErrors sc; fileCache := fileCache sc |}.

Definition resultOf (t : Totals) (startTime endTime : Z) : ScanResult :=
  {| statements := sortBy compareStatements (foundSoFar t);
     scannedFiles := filesSoFar t;
     totalStatements := len' (foundSoFar t);
     errors := errorsSoFar t;
     scanTime := endTime - startTime |}.

(** [scanFiles]; [startTime] and [endTime] are the two readings of
    [Date.now()].  The optional [onScanComplete] listener and the pause of
    [cleanupMemory] are left out. *)
Definition scanFiles (sc : Scanner) (filePaths : list str)
    (startTime endTime : Z) : Outcome ScanResult * Scanner :=
  if scanInProgress sc then (Returned emptyResult, sc)
  else
    let targets :=
      List.filter (fun p => negb (isExcluded host p))
        (List.filter (fun p => endsWith (lit ".php") (toLowerCase p))
           filePaths) in
    let '(t, sc1) :=
      scanFilesLoop (length targets) 0 targets noTotals
        (withProgress true sc) in
    (Returned (resultOf t startTime endTime), withProgress false sc1).

Definition readdirError (dirPath : str) : ScanError :=
  {| errorPath := dirPath; errorOf := ReadError |}.

(** [collectFiles] on one entry of a listing of [dirPath]. *)
Fixpoint collectEntry (dirPath : str) (entry : Node)
    : list str * list ScanError :=
  match entry with
  | DirNode name listing =>
      let fullPath := pathJoin dirPath name in
      if isExcluded host fullPath || shouldSkipDirectory name then ([], [])
      else
        match listing with
        | None => ([], [readdirError fullPath])
        | Some es =>
            (fix each (es : list Node) : list str * list ScanError :=
               match es with
               | [] => ([], [])
               | e :: rest =>
                   let '(f1, e1) := collectEntry fullPath e in
                   let '(f2, e2) := each rest in
                   (f1 ++ f2, e1 ++ e2)
               end) es
        end
  | FileNode name =>
      let fullPath := pathJoin dirPath name in
      if endsWith (lit ".php") name && negb (isExcluded host fullPath)
      then ([fullPath], [])
      else ([], [])
  | OtherNode _ => ([], [])
  end.

Definition collectFiles (dirPath : str) (listing : option (list Node))
    : list str * list ScanError :=
  match listing with
  | None => ([], [readdirError dirPath])
  | Some es =>
      fold_right (fun e '(f2, e2) =>
                    let '(f1, e1) := collectEntry dirPath e in
                    (f1 ++ f2, e1 ++ e2)) ([], []) es
  end.

Definition collectAll (folders : list WorkspaceFolder)
    : list str * list ScanError :=
  fold_right (fun folder '(f2, e2) =>
                let '(f1, e1) :=
                  collectFiles (fsPath folder) (entries folder) in
                (f1 ++ f2, e1 ++ e2)) ([], []) folders.

Definition withScanErrors (es : list ScanError) (sc : Scanner) : Scanner :=
  {| scanInProgress := scanInProgress sc; scanResults := scanResults sc;
     scanErrors := scanErrors sc ++ es; fileCache := fileCache sc |}.

(** [scanWorkspace]; [workspaceFolders] is [None] when the host has no
    workspace open.  A rejection leaves through [finally], which clears
    the flag. *)
Definition scanWorkspace (sc : Scanner)
    (workspaceFolders : option (list WorkspaceFolder))
    (startTime endTime : Z) : Outcome ScanResult * Scanner :=
  if scanInProgress sc then (Returned emptyResult, sc)
  else
    match workspaceFolders with
    | None | Some [] => (Thrown NoWorkspace, withProgress false sc)
    | Some folders =>
        let '(filePaths, dirErrors) := collectAll folders in
        let sc0 := withScanErrors dirErrors (withProgress true sc) in
        match scanWorkspaceLoop (length filePaths) 0 filePaths noTotals sc0
        with
        | (Returned t, sc1) =>
            (Returned (resultOf t startTime endTime),
             withProgress false sc1)
        | (Thrown e, sc1) => (Thrown e, withProgress false sc1)
        end
    end.

End Engine.

(** ** The specification's reading of severity

    The severity table as the specification words it, by the type of the
    call; it is compared with [getStatementSeverity] below. *)
Definition severityOfType (t : DebugType) : Severity :=
  match t with
  | die | exit | dd => error
  | error_log | trigger_error | user_error => warning
  | _ => info
  end.

(** [content] mentions [tok], case-insensitively. *)
Definition mentions (tok : string) (d : DebugStatement) : Prop :=
  includes (lit tok) (toLowerCase (content d)) = true.

(** ** Sample inputs *)

(** Comparison by code units, a stand-in for [localeCompare]. *)
Fixpoint compareCodeUnits (a b : str) : Z :=
  match a, b with
  | [], [] => 0
  | [], _ :: _ => -1
  | _ :: _, [] => 1
  | x :: a', y :: b' =>
      if eqc x y then compareCodeUnits a' b'
      else if (code x <? code y)%N then -1 else 1
  end.

Definition sampleFiles : list (string * (Z * string)) :=
  [("/w/big.php", (5000, "var_dump($big);"));
   ("/w/ok.php", (13, "var_dump($x);"));
   ("/w/two.php", (21, "echo $a; print_r($b);"))]%string.

Definition sampleLookup (p : str) : option (Z * string) :=
  snd <$> List.find (fun e => bool_decide (lit (fst e) = p)) sampleFiles.

(** A host with a ceiling of 1000 bytes and three files, one above it. *)
Definition sampleHost : Host :=
  {| maxFileSize := 1000;
     isExcluded := fun _ => false;
     relativeOf := fun p => p;
     localeCompare := compareCodeUnits;
     stat := fun p => (fun e => {| size := fst e; mtime := 7 |})
                        <$> sampleLookup p;
     readFile := fun p => (fun e => lit (snd e)) <$> sampleLookup p |}.

Definition freshScanner : Scanner :=
  {| scanInProgress := false; scanResults := ∅; scanErrors := [];
     fileCache := ∅ |}.

Definition busyScanner : Scanner := withProgress true freshScanner.

Definition sampleWorkspace : option (list WorkspaceFolder) :=
  Some [{| fsPath := lit "/w";
           entries := Some [FileNode (lit "big.php");
                            FileNode (lit "ok.php")] |}].

Definition sampleWorkspaceOk : option (list WorkspaceFolder) :=
  Some [{| fsPath := lit "/w";
           entries := Some [FileNode (lit "two.php");
                            FileNode (lit "notes.txt");
                            DirNode (lit "vendor")
                              (Some [FileNode (lit "big.php")]);
                            FileNode (lit "ok.php")] |}].

(** ** The order of a scan result *)

(** A consistent comparator in the sense [Array.prototype.sort] requires:
    swapping the arguments swaps the sign, and [<= 0] is transitive. *)
Record Consistent {A} (cmp : A -> A -> Z) : Prop := {
  cmp_flip : forall a b, cmp a b < 0 <-> 0 < cmp b a;
  cmp_trans : forall a b c, cmp a b <= 0 -> cmp b c <= 0 -> cmp a c <= 0
}.

(** [a] may stand before [b]: its path comes first in the order of
    [localeCompare], or the paths compare equal and its line is not later. *)
Definition pathThenLine (host : Host) (a b : DebugStatement) : Prop :=
  localeCompare host (filePath a) (filePath b) < 0
  \/ (localeCompare host (filePath a) (filePath b) = 0
      /\ lineNumber a <= lineNumber b).

(** ** Closing quotes

    In the words of the string rule: a quote closes the string unless it is
    escaped, and it is escaped when an odd number of backslashes stands
    directly before it. *)
Fixpoint leadingBackslashes (s : str) : nat :=
  match s with
  | c :: r => if eqc c chBackslash then S (leadingBackslashes r) else O
  | [] => O
  end.

Definition trailingBackslashes (s : str) : nat := leadingBackslashes (rev s).

(** No occurrence of the delimiter [d] in [t] closes a string that is open
    when [t] begins. *)
Definition noClosingQuote (d : ascii) (t : str) : Prop :=
  forall pre post,
    t = pre ++ d :: post -> Nat.odd (trailingBackslashes pre) = true.

(** The same for consecutive lines, each taken as the sanitizer sees it:
    after the comment stage, whose block-comment flag is threaded along. *)
Fixpoint noClosingQuoteIn (d : ascii) (inBC : bool) (lines : list str)
    : Prop :=
  match lines with
  | [] => True
  | originalLine :: rest =>
      match stripComments inBC originalLine with
      | (Skipped, inBC') => noClosingQuoteIn d inBC' rest
      | (Kept lineToScan, inBC') =>
          noClosingQuote d lineToScan /\ noClosingQuoteIn d inBC' rest
      end
  end.

Definition insideString (d : ascii) : LexState :=
  {| inBlockComment := false; inString := true; stringDelimiter := Some d |}.

(** A character of code, read outside any string: not a quote, and not
    the start of a line comment ([#], or [/] before another [/]). *)
Definition codeChar (c : ascii) (rest : str) : bool :=
  negb (eqc c chQuote2 || eqc c chQuote1 || eqc c chHash
        || eqc c chSlash && nextIs chSlash rest).

(** The quote [q] that follows [body] closes the string that holds
    [body]: no quote in [body] does, and [q] itself is not escaped. *)
Definition closedBy (q : ascii) (body : str) : Prop :=
  noClosingQuote q body /\ Nat.even (trailingBackslashes body) = true.

(** A line, read from outside any string, opens a string with the quote
    [d] and does not close it: after code and complete strings comes a [d]
    that no later [d] of the line closes. *)
Inductive OpensString (d : ascii) : str -> Prop :=
| opens_here tail :
    noClosingQuote d tail -> OpensString d (d :: tail)
| opens_after_string q body rest :
    q = chQuote1 \/ q = chQuote2 -> closedBy q body ->
    OpensString d rest -> OpensString d (q :: body ++ q :: rest)
| opens_after_code c rest :
    codeChar c rest = true -> OpensString d rest -> OpensString d (c :: rest).

(** ** Notions used in the statements and proofs below *)

(** The severity of [d] is the one its content gives. *)
Definition severityFromContent (d : DebugStatement) : Prop :=
  severity d = getStatementSeverity (content d).

(** Two scanners with the same cache entries for [p]. *)
Definition sameView (sc1 sc2 : Scanner) (p : str) : Prop :=
  fileCache sc1 !! p = fileCache sc2 !! p
  /\ scanResults sc1 !! p = scanResults sc2 !! p.

(** The outcome of [scanFile] for [p] in state [sc]. *)
Definition outcomeOf (host : Host) (sc : Scanner) (p : str)
    : Outcome (list DebugStatement) :=
  (scanFile host sc p).1.

(** [p] is settled in [sc]: a scan of [p] changes nothing, in [sc] and in
    any state that holds the same entries for [p]. *)
Definition settled (host : Host) (sc : Scanner) (p : str) : Prop :=
  forall sc2,
    sameView sc2 sc p -> scanFile host sc2 p = (outcomeOf host sc p, sc2).

Definition outcomesIn (host : Host) (sc : Scanner) (ps : list str)
    : list (str * Outcome (list DebugStatement)) :=
  map (fun p => (p, outcomeOf host sc p)) ps.

(** Two results with the same statements, errors and counts. *)
Definition sameFindings (r r' : ScanResult) : Prop :=
  statements r' = statements r /\ errors r' = errors r
  /\ scannedFiles r' = scannedFiles r
  /\ totalStatements r' = totalStatements r.

(** The escape flag of the sanitizer after it has read [pre] inside a
    string, having started with [esc]. *)
Definition escapeAfter (esc : bool) (pre : str) : bool :=
  fold_left (fun e c => if eqc c chBackslash then negb e else false) pre esc.

(** Three lines read inside a double-quoted string: a call, a line the
    comment stage skips, and a line whose only quote is escaped. *)
Definition sampleStringLines : list str :=
  [lit "die();"; lit "// var_dump($x);";
   [chBackslash; chQuote2] ++ lit "dd($x);"].

(** A line with a statement, a complete string and then a string that
    stays open. *)
Definition sampleOpeningLine : str :=
  lit "echo 'a'; $sql = " ++ chQuote2 :: lit "SELECT 'x'".

(** * [extension.ts] *)

(** ** The brace-balance guard *)

(** The answer of [checkBraceBalance]: [ok], or one of its two messages
    (the first one names a line, counted from 1). *)
Inductive BraceCheck :=
| BraceOk
| UnmatchedCloseAt (lineNo : Z)
| BraceMismatch.

(** The inner loop over the characters of one line; [None] is the early
    return taken as soon as the balance is negative. *)
Fixpoint balanceLine (balance : Z) (text : str) : option Z :=
  match text with
  | [] => Some balance
  | ch :: rest =>
      let balance' :=
        if eqc ch chLBrace then balance + 1
        else if eqc ch chRBrace then balance - 1
        else balance in
      if balance' <? 0 then None else balanceLine balance' rest
  end.

(** The outer loop; [i] is the index of the head of [lines]. *)
Fixpoint balanceLines (i : nat) (balance : Z) (lines : list str)
    : BraceCheck :=
  match lines with
  | [] => if balance =? 0 then BraceOk else BraceMismatch
  | text :: rest =>
      match balanceLine balance text with
      | None => UnmatchedCloseAt (Z.of_nat i + 1)
      | Some balance' => balanceLines (S i) balance' rest
      end
  end.

(** A document is the list of its lines. *)
Definition checkBraceBalance (document : list str) : BraceCheck :=
  balanceLines 0 0 document.

(** The command handler of [phpVarDumper.dumpVariable], with the guard in
    its place.  What precedes the guard (the checks of the selection and
    the choice of the expression to print) and what follows it (the
    insertion policy) are parameters: [chooseExpression] answers with a
    warning or with the expression, and [resolveInsertion] computes the
    position and the text that [editor.edit] inserts. *)
Section DumpVariable.

Context {Editor Warning Expression Insertion : Type}.
Variable documentOf : Editor -> list str.
Variable chooseExpression : Editor -> Warning + Expression.
Variable resolveInsertion : Editor -> Expression -> Insertion.

Inductive HandlerOutcome :=
| ShowWarning (w : Warning)
| ShowError (check : BraceCheck)
| Edit (insertion : Insertion).

Definition dumpVariable (editor : Editor) : HandlerOutcome :=
  match chooseExpression editor with
  | inl w => ShowWarning w
  | inr expression =>
      match checkBraceBalance (documentOf editor) with
      | BraceOk => Edit (resolveInsertion editor expression)
      | failed => ShowError failed
      end
  end.

End DumpVariable.

(** ** The balance of a document, in the words of the specification *)

(** Opening minus closing braces of a text. *)
Fixpoint braceDelta (s : str) : Z :=
  match s with
  | [] => 0
  | ch :: rest =>
      (if eqc ch chLBrace then 1 else if eqc ch chRBrace then -1 else 0)
      + braceDelta rest
  end.

(** The balance after the first [k] characters of line [n] (from 0). *)
Definition depthAt (document : list str) (n k : nat) : Z :=
  braceDelta (concat (take n document))
  + braceDelta (take k (default [] (document !! n))).

(** On line [n] a closing brace has no matching open. *)
Definition unmatchedCloseOn (document : list str) (n : nat) : Prop :=
  exists k, depthAt document n k < 0.

(** Ten lines, the last one a closing brace too many. *)
Definition sampleDocument : list str :=
  map lit ["<?php"; "function f($x) {"; "  if ($x) {"; "    g($x);"; "  }";
           "}"; "function h() {"; "  return 1;"; "}"; "}"]%string.

(** What one character adds to the balance. *)
Definition braceStep (c : ascii) : Z :=
  if eqc c chLBrace then 1 else if eqc c chRBrace then -1 else 0.


(** ** [DebugDataProvider]: bookmarks and the clear operations

    The fields that the clear operations read and write: the bookmark set,
    the last scan result, the text documents of the workspace (each a list
    of lines, by path) and the bookmark list kept in [workspaceState].  The
    tree view and its cache are left out. *)
Record Provider := {
  bookmarks : gset str;
  lastScanResult : option ScanResult;
  documents : gmap str (list str);
  savedBookmarks : gset str
}.

Definition isBookmarked (pv : Provider) (ident : str) : bool :=
  bool_decide (ident ∈ bookmarks pv).

Definition getAllStatements (pv : Provider) : list DebugStatement :=
  match lastScanResult pv with
  | Some r => statements r
  | None => []
  end.

Definition getStatementsByFile (pv : Provider) (path : str)
    : list DebugStatement :=
  List.filter (fun s => bool_decide (filePath s = path)) (getAllStatements pv).

(** [editBuilder.delete(line.rangeIncludingLineBreak)]: the line goes with
    its line break; the last line has none and is left empty. *)
Definition deleteLine (lines : list str) (lineIdx : nat) : list str :=
  if (S lineIdx <? length lines)%nat then delete lineIdx lines
  else <[lineIdx := []]> lines.

(** [clearStatement]; a path that cannot be opened and a line index outside
    the document are the exceptions that its [catch] turns into [false]. *)
Definition clearStatement (pv : Provider) (statement : DebugStatement)
    : bool * Provider :=
  if isBookmarked pv (id statement) then (false, pv)
  else
    match documents pv !! filePath statement with
    | None => (false, pv)
    | Some lines =>
        let lineIdx := lineNumber statement - 1 in
        if (lineIdx <? 0) || (len' lines <=? lineIdx) then (false, pv)
        else
          let edited :=
            <[filePath statement := deleteLine lines (Z.to_nat lineIdx)]>
              (documents pv) in
          let remaining := bookmarks pv ∖ {[id statement]} in
          (true,
           {| bookmarks := remaining;
              lastScanResult := lastScanResult pv;
              documents := edited;
              savedBookmarks :=
                if isBookmarked pv (id statement) then remaining
                else savedBookmarks pv |})
    end.

(** Later lines first, and on one line later columns first. *)
Definition compareForClearing (a b : DebugStatement) : Z :=
  if lineNumber a =? lineNumber b then column b - column a
  else lineNumber b - lineNumber a.

(** [for (const statement of statements) if (await clearStatement(...))
    cleared++] *)
Fixpoint clearEach (pv : Provider) (cleared : Z) (todo : list DebugStatement)
    : Z * Provider :=
  match todo with
  | [] => (cleared, pv)
  | statement :: rest =>
      let '(done, pv1) := clearStatement pv statement in
      clearEach pv1 (if done then cleared + 1 else cleared) rest
  end.

Definition saveBookmarks (pv : Provider) : Provider :=
  {| bookmarks := bookmarks pv; lastScanResult := lastScanResult pv;
     documents := documents pv; savedBookmarks := bookmarks pv |}.

Definition clearFileStatements (pv : Provider) (path : str) : Z * Provider :=
  let todo :=
    sortBy compareForClearing
      (List.filter (fun s => negb (isBookmarked pv (id s)))
         (getStatementsByFile pv path)) in
  let '(cleared, pv1) := clearEach pv 0 todo in
  (cleared, if 0 <? cleared then saveBookmarks pv1 else pv1).

(** [byFile.set(s.filePath, arr)] after [arr.push(s)]: a [Map] keeps the
    order in which its keys were first set. *)
Fixpoint addToFile (s : DebugStatement)
    (byFile : list (str * list DebugStatement))
    : list (str * list DebugStatement) :=
  match byFile with
  | [] => [(filePath s, [s])]
  | (path, arr) :: rest =>
      if bool_decide (path = filePath s) then (path, arr ++ [s]) :: rest
      else (path, arr) :: addToFile s rest
  end.

Fixpoint clearGroups (pv : Provider) (cleared : Z)
    (byFile : list (str * list DebugStatement)) : Z * Provider :=
  match byFile with
  | [] => (cleared, pv)
  | (_, list) :: rest =>
      let '(cleared1, pv1) :=
        clearEach pv cleared (sortBy compareForClearing list) in
      clearGroups pv1 cleared1 rest
  end.

Definition clearAllStatements (pv : Provider) : Z * Provider :=
  let byFile :=
    fold_left (fun groups s =>
                 if isBookmarked pv (id s) then groups
                 else addToFile s groups)
      (getAllStatements pv) [] in
  let '(cleared, pv1) := clearGroups pv 0 byFile in
  (cleared, if 0 <? cleared then saveBookmarks pv1 else pv1).

(** A provider that has just scanned one file, with the given bookmarks. *)
Definition providerOf (path text : string) (marked : list string) : Provider :=
  let found := scanContent (lit path) (lit path) (lit text) in
  {| bookmarks := list_to_set (map lit marked);
     lastScanResult :=
       Some {| statements := found; scannedFiles := 1;
               totalStatements := len' found; errors := [];
               scanTime := 1 |};
     documents := {[ lit path := splitLines (lit text) ]};
     savedBookmarks := list_to_set (map lit marked) |}.

Definition newline : string := String "010" "".

(** Line 2 holds two statements; the second one is bookmarked. *)
Definition sharedLineProvider : Provider :=
  providerOf "/w/a.php"
    ("<?php" ++ newline ++ "echo $a; print_r($b);" ++ newline ++ "$x = 1;")
    ["/w/a.php:2:9"%string].

(** Line 1 holds two statements; the one on line 2 is bookmarked. *)
Definition nextLineProvider : Provider :=
  providerOf "/w/a.php"
    ("echo $a; print_r($b);" ++ newline ++ "var_dump($keep);" ++ newline
     ++ "$x = 1;")
    ["/w/a.php:2:0"%string].

(** ** The merge rule on a line without strings or comments *)

(** Neither a quote nor the start of a comment. *)
Definition plainChar (c : ascii) : bool :=
  negb (eqc c chQuote1 || eqc c chQuote2 || eqc c chSlash || eqc c chHash).

(** The body of the segment loop runs with [s = i]: no merge at an earlier
    index has consumed entry [i]. *)
Fixpoint loopStandsAt (segs : list Segment) (i : nat) : bool :=
  match segs, i with
  | [], _ => false
  | _ :: _, O => true
  | seg :: rest, S j =>
      match rest with
      | next :: rest' =>
          if isDebugSegment (text seg) && isExitOnlySegment (text next)
          then match j with O => false | S k => loopStandsAt rest' k end
          else loopStandsAt rest j
      | [] => false
      end
  end.

(** The segment begins, after white space, with the name of its type as
    [tokenMap] spells it. *)
Definition keywordAsWritten (seg : Segment) : bool :=
  startsWith (tokenMap (getStatementType (text seg))) (trimStart (text seg)).

(** The segment begins, after white space, with [exit] or [die] in lower
    case. *)
Definition exitAsWritten (seg : Segment) : bool :=
  startsWith (lit "exit") (trimStart (text seg))
  || startsWith (lit "die") (trimStart (text seg)).

(** The offset in the line of the first visible character of a segment. *)
Definition tokenOffset (seg : Segment) : nat :=
  startSan seg + (length (text seg) - length (trimStart (text seg))).

(** [segs] cuts [whole], from offset [base] on, into consecutive pieces
    that each end at the first semicolon; what follows the last semicolon
    belongs to no segment. *)
Inductive Chunked : nat -> list Segment -> str -> Prop :=
| chunked_tail base tail :
    chSemi ∉ tail -> Chunked base [] tail
| chunked_segment base body segs rest :
    chSemi ∉ body ->
    Chunked (base + length body + 1) segs rest ->
    Chunked base
      ({| text := body ++ [chSemi]; startSan := base;
          endSan := base + length body |} :: segs)
      (body ++ chSemi :: rest).

(** * Further notions *)

(** What [createDebugStatement] and the line loop give every statement
    found on line [n], whose text is [originalLine]: the paths, the line
    number, the trimmed line as context, the identifier made of path, line
    and column, a column that is [-1] or the place of the type's keyword in
    the line, and a content cut from the line at that column. *)
Definition wellFormedStatement (fp rel : str) (n : Z) (originalLine : str)
    (d : DebugStatement) : Prop :=
  filePath d = fp
  /\ relativePath d = rel
  /\ lineNumber d = n
  /\ context d = trim originalLine
  /\ id d = fp ++ lit ":" ++ ofZ n ++ lit ":" ++ ofZ (column d)
  /\ (column d = -1
      \/ (0 <= column d
          /\ startsWith (tokenMap (type d))
               (drop (Z.to_nat (column d)) originalLine) = true))
  /\ exists e, content d = trim (slice originalLine (column d) e).

(** The order of the line loop: statements of earlier lines come first. *)
Definition lineOrder (a b : DebugStatement) : Prop :=
  lineNumber a <= lineNumber b.

(** [/^\s*die\b/] chose the branch and [t.includes('exit')] the type: the
    one way for [matchTypeFromText] to answer with a type whose keyword does
    not start the text. *)
Definition dieReadAsExit (t : str) : Prop :=
  startsWith (lit "die") (trimStart t) = true
  /\ includes (lit "exit") t = true.

(** The cache of [sc] is in line with the files of [host]: an entry whose
    fingerprint is the one [stat] gives now stands for a readable file, and
    the statements kept for it are those of its present text.  This is what
    a cache hit of [scanFile] takes for granted. *)
Definition cacheSound (host : Host) (sc : Scanner) : Prop :=
  forall p cached stats,
    fileCache sc !! p = Some cached ->
    stat host p = Some stats ->
    hash cached = getFileHash stats ->
    exists content,
      readFile host p = Some content
      /\ scanResults sc !! p
         = Some (scanContent p (relativeOf host p) content).

(** The files [scanFiles] keeps of its argument. *)
Definition eligible (host : Host) (p : str) : bool :=
  endsWith (lit ".php") (toLowerCase p) && negb (isExcluded host p).

(** What [collectFiles] promises of a path it returns: its name ends in
    [.php] as written, and no exclude pattern matches it. *)
Definition collectedFile (host : Host) (p : str) : Prop :=
  endsWith (lit ".php") p = true /\ isExcluded host p = false.

(** A workspace folder with a file at the top, a directory that
    [shouldSkipDirectory] names, and a source directory. *)
Definition sampleTree : option (list Node) :=
  Some [FileNode (lit "ok.php");
        DirNode (lit "Vendor") (Some [FileNode (lit "lib.php")]);
        DirNode (lit "src") (Some [FileNode (lit "two.php");
                                   FileNode (lit "notes.txt");
                                   DirNode (lit "gone") None])].

(** One folder whose listing holds two readable files and a directory
    that cannot be read. *)
Definition sampleFolders : list WorkspaceFolder :=
  [{| fsPath := lit "/w";
      entries := Some [FileNode (lit "two.php");
                       DirNode (lit "gone") None;
                       FileNode (lit "ok.php")] |}].

(** ** [DebugDataProvider]: the list shown and the bookmarks *)

(** The provider with the set of disabled types, which [updateTreeData]
    reads through [has] only: the set is its membership test. *)
Record View := {
  provider : Provider;
  disabledTypes : DebugType -> bool
}.

(** [updateTreeData], as far as [lastScanResult] goes; the tree built from
    it is left out. *)
Definition updateTreeData (disabled : DebugType -> bool) (pv : Provider)
    (result : ScanResult) : Provider :=
  let filtered :=
    List.filter (fun s => negb (disabled (type s))) (statements result) in
  {| bookmarks := bookmarks pv;
     lastScanResult :=
       Some {| statements := filtered;
               scannedFiles := scannedFiles result;
               totalStatements := len' filtered;
               errors := errors result;
               scanTime := scanTime result |};
     documents := documents pv;
     savedBookmarks := savedBookmarks pv |}.

(** What [performScan] and [handleScanComplete] do with the result of a
    scan. *)
Definition showResult (v : View) (result : ScanResult) : View :=
  {| provider := updateTreeData (disabledTypes v) (provider v) result;
     disabledTypes := disabledTypes v |}.

Definition setDisabledTypes (types : DebugType -> bool) (v : View) : View :=
  {| provider :=
       match lastScanResult (provider v) with
       | Some r => updateTreeData types (provider v) r
       | None => provider v
       end;
     disabledTypes := types |}.

Definition toggleBookmark (pv : Provider) (statement : DebugStatement)
    : bool * Provider :=
  let ident := id statement in
  let marked :=
    if isBookmarked pv ident then bookmarks pv ∖ {[ident]}
    else bookmarks pv ∪ {[ident]} in
  (bool_decide (ident ∈ marked),
   {| bookmarks := marked; lastScanResult := lastScanResult pv;
      documents := documents pv; savedBookmarks := marked |}).

(** The statements of the list that the batch operations hand to
    [clearStatement]: those without a bookmark. *)
Definition clearable (pv : Provider) (s : DebugStatement) : bool :=
  negb (isBookmarked pv (id s)).

(** A text without braces. *)
Definition braceFree (s : str) : Prop := Forall (fun c => braceStep c = 0) s.

(** ** [extension.ts]: the helpers of the insertion *)

(** [getIndent]: [^\s*] always matches, possibly the empty string. *)
Fixpoint getIndent (text : str) : str :=
  match text with
  | c :: r => if isSpace c then c :: getIndent r else []
  | [] => []
  end.

(** [stripTrailingSemicolon]: [text.replace(/\s+$/, '')], then one
    semicolon less at the end if there is one. *)
Definition stripTrailingSemicolon (text : str) : str :=
  let s := trimEnd text in
  if endsWith (lit ";") s then slice s 0 (-1) else s.

Definition getPrintStatement (languageId expression : str) : str :=
  let lang := toLowerCase languageId in
  if bool_decide (lang = lit "php")
  then lit "var_dump(" ++ expression ++ lit ");exit;"
  else if bool_decide (lang = lit "javascript")
          || bool_decide (lang = lit "typescript")
  then lit "console.log(" ++ expression ++ lit ");"
  else if bool_decide (lang = lit "python")
  then lit "print(" ++ expression ++ lit ")"
  else lit "var_dump(" ++ expression ++ lit ");exit;".

(** The line that [editor.edit] inserts for a PHP document: the indent and
    the print statement of the expression left of the selection's trailing
    semicolon. *)
Definition insertedLine (indent selected : str) : str :=
  indent ++ getPrintStatement (lit "php") (stripTrailingSemicolon selected).

Definition chLBracket : ascii := "[".
Definition chRBracket : ascii := "]".

(** The variables of [findStatementEndPosition]: [str], [esc] and the
    three depths [p], [b] and [c]. *)
Record EndScan := {
  openQuote : option ascii;
  escaped : bool;
  parens : nat;
  brackets : nat;
  braces : nat
}.

Definition startOfScan : EndScan :=
  {| openQuote := None; escaped := false;
     parens := 0; brackets := 0; braces := 0 |}.

(** The [for] loop over one line, [i] being the index of the head of
    [rest]: the column just after the semicolon that ends the statement,
    or the variables at the end of the line.  A closing bracket at depth 0
    leaves the depth at 0. *)
Fixpoint endInLine (s : EndScan) (i : nat) (rest : str) : nat + EndScan :=
  match rest with
  | [] => inr s
  | ch :: rest' =>
      match openQuote s with
      | Some q =>
          if eqc ch chBackslash then
            endInLine {| openQuote := Some q; escaped := negb (escaped s);
                         parens := parens s; brackets := brackets s;
                         braces := braces s |} (S i) rest'
          else
            endInLine {| openQuote :=
                           if eqc ch q && negb (escaped s) then None
                           else Some q;
                         escaped := false;
                         parens := parens s; brackets := brackets s;
                         braces := braces s |} (S i) rest'
      | None =>
          if eqc ch chQuote2 || eqc ch chQuote1 then
            endInLine {| openQuote := Some ch; escaped := false;
                         parens := parens s; brackets := brackets s;
                         braces := braces s |} (S i) rest'
          else if eqc ch chLParen then
            endInLine {| openQuote := None; escaped := escaped s;
                         parens := S (parens s); brackets := brackets s;
                         braces := braces s |} (S i) rest'
          else if eqc ch chRParen then
            endInLine {| openQuote := None; escaped := escaped s;
                         parens := Nat.pred (parens s);
                         brackets := brackets s;
                         braces := braces s |} (S i) rest'
          else if eqc ch chLBracket then
            endInLine {| openQuote := None; escaped := escaped s;
                         parens := parens s; brackets := S (brackets s);
                         braces := braces s |} (S i) rest'
          else if eqc ch chRBracket then
            endInLine {| openQuote := None; escaped := escaped s;
                         parens := parens s;
                         brackets := Nat.pred (brackets s);
                         braces := braces s |} (S i) rest'
          else if eqc ch chLBrace then
            endInLine {| openQuote := None; escaped := escaped s;
                         parens := parens s; brackets := brackets s;
                         braces := S (braces s) |} (S i) rest'
          else if eqc ch chRBrace then
            endInLine {| openQuote := None; escaped := escaped s;
                         parens := parens s; brackets := brackets s;
                         braces := Nat.pred (braces s) |} (S i) rest'
          else if eqc ch chSemi && (parens s =? 0)%nat
                  && (brackets s =? 0)%nat && (braces s =? 0)%nat
          then inl (S i)
          else endInLine s (S i) rest'
      end
  end.

(** The [while] loop over the lines from [li] on; [ci] is [fromChar] on
    the first line and 0 afterwards. *)
Fixpoint endInLines (s : EndScan) (li ci : nat) (lines : list str)
    : option (nat * nat) :=
  match lines with
  | [] => None
  | t :: rest =>
      match endInLine s ci (drop ci t) with
      | inl col => Some (li, col)
      | inr s' => endInLines s' (S li) 0 rest
      end
  end.

(** [findStatementEndPosition]: a position is a line and a character. *)
Definition findStatementEndPosition (document : list str)
    (fromLine fromChar : nat) : nat * nat :=
  match endInLines startOfScan fromLine fromChar (drop fromLine document)
  with
  | Some pos => pos
  | None => (Nat.min (fromLine + 1) (length document), 0%nat)
  end.

(** A line that [getPreviousContentIndent] passes over: blank, or a brace
    alone. *)
Definition passedOver (t : str) : bool :=
  let trimmed := trim t in
  (length trimmed =? 0)%nat
  || bool_decide (trimmed = [chRBrace]) || bool_decide (trimmed = [chLBrace]).

(** [getPreviousContentIndent]; [None] is the exception of [lineAt] for a
    line number outside the document, which only the first round of the
    loop can meet. *)
Fixpoint getPreviousContentIndent (document : list str) (fromLine : nat)
    : option str :=
  match document !! fromLine with
  | None => None
  | Some t =>
      if passedOver t then
        match fromLine with
        | O => Some []
        | S above => getPreviousContentIndent document above
        end
      else Some (getIndent t)
  end.

(** A character that [findStatementEndPosition] only steps over. *)
Definition stepOver (c : ascii) : bool :=
  negb (eqc c chQuote2 || eqc c chQuote1 || eqc c chLParen || eqc c chRParen
        || eqc c chLBracket || eqc c chRBracket || eqc c chLBrace
        || eqc c chRBrace || eqc c chSemi).

(** [s.lastIndexOf(c, position)] for a needle of one character: the last
    index that is at most [position], clamped to [0 .. s.length - 1], at
    which [c] stands, or [-1].  [i] is the index of the head of [rest]. *)
Fixpoint lastMatchFrom (c : ascii) (i : nat) (rest : str) (best : Z) : Z :=
  match rest with
  | [] => best
  | x :: rest' =>
      lastMatchFrom c (S i) rest' (if eqc x c then Z.of_nat i else best)
  end.

Definition lastIndexOfChar (c : ascii) (s : str) (position : Z) : Z :=
  let start := Z.min (Z.max position 0) (len s - 1) in
  lastMatchFrom c 0 (take (Z.to_nat (start + 1)) s) (-1).

(** [x === -1 ? Infinity : x] *)
Definition orInfinity (x : Z) : option Z := if x =? -1 then None else Some x.

(** [Math.min] of two values that may be [Infinity]. *)
Definition minOrInfinity (a b : option Z) : option Z :=
  match a, b with
  | Some x, Some y => Some (Z.min x y)
  | Some x, None => Some x
  | None, Some y => Some y
  | None, None => None
  end.

(** [isQuotedStringContext]; [startChar] and [endChar] are the characters
    of [selection.start] and [selection.end]. *)
Definition isQuotedStringContext (lineText : str) (startChar endChar : nat)
    : bool :=
  let leftDouble :=
    lastIndexOfChar chQuote2 lineText (Z.of_nat startChar - 1) in
  let leftSingle :=
    lastIndexOfChar chQuote1 lineText (Z.of_nat startChar - 1) in
  let leftQuote := Z.max leftDouble leftSingle in
  let rightDouble := indexOf [chQuote2] lineText (Z.of_nat endChar) in
  let rightSingle := indexOf [chQuote1] lineText (Z.of_nat endChar) in
  let rightQuote :=
    minOrInfinity (orInfinity rightDouble) (orInfinity rightSingle) in
  negb (leftQuote =? -1)
  && match rightQuote with
     | Some r => (leftQuote <? Z.of_nat startChar) && (Z.of_nat endChar <? r)
     | None => false
     end.

(** A quote of either kind stands at index [i] of the line. *)
Definition quoteAt (lineText : str) (i : nat) : Prop :=
  lineText !! i = Some chQuote2 \/ lineText !! i = Some chQuote1.

(** The inner loop of [scanBalanced] that counts the backslashes just
    before index [i], down to [start]: [before] holds the characters from
    [start] to [i - 1], the nearest first. *)
Fixpoint countBackslashes (before : str) : nat :=
  match before with
  | c :: r => if eqc c chBackslash then S (countBackslashes r) else 0
  | [] => 0
  end.

(** The [while] loop of [scanBalanced]; [i] is the index of the head of
    [rest]. *)
Fixpoint scanBalancedLoop (open close : ascii) (i : nat) (depth : Z)
    (quote : option ascii) (before rest : str) : Z :=
  match rest with
  | [] => -1
  | ch :: rest' =>
      match quote with
      | Some q =>
          let quote' :=
            if eqc ch q && Nat.even (countBackslashes before) then None
            else Some q in
          scanBalancedLoop open close (S i) depth quote' (ch :: before) rest'
      | None =>
          if eqc ch chQuote1 || eqc ch chQuote2 then
            scanBalancedLoop open close (S i) depth (Some ch) (ch :: before)
              rest'
          else if eqc ch open then
            scanBalancedLoop open close (S i) (depth + 1) None (ch :: before)
              rest'
          else if eqc ch close then
            if depth - 1 =? 0 then Z.of_nat i
            else if depth - 1 <? 0 then -1
            else scanBalancedLoop open close (S i) (depth - 1) None
                   (ch :: before) rest'
          else scanBalancedLoop open close (S i) depth None (ch :: before)
                 rest'
      end
  end.

Definition scanBalanced (src : str) (start : nat) (open close : ascii) : Z :=
  scanBalancedLoop open close start 0 None [] (drop start src).

(** Neither a quote nor one of the two brackets. *)
Definition besideBrackets (open close c : ascii) : bool :=
  negb (eqc c chQuote1 || eqc c chQuote2 || eqc c open || eqc c close).

(** ** [extension.ts]: what the selection may be *)

(** [[a-zA-Z_\x80-\xff]] and [[a-zA-Z0-9_\x80-\xff]] *)
Definition identStart (c : ascii) : bool :=
  ((97 <=? code c) && (code c <=? 122) || (65 <=? code c) && (code c <=? 90)
   || (code c =? 95) || (128 <=? code c))%N.

Definition identPart (c : ascii) : bool :=
  identStart c || ((48 <=? code c) && (code c <=? 57))%N.

Fixpoint identPartLength (s : str) : nat :=
  match s with
  | c :: r => if identPart c then S (identPartLength r) else 0
  | [] => 0
  end.

(** The length of the match of
    [/^[a-zA-Z_\x80-\xff][a-zA-Z0-9_\x80-\xff]*/], if there is one. *)
Definition identifierLength (s : str) : option nat :=
  match s with
  | c :: r => if identStart c then Some (S (identPartLength r)) else None
  | [] => None
  end.

(** [while (i < s.length && /\s/.test(s[i])) i++] *)
Definition skipSpaces (s : str) (i : nat) : nat :=
  (i + length (getIndent (drop i s)))%nat.

Definition charIs (s : str) (i : nat) (c : ascii) : bool :=
  match s !! i with Some x => eqc x c | None => false end.

(** The loop over what follows the base of the expression, which
    [isPhpVariable] and [isPhpFunctionOrStaticCall] both have: indexes in
    brackets, and [->] with a name and possibly arguments.  Every round
    moves [i] forward, so [fuel] above the length of [s] is never used
    up. *)
Fixpoint chainLoop (fuel : nat) (s : str) (i : nat) : bool :=
  match fuel with
  | O => false
  | S fuel' =>
      if (length s <=? i)%nat then true
      else
        let i1 := skipSpaces s i in
        if (length s <=? i1)%nat then true
        else if charIs s i1 chLBracket then
          let e := scanBalanced s i1 chLBracket chRBracket in
          if e <? 0 then false else chainLoop fuel' s (Z.to_nat e + 1)
        else if charIs s i1 "-" && charIs s (i1 + 1) ">" then
          let i2 := skipSpaces s (i1 + 2) in
          match identifierLength (drop i2 s) with
          | None => false
          | Some n =>
              let i3 := skipSpaces s (i2 + n) in
              if charIs s i3 chLParen then
                let e := scanBalanced s i3 chLParen chRParen in
                if e <? 0 then false else chainLoop fuel' s (Z.to_nat e + 1)
              else chainLoop fuel' s i3
          end
        else false
  end.

Definition isPhpVariable (text : str) : bool :=
  let s := trim text in
  if startsWith (lit "$") s then
    match identifierLength (drop 1 s) with
    | None => false
    | Some n => chainLoop (S (length s)) s (1 + n)
    end
  else false.

(** A name: a first character of [identStart], then [identPart]s; the
    no-break space, which both classes hold and [\s] holds too, is left
    out. *)
Definition isIdentifier (s : str) : bool :=
  match s with
  | c :: r =>
      identStart c && forallb identPart r
      && forallb (fun x => negb (isSpace x)) s
  | [] => false
  end.

(** [->name] for every name, one after the other. *)
Definition chainText (names : list str) : str :=
  concat (map (fun name => lit "->" ++ name) names).

(** * Properties *)

(** ** Facts about the string primitives *)

Lemma eqc_eq (a b : ascii) : eqc a b = true <-> a = b.
Proof.
  unfold eqc, code. rewrite N.eqb_eq. split; [|congruence].
  intros H. rewrite <- (ascii_N_embedding a), <- (ascii_N_embedding b).
  congruence.
Qed.

Lemma eqc_refl (a : ascii) : eqc a a = true.
Proof. by apply eqc_eq. Qed.

Lemma eqc_neq (a b : ascii) : eqc a b = false <-> a <> b.
Proof.
  rewrite <- eqc_eq. by destruct (eqc a b); split.
Qed.

Lemma startsWith_iff (p s : str) :
  startsWith p s = true <-> exists r, s = p ++ r.
Proof.
  revert s. induction p as [|a p IH]; intros s; simpl.
  - split; [eauto | done].
  - destruct s as [|b s].
    + split; [done | intros [r Hr]; discriminate].
    + rewrite andb_true_iff, eqc_eq, IH. split.
      * intros [-> [r ->]]. by exists r.
      * intros [r Hr]. injection Hr as -> ->. eauto.
Qed.

Lemma search_Some (n h : str) (i : nat) :
  search n h = Some i ->
  exists a b, h = a ++ n ++ b /\ length a = i.
Proof.
  revert i. induction h as [|c h IH]; intros i; simpl.
  - destruct (startsWith n []) eqn:E; [|done].
    intros [= <-]. apply startsWith_iff in E as [r Hr].
    by exists [], r.
  - destruct (startsWith n (c :: h)) eqn:E.
    + intros [= <-]. apply startsWith_iff in E as [r Hr]. by exists [], r.
    + destruct (search n h) as [j|]; [|done]. simpl. intros [= <-].
      destruct (IH j eq_refl) as (a & b & -> & <-).
      by exists (c :: a), b.
Qed.

Lemma search_None (n h a b : str) : search n h = None -> h <> a ++ n ++ b.
Proof.
  revert a. induction h as [|c h IH]; intros a; simpl.
  - destruct (startsWith n []) eqn:E; [done|]. intros _ H.
    destruct a; [|done]. simpl in H.
    assert (startsWith n [] = true); [|congruence].
    apply startsWith_iff. eauto.
  - destruct (startsWith n (c :: h)) eqn:E; [done|].
    destruct (search n h) eqn:S; [done|]. intros _ H.
    destruct a as [|x a]; simpl in H.
    + assert (startsWith n (c :: h) = true); [|congruence].
      apply startsWith_iff. eauto.
    + injection H as -> H. by apply (IH a).
Qed.

Lemma includes_iff (n h : str) :
  includes n h = true <-> exists a b, h = a ++ n ++ b.
Proof.
  unfold includes. destruct (search n h) as [i|] eqn:E.
  - split; [|done]. intros _.
    destruct (search_Some _ _ _ E) as (a & b & H & _). eauto.
  - split; [done|]. intros (a & b & H). by apply search_None in H.
Qed.

Lemma includes_rev (n h : str) : includes (rev n) (rev h) = includes n h.
Proof.
  apply eq_true_iff_eq. rewrite !includes_iff. split.
  - intros (a & b & H). exists (rev b), (rev a).
    apply (f_equal (@rev ascii)) in H. rewrite rev_involutive in H.
    by rewrite H, !rev_app_distr, rev_involutive, app_assoc.
  - intros (a & b & ->). exists (rev b), (rev a).
    by rewrite !rev_app_distr, app_assoc.
Qed.

Lemma isSpace_lowerChar (c : ascii) : isSpace c = true -> lowerChar c = c.
Proof.
  unfold isSpace, lowerChar. intros H.
  destruct (_ || _)%bool eqn:E at 1; [|done]. exfalso.
  revert H E. generalize (code c). intros n.
  rewrite !orb_true_iff, !andb_true_iff, negb_true_iff, !N.leb_le,
    !N.eqb_eq, N.eqb_neq. lia.
Qed.

(** A token that begins with a visible character is not found any earlier
    when leading white space is removed, before or after lower-casing. *)
Lemma includes_trimStart (c0 : ascii) (n s : str) :
  isSpace c0 = false ->
  includes (c0 :: n) (toLowerCase (trimStart s))
  = includes (c0 :: n) (toLowerCase s).
Proof.
  intros Hc. induction s as [|c s IH]; [done|].
  simpl trimStart. destruct (isSpace c) eqn:E; [|done].
  rewrite IH. unfold includes. simpl.
  rewrite (isSpace_lowerChar c E).
  assert (eqc c0 c = false) as ->.
  { apply eqc_neq. intros ->. congruence. }
  simpl. by destruct (search _ _).
Qed.

Lemma toLowerCase_rev (s : str) : toLowerCase (rev s) = rev (toLowerCase s).
Proof. unfold toLowerCase. by rewrite map_rev. Qed.

Lemma includes_trim (tok s : str) (first last : ascii) (mid : str) :
  tok = first :: mid -> rev tok = last :: rev (removelast tok) ->
  isSpace first = false -> isSpace last = false ->
  includes tok (toLowerCase (trim s)) = includes tok (toLowerCase s).
Proof.
  intros Htok Hrev Hf Hl. unfold trim, trimEnd.
  rewrite <- includes_rev, toLowerCase_rev, rev_involutive, Hrev.
  rewrite (includes_trimStart _ _ _ Hl), <- Hrev.
  rewrite toLowerCase_rev, includes_rev, Htok.
  by apply includes_trimStart.
Qed.

(** [severity] may be computed before or after [content] is trimmed. *)
Lemma getStatementSeverity_trim (s : str) :
  getStatementSeverity (trim s) = getStatementSeverity s.
Proof.
  unfold getStatementSeverity.
  rewrite (includes_trim (lit "die") s _ _ _ eq_refl eq_refl eq_refl eq_refl).
  rewrite (includes_trim (lit "exit") s _ _ _ eq_refl eq_refl eq_refl eq_refl).
  rewrite (includes_trim (lit "dd") s _ _ _ eq_refl eq_refl eq_refl eq_refl).
  rewrite (includes_trim (lit "error_log") s _ _ _
             eq_refl eq_refl eq_refl eq_refl).
  rewrite (includes_trim (lit "trigger_error") s _ _ _
             eq_refl eq_refl eq_refl eq_refl).
  by rewrite (includes_trim (lit "user_error") s _ _ _
                eq_refl eq_refl eq_refl eq_refl).
Qed.

(** ** Severity *)

Lemma createDebugStatement_severity fp rel n col text ctx ty :
  severityFromContent
    (createDebugStatement fp rel n col text ctx ty (getStatementSeverity text)).
Proof.
  unfold severityFromContent. simpl. by rewrite getStatementSeverity_trim.
Qed.

(** Induction that follows the segment loop: one step or a merged pair. *)
Lemma pair_step_ind {A} (P : list A -> Prop) :
  P [] -> (forall x, P [x]) ->
  (forall x y l, P l -> P (y :: l) -> P (x :: y :: l)) ->
  forall l, P l.
Proof.
  intros H0 H1 H2 l.
  assert (P l /\ forall x, P (x :: l)) as [H _]; [|exact H].
  induction l as [|y l [IH1 IH2]]; [by split|].
  split; [apply IH2|]. intros x. by apply H2.
Qed.

Lemma processSegments_pair fp rel n orig mapIdx seg next rest :
  processSegments fp rel n orig mapIdx (seg :: next :: rest)
  = if isDebugSegment (text seg) && isExitOnlySegment (text next)
    then mergedStatement fp rel n orig mapIdx seg
         :: processSegments fp rel n orig mapIdx rest
    else singleStatement fp rel n orig mapIdx seg
         ++ processSegments fp rel n orig mapIdx (next :: rest).
Proof. reflexivity. Qed.

Lemma processSegments_severity fp rel n orig mapIdx segs :
  Forall severityFromContent (processSegments fp rel n orig mapIdx segs).
Proof.
  assert (Hsingle : forall seg,
             Forall severityFromContent (singleStatement fp rel n orig mapIdx seg)).
  { intros seg. unfold singleStatement.
    destruct (matchTypeFromText (text seg)); [|constructor].
    repeat constructor. apply createDebugStatement_severity. }
  induction segs as [|seg|seg next rest IH1 IH2] using pair_step_ind.
  - constructor.
  - apply Hsingle.
  - rewrite processSegments_pair. destruct (_ && _).
    + constructor; [apply createDebugStatement_severity | apply IH1].
    + apply Forall_app. split; [apply Hsingle | apply IH2].
Qed.

Lemma scanLine_severity fp rel n st line :
  Forall severityFromContent (scanLine fp rel n st line).1.
Proof.
  unfold scanLine. destruct (stripComments _ _) as [[|l] inBC]; [constructor|].
  destruct (sanitize _ _ _ _) as [san [inStr q]].
  destruct (quickCheck san); [|constructor].
  apply processSegments_severity.
Qed.

Lemma scanLines_severity fp rel i st lines :
  Forall severityFromContent (scanLines fp rel i st lines).1.
Proof.
  revert i st. induction lines as [|l lines IH]; intros i st; simpl.
  - constructor.
  - pose proof (scanLine_severity fp rel (Z.of_nat i + 1) st l) as H1.
    destruct (scanLine _ _ _ _ _) as [found st1].
    specialize (IH (S i) st1).
    destruct (scanLines _ _ _ _ _) as [more st2].
    apply Forall_app. by split.
Qed.

(** C5 (as amended).  Every statement that a scan of a file's text reports
    has a severity that is a function of its content alone, decided by
    substring tests on the lower-cased content: [error] exactly when it
    mentions [die], [exit] or [dd] anywhere, otherwise [warning] exactly
    when it mentions [error_log], [trigger_error] or [user_error], and
    [info] exactly when it mentions none of the six; so a [var_dump]
    statement that mentions none of them is [info]. *)
Theorem severity_is_a_function_of_content fp rel fileText d :
  d ∈ scanContent fp rel fileText ->
  severity d = getStatementSeverity (content d)
  /\ (severity d = error <->
        mentions "die" d \/ mentions "exit" d \/ mentions "dd" d)
  /\ (severity d = warning <->
        ~ (mentions "die" d \/ mentions "exit" d \/ mentions "dd" d)
        /\ (mentions "error_log" d \/ mentions "trigger_error" d
            \/ mentions "user_error" d))
  /\ (severity d = info <->
        ~ (mentions "die" d \/ mentions "exit" d \/ mentions "dd" d)
        /\ ~ (mentions "error_log" d \/ mentions "trigger_error" d
              \/ mentions "user_error" d)).
Proof.
  intros Hd.
  assert (severityFromContent d) as Hs.
  { pose proof (scanLines_severity fp rel 0 initialLexState
                  (splitLines fileText)) as H.
    rewrite Forall_forall in H. by apply H. }
  split; [exact Hs|]. rewrite Hs. unfold getStatementSeverity, mentions.
  destruct (includes (lit "die") _), (includes (lit "exit") _),
    (includes (lit "dd") _), (includes (lit "error_log") _),
    (includes (lit "trigger_error") _), (includes (lit "user_error") _);
    simpl; intuition congruence.
Qed.

Lemma severity_is_a_function_of_content_witness :
  let d := createDebugStatement (lit "/w/ok.php") (lit "ok.php") 1 0
             (lit "var_dump($x);") (lit "var_dump($x);") var_dump info in
  d ∈ scanContent (lit "/w/ok.php") (lit "ok.php") (lit "var_dump($x);")
  /\ severity d = info
  /\ ~ (mentions "die" d \/ mentions "exit" d \/ mentions "dd" d).
Proof.
  intros d.
  assert (d ∈ scanContent (lit "/w/ok.php") (lit "ok.php")
                (lit "var_dump($x);")) as Hd.
  { vm_compute. left. }
  split; [exact Hd|].
  destruct (severity_is_a_function_of_content _ _ _ _ Hd) as (_ & _ & _ & Hi).
  split; [reflexivity|]. by apply Hi.
Defined.

(** C5 (as stated) fails: a [var_dump] of a variable whose name contains
    [dd] is reported with severity [error], not the [info] that the table
    by type gives; its content holds no call other than [var_dump]. *)
Lemma severity_is_not_read_off_the_type :
  exists d,
    scanContent (lit "/w/a.php") (lit "a.php") (lit "var_dump($address);")
    = [d]
    /\ type d = var_dump
    /\ content d = lit "var_dump($address);"
    /\ severity d = error
    /\ severity d <> severityOfType (type d).
Proof. eexists. vm_compute. by repeat split. Qed.

(** ** The re-entrancy guard *)

(** C7.  While a scan is in progress, [scanFiles] and [scanWorkspace] both
    return at once with no statements, zero [scannedFiles], zero
    [totalStatements], no errors and a [scanTime] of zero, and the scanner
    is left exactly as it was: no file is read and no cache entry made. *)
Theorem scan_in_progress_returns_empty host sc filePaths workspaceFolders
    startTime endTime :
  scanInProgress sc = true ->
  exists r,
    scanFiles host sc filePaths startTime endTime = (Returned r, sc)
    /\ scanWorkspace host sc workspaceFolders startTime endTime
       = (Returned r, sc)
    /\ statements r = [] /\ scannedFiles r = 0 /\ totalStatements r = 0
    /\ errors r = [] /\ scanTime r = 0.
Proof.
  intros H. exists emptyResult. unfold scanFiles, scanWorkspace.
  by rewrite H.
Qed.

Lemma scan_in_progress_returns_empty_witness :
  scanInProgress busyScanner = true
  /\ exists r,
       scanFiles sampleHost busyScanner [lit "/w/ok.php"] 10 25
       = (Returned r, busyScanner)
       /\ scanWorkspace sampleHost busyScanner sampleWorkspace 10 25
          = (Returned r, busyScanner)
       /\ statements r = [] /\ scannedFiles r = 0 /\ totalStatements r = 0
       /\ errors r = [] /\ scanTime r = 0.
Proof.
  split; [reflexivity|].
  apply (scan_in_progress_returns_empty sampleHost busyScanner
           [lit "/w/ok.php"] sampleWorkspace 10 25).
  reflexivity.
Defined.

(** ** Comments and strings *)

(** The three examples of the specification hold on the code. *)
Example line_comment_yields_nothing :
  scanContent (lit "/w/a.php") (lit "a.php") (lit "// var_dump($x);") = [].
Proof. reflexivity. Qed.

Example string_literal_yields_nothing :
  scanContent (lit "/w/a.php") (lit "a.php")
    (lit "$s = " ++ [chQuote2] ++ lit "var_dump($a)" ++ [chQuote2] ++ lit ";")
  = [].
Proof. reflexivity. Qed.

Example block_comment_lines_2_to_5_yield_nothing :
  scanContent (lit "/w/a.php") (lit "a.php")
    (lit "<?php" ++ ["010"%char] ++ lit "/* notes" ++ ["010"%char]
     ++ lit "die();" ++ ["010"%char] ++ lit "  die();" ++ ["010"%char]
     ++ lit "*/" ++ ["010"%char] ++ lit "$x = 1;")
  = [].
Proof. reflexivity. Qed.

(** C1 (code defect).  Only the first block comment of a line is removed:
    on [echo 1; /* a */ /* b; die(); */] the comment stage keeps the second
    comment in the text to scan, and the [die();] inside it (column 22 of
    the line) is reported as a statement. *)
Theorem second_block_comment_is_scanned :
  let line := lit "echo 1; /* a */ /* b; die(); */" in
  stripComments false line = (Kept (lit "echo 1;  /* b; die(); */"), false)
  /\ exists d1 d2,
       scanContent (lit "/w/a.php") (lit "a.php") line = [d1; d2]
       /\ content d1 = lit "echo 1;" /\ column d1 = 0
       /\ content d2 = lit "die();" /\ column d2 = 22
       /\ lineNumber d2 = 1 /\ type d2 = die /\ severity d2 = error
       /\ slice line 16 31 = lit "/* b; die(); */".
Proof. split; [reflexivity|]. do 2 eexists. vm_compute. by repeat split. Qed.

(** The same defect across lines: a block comment that opens after a closed
    one is not carried to the next line, whose [die();] is reported. *)
Example unclosed_second_block_comment_is_not_carried :
  exists d,
    scanContent (lit "/w/a.php") (lit "a.php")
      (lit "/* a */ /* b" ++ ["010"%char] ++ lit "die();" ++ ["010"%char]
       ++ lit "*/")
    = [d]
    /\ lineNumber d = 2 /\ content d = lit "die();".
Proof. eexists. vm_compute. by repeat split. Qed.

(** ** The quick pre-filter *)

(** C6 (code defect).  [quickCheck] tests the start of the line only: on
    [$x = 1; var_dump($x);] it answers [false] although the second segment
    of the line classifies as [var_dump], so the line never reaches the
    segment loop and nothing is reported; with a debug call in front
    ([echo $x; var_dump($x);]) the same [var_dump] is reported. *)
Theorem quick_check_rejects_a_later_debug_call :
  let line := lit "$x = 1; var_dump($x);" in
  sanitize false None false line = (line, (false, None))
  /\ quickCheck line = false
  /\ (exists seg, segments line !! 1%nat = Some seg
                  /\ text seg = lit " var_dump($x);"
                  /\ matchTypeFromText (text seg) = Some var_dump)
  /\ scanContent (lit "/w/a.php") (lit "a.php") line = []
  /\ exists d1 d2,
       scanContent (lit "/w/a.php") (lit "a.php")
         (lit "echo $x; var_dump($x);") = [d1; d2]
       /\ type d1 = echo
       /\ type d2 = var_dump /\ content d2 = lit "var_dump($x);"
       /\ column d2 = 9.
Proof.
  repeat split; try reflexivity.
  - eexists. by repeat split.
  - do 2 eexists. vm_compute. by repeat split.
Qed.

(** ** The size gate in a batch *)

(** What [scanFiles] guarantees: a file above the ceiling becomes one entry
    of [errors] and no statement, and the other file is reported. *)
Example scanFiles_isolates_the_large_file :
  exists r sc d,
    scanFiles sampleHost freshScanner [lit "/w/big.php"; lit "/w/ok.php"] 0 9
    = (Returned r, sc)
    /\ errors r = [{| errorPath := lit "/w/big.php";
                      errorOf := FileTooLarge 5000 |}]
    /\ statements r = [d] /\ filePath d = lit "/w/ok.php"
    /\ content d = lit "var_dump($x);"
    /\ scannedFiles r = 2 /\ totalStatements r = 1.
Proof. do 3 eexists. vm_compute. by repeat split. Qed.

(** C2 (code defect).  [scanWorkspace] awaits the batch without a handler:
    with [/w/big.php] above the ceiling next to [/w/ok.php], the scan is
    rejected with the size failure; no result is returned, so the
    statement of [/w/ok.php] reaches no aggregate and no per-file error is
    recorded. *)
Theorem scanWorkspace_is_aborted_by_a_large_file :
  collectAll sampleHost [{| fsPath := lit "/w";
                            entries := Some [FileNode (lit "big.php");
                                             FileNode (lit "ok.php")] |}]
  = ([lit "/w/big.php"; lit "/w/ok.php"], [])
  /\ stat sampleHost (lit "/w/big.php") = Some {| size := 5000; mtime := 7 |}
  /\ maxFileSize sampleHost = 1000
  /\ exists sc,
       scanWorkspace sampleHost freshScanner sampleWorkspace 0 9
       = (Thrown (FileTooLarge 5000), sc)
       /\ scanErrors sc = [] /\ scanInProgress sc = false.
Proof. repeat split. eexists. vm_compute. by repeat split. Qed.

(** ** Sorting with a consistent comparator *)

Section SortFacts.
Context {A : Type} (cmp : A -> A -> Z) (Hcmp : Consistent cmp).

Let before (a b : A) : Prop := cmp a b <= 0.

Lemma before_total a b : before a b \/ before b a.
Proof.
  unfold before. destruct (Z_lt_le_dec 0 (cmp a b)) as [H|H]; [|by left].
  right. apply (cmp_flip cmp Hcmp) in H. lia.
Qed.

Lemma Forall_insertSorted (P : A -> Prop) x l :
  P x -> Forall P l -> Forall P (insertSorted cmp x l).
Proof.
  intros Hx. induction 1 as [|y l Hy Hl IH]; simpl.
  - by constructor.
  - destruct (cmp x y <=? 0); repeat constructor; done.
Qed.

Lemma insertSorted_sorted x l :
  StronglySorted before l -> StronglySorted before (insertSorted cmp x l).
Proof.
  induction 1 as [|y l Hl IH Hy]; simpl.
  - repeat constructor.
  - destruct (cmp x y <=? 0) eqn:E.
    + apply Z.leb_le in E. constructor; [by constructor|].
      constructor; [exact E|].
      eapply Forall_impl; [exact Hy|]. intros z Hz.
      by apply (cmp_trans cmp Hcmp x y z).
    + apply Z.leb_gt in E. constructor; [exact IH|].
      apply Forall_insertSorted; [|exact Hy].
      destruct (before_total y x) as [H|H]; [exact H|].
      unfold before in H. lia.
Qed.

Lemma sortBy_sorted l : StronglySorted before (sortBy cmp l).
Proof.
  induction l as [|x l IH]; simpl; [constructor|].
  by apply insertSorted_sorted.
Qed.
End SortFacts.

Lemma compareStatements_before host a b :
  compareStatements host a b <= 0 <-> pathThenLine host a b.
Proof.
  unfold compareStatements, pathThenLine.
  destruct (Z.eqb_spec (localeCompare host (filePath a) (filePath b)) 0); lia.
Qed.

Lemma compareStatements_consistent host :
  Consistent (localeCompare host) -> Consistent (compareStatements host).
Proof.
  intros [Hflip Htrans]. split.
  - intros a b. unfold compareStatements.
    pose proof (Hflip (filePath a) (filePath b)).
    pose proof (Hflip (filePath b) (filePath a)).
    destruct (Z.eqb_spec (localeCompare host (filePath a) (filePath b)) 0),
      (Z.eqb_spec (localeCompare host (filePath b) (filePath a)) 0); lia.
  - intros a b c. unfold compareStatements.
    set (pa := filePath a). set (pb := filePath b). set (pc := filePath c).
    pose proof (Hflip pa pb). pose proof (Hflip pb pa).
    pose proof (Hflip pb pc). pose proof (Hflip pc pb).
    pose proof (Hflip pa pc). pose proof (Hflip pc pa).
    pose proof (Htrans pa pb pc). pose proof (Htrans pc pa pb).
    pose proof (Htrans pb pc pa). pose proof (Htrans pc pb pa).
    pose proof (Htrans pb pa pc). pose proof (Htrans pa pc pb).
    destruct (Z.eqb_spec (localeCompare host pa pb) 0),
      (Z.eqb_spec (localeCompare host pb pc) 0),
      (Z.eqb_spec (localeCompare host pa pc) 0); lia.
Qed.

Lemma resultOf_sorted host t startTime endTime :
  Consistent (localeCompare host) ->
  StronglySorted (pathThenLine host)
    (statements (resultOf host t startTime endTime)).
Proof.
  intros H. simpl.
  pose proof (sortBy_sorted _ (compareStatements_consistent host H)
                (foundSoFar t)) as Hs.
  induction Hs as [|x l Hl IH Hx]; constructor; [done|].
  eapply Forall_impl; [exact Hx|].
  intros y Hy. by apply compareStatements_before.
Qed.

(** Comparison by code units is a consistent comparator. *)
Lemma compareCodeUnits_consistent : Consistent compareCodeUnits.
Proof.
  split.
  - induction a as [|x a IH]; intros [|y b]; simpl; try lia.
    unfold eqc. rewrite (N.eqb_sym (code y)).
    destruct (N.eqb_spec (code x) (code y)) as [E|E]; [apply IH|].
    destruct (N.ltb_spec (code x) (code y)), (N.ltb_spec (code y) (code x));
      lia.
  - induction a as [|x a IH]; intros [|y b] [|z c]; simpl; try lia.
    unfold eqc.
    destruct (N.eqb_spec (code x) (code y)) as [E1|E1],
      (N.eqb_spec (code y) (code z)) as [E2|E2],
      (N.eqb_spec (code x) (code z)) as [E3|E3]; try lia; try apply IH;
      destruct (N.ltb_spec (code x) (code y)), (N.ltb_spec (code y) (code z)),
        (N.ltb_spec (code x) (code z)); lia.
Qed.

(** ** Scanning the same files again *)

Section Rescan.
Variable host : Host.

Lemma sameView_refl sc p : sameView sc sc p.
Proof. by split. Qed.

Lemma sameView_trans sc1 sc2 sc3 p :
  sameView sc1 sc2 p -> sameView sc2 sc3 p -> sameView sc1 sc3 p.
Proof. intros [? ?] [? ?]. split; congruence. Qed.

Lemma sameView_sym sc1 sc2 p : sameView sc1 sc2 p -> sameView sc2 sc1 p.
Proof. intros [? ?]. by split. Qed.

Lemma outcomeOf_view sc1 sc2 p :
  sameView sc1 sc2 p -> outcomeOf host sc1 p = outcomeOf host sc2 p.
Proof.
  intros [Hc Hr]. unfold outcomeOf, scanFile. rewrite Hc, Hr.
  repeat case_match; done.
Qed.

Lemma scanFile_settles sc p o sc' :
  scanFile host sc p = (o, sc') -> settled host sc' p /\ outcomeOf host sc' p = o.
Proof.
  unfold settled, outcomeOf, sameView, scanFile.
  destruct (stat host p) as [stats|] eqn:Hstat.
  2:{ by intros [= <- <-]. }
  destruct (maxFileSize host <? size stats) eqn:Hsize.
  { by intros [= <- <-]. }
  destruct (fileCache sc !! p) as [cached|] eqn:Hcache.
  - destruct (bool_decide (hash cached = getFileHash stats)) eqn:Hhit.
    + intros [= <- <-]. rewrite Hcache, Hhit. split; [|done].
      intros sc2 [Hc Hr]. by rewrite Hc, Hhit, Hr.
    + destruct (readFile host p) as [text|] eqn:Hread.
      * intros [= <- <-]. simpl. rewrite !lookup_insert_eq.
        simpl. rewrite bool_decide_eq_true_2 by done. split; [|done].
        intros sc2 [Hc Hr]. rewrite Hc, Hr. simpl.
        by rewrite bool_decide_eq_true_2.
      * intros [= <- <-]. rewrite Hcache, Hhit.
        split; [|done].
        intros sc2 [Hc Hr]. by rewrite Hc, Hhit.
  - destruct (readFile host p) as [text|] eqn:Hread.
    + intros [= <- <-]. simpl. rewrite !lookup_insert_eq.
      simpl. rewrite bool_decide_eq_true_2 by done. split; [|done].
      intros sc2 [Hc Hr]. rewrite Hc, Hr. simpl.
      by rewrite bool_decide_eq_true_2.
    + intros [= <- <-]. rewrite Hcache. split; [|done].
      intros sc2 [Hc Hr]. by rewrite Hc.
Qed.

Lemma settled_view sc sc2 p :
  settled host sc p -> sameView sc2 sc p -> settled host sc2 p.
Proof.
  intros Hs Hv sc3 Hv3.
  rewrite (outcomeOf_view sc2 sc p Hv).
  apply Hs. by eapply sameView_trans.
Qed.

Lemma scanFile_other sc p q :
  q <> p -> sameView (scanFile host sc q).2 sc p.
Proof.
  intros Hne. unfold scanFile, sameView.
  repeat case_match; simpl; try done; by rewrite !lookup_insert_ne.
Qed.

Lemma scanFile_keeps_settled sc p q :
  settled host sc p -> sameView (scanFile host sc q).2 sc p.
Proof.
  intros Hs. destruct (decide (q = p)) as [->|Hne].
  - rewrite (Hs sc (sameView_refl sc p)). apply sameView_refl.
  - by apply scanFile_other.
Qed.

Lemma scanBatch_keeps_settled sc p qs :
  settled host sc p -> sameView (scanBatch host sc qs).2 sc p.
Proof.
  revert sc. induction qs as [|q qs IH]; intros sc Hs; simpl.
  - apply sameView_refl.
  - pose proof (scanFile_keeps_settled sc p q Hs) as Hv.
    destruct (scanFile host sc q) as [o sc1]. simpl in Hv.
    pose proof (IH sc1 (settled_view _ _ _ Hs Hv)) as Hv2.
    destruct (scanBatch host sc1 qs) as [os sc2]. simpl in *.
    by eapply sameView_trans.
Qed.

(** After a batch, every file of the batch is settled, and the outcomes
    of the batch are the ones a scan from the final state gives. *)
Lemma scanBatch_settles sc ps os sc' :
  scanBatch host sc ps = (os, sc') ->
  Forall (settled host sc') ps /\ os = outcomesIn host sc' ps.
Proof.
  revert sc os. induction ps as [|p ps IH]; intros sc os; simpl.
  - intros [= <- <-]. by split.
  - destruct (scanFile host sc p) as [o sc1] eqn:H1.
    destruct (scanBatch host sc1 ps) as [os' sc2] eqn:H2.
    intros [= <- <-].
    destruct (scanFile_settles _ _ _ _ H1) as [Hs Ho].
    destruct (IH _ _ H2) as [Hall ->].
    pose proof (scanBatch_keeps_settled sc1 p ps Hs) as Hv.
    rewrite H2 in Hv. simpl in Hv.
    split.
    + constructor; [by eapply settled_view|done].
    + simpl. by rewrite (outcomeOf_view _ _ _ Hv), Ho.
Qed.

(** A batch of settled host files changes nothing. *)
Lemma scanBatch_settled sc ps :
  Forall (settled host sc) ps -> scanBatch host sc ps = (outcomesIn host sc ps, sc).
Proof.
  induction 1 as [|p ps Hp Hps IH]; simpl; [done|].
  by rewrite (Hp sc (sameView_refl sc p)), IH.
Qed.

Lemma scanBatch_app sc a b :
  scanBatch host sc (a ++ b)
  = let '(o1, sc1) := scanBatch host sc a in
    let '(o2, sc2) := scanBatch host sc1 b in
    (o1 ++ o2, sc2).
Proof.
  revert sc. induction a as [|p a IH]; intros sc; simpl.
  - by destruct (scanBatch host sc b).
  - destruct (scanFile host sc p) as [o sc1]. rewrite IH.
    destruct (scanBatch host sc1 a) as [o1 sc2].
    by destruct (scanBatch host sc2 b).
Qed.

Lemma absorb_app t o1 o2 : absorb (absorb t o1) o2 = absorb t (o1 ++ o2).
Proof.
  revert t. induction o1 as [|[p [found|e]] o1 IH]; intros t; simpl; done.
Qed.

Lemma firstThrown_app o1 o2 :
  firstThrown (o1 ++ o2)
  = match firstThrown o1 with Some e => Some e | None => firstThrown o2 end.
Proof. induction o1 as [|[p [found|e]] o1 IH]; simpl; done. Qed.

End Rescan.

(** ** The batch loops, batch by batch and as one pass *)

Section Loops.
Variable host : Host.

Lemma drop_batch {A} (i : nat) (l : list A) :
  drop i l = take batchSize (drop i l) ++ drop (i + batchSize) l.
Proof.
  rewrite <- (take_drop batchSize (drop i l)) at 1.
  by rewrite drop_drop.
Qed.

Lemma scanFilesLoop_flat fuel i targets t sc :
  (length targets <= i + fuel)%nat ->
  scanFilesLoop host fuel i targets t sc
  = let '(os, sc') := scanBatch host sc (drop i targets) in
    (absorb t os, sc').
Proof.
  revert i t sc. induction fuel as [|fuel IH]; intros i t sc Hlen.
  - simpl. by rewrite drop_ge by lia.
  - cbn [scanFilesLoop]. destruct (Nat.ltb_spec i (length targets)).
    + rewrite (drop_batch i targets) at 2. rewrite scanBatch_app.
      destruct (scanBatch host sc (take batchSize (drop i targets)))
        as [os sc1].
      rewrite IH by (unfold batchSize; lia).
      destruct (scanBatch host sc1 _) as [os2 sc2].
      by rewrite absorb_app.
    + by rewrite drop_ge by lia.
Qed.

Lemma scanWorkspaceLoop_returned fuel i ps t sc t' sc' :
  (length ps <= i + fuel)%nat ->
  scanWorkspaceLoop host fuel i ps t sc = (Returned t', sc') ->
  exists os, scanBatch host sc (drop i ps) = (os, sc')
             /\ firstThrown os = None /\ t' = absorb t os.
Proof.
  revert i t sc. induction fuel as [|fuel IH]; intros i t sc Hlen.
  - simpl. rewrite drop_ge by lia. intros [= <- <-]. by exists [].
  - cbn [scanWorkspaceLoop]. destruct (Nat.ltb_spec i (length ps)).
    + destruct (scanBatch host sc (take batchSize (drop i ps)))
        as [os sc1] eqn:Hb.
      destruct (firstThrown os) eqn:Hos; [done|]. intros Hloop.
      apply IH in Hloop as (os2 & H1 & H2 & ->);
        [|unfold batchSize; lia].
      exists (os ++ os2).
      rewrite (drop_batch i ps), scanBatch_app, Hb, H1.
      by rewrite firstThrown_app, Hos, absorb_app.
    + rewrite drop_ge by lia. intros [= <- <-]. by exists [].
Qed.

Lemma scanWorkspaceLoop_settled fuel i ps t sc :
  (length ps <= i + fuel)%nat ->
  Forall (settled host sc) ps ->
  firstThrown (outcomesIn host sc (drop i ps)) = None ->
  scanWorkspaceLoop host fuel i ps t sc
  = (Returned (absorb t (outcomesIn host sc (drop i ps))), sc).
Proof.
  intros Hlen Hall. revert i t Hlen.
  induction fuel as [|fuel IH]; intros i t Hlen.
  - simpl. by rewrite drop_ge by lia.
  - cbn [scanWorkspaceLoop]. destruct (Nat.ltb_spec i (length ps)).
    + rewrite (drop_batch i ps) at 1 3. unfold outcomesIn.
      rewrite map_app, firstThrown_app. 
      rewrite scanBatch_settled.
      2:{ by apply Forall_take, Forall_drop. }
      fold (outcomesIn host sc (take batchSize (drop i ps))).
      destruct (firstThrown (outcomesIn host sc (take batchSize (drop i ps))));
        [done|].
      intros H2. rewrite IH; [|unfold batchSize; lia|done].
      by rewrite absorb_app.
    + by rewrite drop_ge by lia.
Qed.
End Loops.

(** ** The order of the result, and its stability under a second scan *)

Lemma outcomesIn_view host sc1 sc2 ps :
  (forall p, sameView sc1 sc2 p) -> outcomesIn host sc1 ps = outcomesIn host sc2 ps.
Proof.
  intros H. unfold outcomesIn. apply map_ext. intros p.
  by rewrite (outcomeOf_view host sc1 sc2 p (H p)).
Qed.

Lemma Forall_settled_view host sc1 sc2 ps :
  (forall p, sameView sc2 sc1 p) ->
  Forall (settled host sc1) ps -> Forall (settled host sc2) ps.
Proof.
  intros H Hall. eapply Forall_impl; [exact Hall|].
  intros p Hp. by eapply settled_view.
Qed.

(** A completed [scanFiles], run again on the same files, changes nothing
    and returns the same statements, errors and counts. *)
Lemma scanFiles_again host sc filePaths t0 t1 r sc' :
  scanFiles host sc filePaths t0 t1 = (Returned r, sc') ->
  forall t0' t1', exists r',
    scanFiles host sc' filePaths t0' t1' = (Returned r', sc')
    /\ sameFindings r r'.
Proof.
  unfold scanFiles. destruct (scanInProgress sc) eqn:Hbusy.
  - intros [= <- <-] t0' t1'. rewrite Hbusy. by exists emptyResult.
  - set (targets := List.filter _ _).
    rewrite scanFilesLoop_flat by lia. rewrite drop_0.
    destruct (scanBatch host (withProgress true sc) targets) as [os sc1] eqn:Hb.
    intros [= <- <-] t0' t1'. simpl.
    destruct (scanBatch_settles _ _ _ _ _ Hb) as [Hall ->].
    rewrite scanFilesLoop_flat by lia. rewrite drop_0.
    rewrite scanBatch_settled.
    2:{ eapply Forall_settled_view; [|exact Hall]. intros p. by split. }
    eexists. split; [reflexivity|].
    rewrite (outcomesIn_view host (withProgress true (withProgress false sc1))
               sc1 targets) by (intros p; by split).
    by repeat split.
Qed.

Lemma scanWorkspace_again host sc folders t0 t1 r sc' :
  scanWorkspace host sc folders t0 t1 = (Returned r, sc') ->
  forall t0' t1', exists r' sc'',
    scanWorkspace host sc' folders t0' t1' = (Returned r', sc'')
    /\ sameFindings r r'.
Proof.
  unfold scanWorkspace. destruct (scanInProgress sc) eqn:Hbusy.
  - intros [= <- <-] t0' t1'. rewrite Hbusy. by exists emptyResult, sc.
  - destruct folders as [[|f fs]|]; [done| |done].
    destruct (collectAll host (f :: fs)) as [ps dirErrors].
    destruct (scanWorkspaceLoop host (length ps) 0 ps noTotals _)
      as [[t|e] sc1] eqn:Hloop; [|done].
    intros [= <- <-] t0' t1'. simpl.
    apply scanWorkspaceLoop_returned in Hloop as (os & Hb & Hnone & ->);
      [|lia].
    rewrite drop_0 in Hb.
    destruct (scanBatch_settles _ _ _ _ _ Hb) as [Hall ->].
    set (sc2 := withScanErrors dirErrors
                  (withProgress true (withProgress false sc1))).
    assert (forall p, sameView sc2 sc1 p) as Hview by (intros p; by split).
    rewrite scanWorkspaceLoop_settled; rewrite ?drop_0.
    + do 2 eexists. split; [reflexivity|].
      rewrite (outcomesIn_view host sc2 sc1 ps Hview).
      by repeat split.
    + lia.
    + by eapply Forall_settled_view.
    + by rewrite (outcomesIn_view host sc2 sc1 ps Hview).
Qed.

(** C3.  With a consistent [localeCompare], the statements of every
    completed [scanFiles] and [scanWorkspace] are sorted: each statement
    stands before every later one by path in the order of [localeCompare]
    and then by ascending line number.  Scanning the same inputs again from
    the state the scan left returns the same sequence of statements. *)
Theorem scan_results_are_sorted host sc filePaths workspaceFolders t0 t1 :
  Consistent (localeCompare host) ->
  (forall r sc',
      scanFiles host sc filePaths t0 t1 = (Returned r, sc') ->
      StronglySorted (pathThenLine host) (statements r)
      /\ forall t0' t1', exists r' sc'',
           scanFiles host sc' filePaths t0' t1' = (Returned r', sc'')
           /\ statements r' = statements r)
  /\ (forall r sc',
        scanWorkspace host sc workspaceFolders t0 t1 = (Returned r, sc') ->
        StronglySorted (pathThenLine host) (statements r)
        /\ forall t0' t1', exists r' sc'',
             scanWorkspace host sc' workspaceFolders t0' t1'
             = (Returned r', sc'')
             /\ statements r' = statements r).
Proof.
  intros Hcmp. split; intros r sc' Hscan; split.
  - revert Hscan. unfold scanFiles. destruct (scanInProgress sc).
    + intros [= <- <-]. constructor.
    + destruct (scanFilesLoop _ _ _ _ _ _) as [t sc1].
      intros [= <- <-]. by apply resultOf_sorted.
  - intros t0' t1'.
    destruct (scanFiles_again _ _ _ _ _ _ _ Hscan t0' t1') as (r' & H & Hs & _).
    by exists r', sc'.
  - revert Hscan. unfold scanWorkspace. destruct (scanInProgress sc).
    + intros [= <- <-]. constructor.
    + destruct workspaceFolders as [[|f fs]|]; [done| |done].
      destruct (collectAll host (f :: fs)) as [ps dirErrors].
      destruct (scanWorkspaceLoop _ _ _ _ _ _) as [[t|e] sc1]; [|done].
      intros [= <- <-]. by apply resultOf_sorted.
  - intros t0' t1'.
    destruct (scanWorkspace_again _ _ _ _ _ _ _ Hscan t0' t1')
      as (r' & sc'' & H & Hs & _).
    by exists r', sc''.
Qed.

Lemma scan_results_are_sorted_witness :
  Consistent (localeCompare sampleHost)
  /\ (exists r sc',
        scanFiles sampleHost freshScanner
          [lit "/w/two.php"; lit "/w/ok.php"; lit "/w/big.php"] 0 9
        = (Returned r, sc')
        /\ length (statements r) = 3%nat
        /\ StronglySorted (pathThenLine sampleHost) (statements r))
  /\ (exists r sc',
        scanWorkspace sampleHost freshScanner sampleWorkspaceOk 0 9
        = (Returned r, sc')
        /\ length (statements r) = 3%nat
        /\ StronglySorted (pathThenLine sampleHost) (statements r)).
Proof.
  split; [exact compareCodeUnits_consistent|].
  destruct (scan_results_are_sorted sampleHost freshScanner
              [lit "/w/two.php"; lit "/w/ok.php"; lit "/w/big.php"]
              sampleWorkspaceOk 0 9 compareCodeUnits_consistent) as [HF HW].
  split.
  - destruct (scanFiles sampleHost freshScanner _ 0 9) as [[r|e] sc'] eqn:E;
      [|vm_compute in E; discriminate].
    exists r, sc'. split; [reflexivity|].
    split; [|exact (proj1 (HF r sc' eq_refl))].
    vm_compute in E. by injection E as <- <-.
  - destruct (scanWorkspace sampleHost freshScanner _ 0 9) as [[r|e] sc'] eqn:E;
      [|vm_compute in E; discriminate].
    exists r, sc'. split; [reflexivity|].
    split; [|exact (proj1 (HW r sc' eq_refl))].
    vm_compute in E. by injection E as <- <-.
Defined.

(** ** The string state across lines *)

Lemma escapeAfter_parity (pre : str) :
  escapeAfter false pre = Nat.odd (trailingBackslashes pre).
Proof.
  unfold escapeAfter, trailingBackslashes.
  induction pre as [|c pre IH] using rev_ind; [done|].
  rewrite fold_left_app, rev_app_distr. simpl.
  destruct (eqc c chBackslash); [|done].
  by rewrite IH, Nat.odd_succ, <- Nat.negb_odd.
Qed.

Lemma sanitize_stays_in_string (d : ascii) (t : str) (esc : bool) :
  d <> chBackslash ->
  (forall pre post, t = pre ++ d :: post -> escapeAfter esc pre = true) ->
  sanitize true (Some d) esc t = ([], (true, Some d)).
Proof.
  intros Hd. revert esc. induction t as [|c t IH]; intros esc H; [done|].
  simpl. destruct (eqc c chBackslash) eqn:Hbs.
  - apply IH. intros pre post ->.
    specialize (H (c :: pre) post eq_refl). simpl in H. by rewrite Hbs in H.
  - assert (eqc c d && negb esc = false) as ->.
    { destruct (eqc c d) eqn:Hcd; [|done]. apply eqc_eq in Hcd as ->.
      pose proof (H [] t eq_refl) as He. simpl in He. by rewrite He. }
    apply IH. intros pre post ->.
    specialize (H (c :: pre) post eq_refl). simpl in H. by rewrite Hbs in H.
Qed.

Lemma scanLine_inside_string fp rel n st d line :
  inString st = true -> stringDelimiter st = Some d ->
  d = chQuote1 \/ d = chQuote2 ->
  match stripComments (inBlockComment st) line with
  | (Skipped, _) => True
  | (Kept t, _) => noClosingQuote d t
  end ->
  scanLine fp rel n st line
  = ([], {| inBlockComment := (stripComments (inBlockComment st) line).2;
            inString := true; stringDelimiter := Some d |}).
Proof.
  intros Hin Hq Hd. unfold scanLine.
  destruct (stripComments _ _) as [[|t] inBC]; simpl.
  - intros _. by rewrite Hin, Hq.
  - intros Hno. rewrite Hin, Hq, (sanitize_stays_in_string d t false); [done| |].
    + by destruct Hd as [-> | ->].
    + intros pre post Ht. rewrite escapeAfter_parity. by eapply Hno.
Qed.

(** Lines entered inside a string opened with the quote [d]: as long as
    no unescaped [d] occurs (on each line as the sanitizer sees it, after
    the comment stage), the lines produce no statement and the scanner is
    still inside the same string after them. *)
Lemma lines_inside_a_string fp rel i st d lines :
  inString st = true -> stringDelimiter st = Some d ->
  d = chQuote1 \/ d = chQuote2 ->
  noClosingQuoteIn d (inBlockComment st) lines ->
  exists st',
    scanLines fp rel i st lines = ([], st')
    /\ inString st' = true /\ stringDelimiter st' = Some d.
Proof.
  intros Hin Hq Hd. revert i st Hin Hq.
  induction lines as [|line lines IH]; intros i st Hin Hq Hno; simpl.
  - by exists st.
  - simpl in Hno.
    rewrite (scanLine_inside_string fp rel (Z.of_nat i + 1) st d line Hin Hq Hd).
    2:{ destruct (stripComments _ _) as [[|t] inBC]; [done|by destruct Hno]. }
    set (st1 := {| inBlockComment := _ |}).
    destruct (IH (S i) st1 eq_refl eq_refl) as (st' & -> & H1 & H2).
    { subst st1. simpl.
      destruct (stripComments _ _) as [[|t] inBC]; [done|by destruct Hno]. }
    by exists st'.
Qed.

Lemma noClosingQuote_absent (d : ascii) (t : str) :
  d ∉ t -> noClosingQuote d t.
Proof.
  intros H pre post ->. exfalso. apply H.
  apply elem_of_app. right. by left.
Qed.

(** Inside a string, up to its closing quote. *)
Lemma sanitize_closes (q : ascii) (body rest : str) (esc : bool) :
  q <> chBackslash ->
  (forall pre post, body = pre ++ q :: post -> escapeAfter esc pre = true) ->
  escapeAfter esc body = false ->
  sanitize true (Some q) esc (body ++ q :: rest) = sanitize false None false rest.
Proof.
  intros Hq. revert esc. induction body as [|c body IH]; intros esc Hno Hend.
  - simpl in *. subst esc.
    assert (eqc q chBackslash = false) as -> by (by apply eqc_neq).
    by rewrite eqc_refl.
  - simpl. destruct (eqc c chBackslash) eqn:Hbs.
    + apply IH.
      * intros pre post ->.
        specialize (Hno (c :: pre) post eq_refl). simpl in Hno.
        by rewrite Hbs in Hno.
      * simpl in Hend. by rewrite Hbs in Hend.
    + assert (eqc c q && negb esc = false) as ->.
      { destruct (eqc c q) eqn:Hcq; [|done]. apply eqc_eq in Hcq as ->.
        pose proof (Hno [] body eq_refl) as He. simpl in He. by rewrite He. }
      apply IH.
      * intros pre post ->.
        specialize (Hno (c :: pre) post eq_refl). simpl in Hno.
        by rewrite Hbs in Hno.
      * simpl in Hend. by rewrite Hbs in Hend.
Qed.

(** The opening half: on a line that opens a string and does not close
    it, the sanitizer ends inside that string. *)
Lemma sanitize_opens (d : ascii) (t : str) :
  d = chQuote1 \/ d = chQuote2 ->
  OpensString d t ->
  forall q, (sanitize false q false t).2 = (true, Some d).
Proof.
  intros Hd. induction 1 as [tail Hno|q0 body rest Hq0 [Hbody Hend] _ IH
                            |c rest Hc _ IH]; intros q.
  - cbn [sanitize].
    assert (eqc d chQuote2 || eqc d chQuote1 = true) as ->
      by (by destruct Hd as [-> | ->]).
    rewrite (sanitize_stays_in_string d tail false); [done| |].
    + by destruct Hd as [-> | ->].
    + intros pre post Ht. rewrite escapeAfter_parity. by eapply Hno.
  - cbn [sanitize].
    assert (eqc q0 chQuote2 || eqc q0 chQuote1 = true) as ->
      by (by destruct Hq0 as [-> | ->]).
    rewrite (sanitize_closes q0 body rest false).
    + apply IH.
    + by destruct Hq0 as [-> | ->].
    + intros pre post Ht. rewrite escapeAfter_parity. by eapply Hbody.
    + rewrite escapeAfter_parity, <- Nat.negb_even. by rewrite Hend.
  - cbn [sanitize]. unfold codeChar in Hc. apply negb_true_iff in Hc.
    rewrite !orb_false_iff in Hc. destruct Hc as [[[H1 H2] H3] H4].
    rewrite H1, H2, H3, H4. simpl orb. cbv iota.
    specialize (IH q). by destruct (sanitize false q false rest).
Qed.


Lemma sampleStringLines_hold_no_closing_quote :
  noClosingQuoteIn chQuote2 false sampleStringLines.
Proof.
  change (noClosingQuote chQuote2 (lit "die();")
          /\ noClosingQuote chQuote2
               ([chBackslash; chQuote2] ++ lit "dd($x);") /\ True).
  split; [|split; [|exact I]].
  - apply noClosingQuote_absent. vm_compute. intros H.
    repeat (apply elem_of_cons in H as [H|H]; [discriminate H|]).
    by apply elem_of_nil in H.
  - intros pre post H.
    destruct pre as [|c0 [|c1 pre]]; simplify_eq/=; [reflexivity|].
    exfalso.
    repeat (destruct pre as [|? pre]; simplify_eq/=).
Qed.

Lemma sampleOpeningLine_opens_a_string :
  OpensString chQuote2 sampleOpeningLine.
Proof.
  unfold sampleOpeningLine.
  do 5 (apply opens_after_code; [reflexivity|]).
  apply (opens_after_string chQuote2 chQuote1 (lit "a") _ (or_introl eq_refl)).
  { split; [|reflexivity]. apply noClosingQuote_absent. vm_compute.
    intros H. repeat (apply elem_of_cons in H as [H|H]; [discriminate H|]).
    by apply elem_of_nil in H. }
  do 9 (apply opens_after_code; [reflexivity|]).
  apply opens_here. apply noClosingQuote_absent. vm_compute. intros H.
  repeat (apply elem_of_cons in H as [H|H]; [discriminate H|]).
  by apply elem_of_nil in H.
Qed.


(** The state in which such lines are read arises from a line that opens a
    string and does not close it; here the calls on lines 2 and 3 are
    inside the string and the one after the closing quote is not at the
    start of its line. *)
Example unclosed_string_example :
  scanContent (lit "/w/a.php") (lit "a.php")
    (lit "$s = " ++ [chQuote2] ++ lit "abc" ++ ["010"%char]
     ++ lit "die();" ++ ["010"%char] ++ lit "var_dump($x);" ++ ["010"%char]
     ++ lit "end" ++ [chQuote2] ++ lit ";") = [].
Proof. reflexivity. Qed.

(** ** The brace-balance guard *)

Lemma braceDelta_app (a b : str) :
  braceDelta (a ++ b) = braceDelta a + braceDelta b.
Proof. induction a as [|c a IH]; simpl; [done|]. rewrite IH. lia. Qed.

Lemma braceDelta_cons c s : braceDelta (c :: s) = braceStep c + braceDelta s.
Proof. done. Qed.

Lemma balanceLine_cons b c text :
  balanceLine b (c :: text)
  = if b + braceStep c <? 0 then None else balanceLine (b + braceStep c) text.
Proof.
  simpl. unfold braceStep.
  by destruct (eqc c chLBrace), (eqc c chRBrace); rewrite ?Z.add_0_r.
Qed.

(** The inner loop, entered with a balance that is not negative: it ends
    with the balance of the whole line when no prefix of the line dips
    below zero, and returns early when one does. *)
Lemma balanceLine_spec (b : Z) (text : str) :
  0 <= b ->
  match balanceLine b text with
  | Some b' =>
      b' = b + braceDelta text
      /\ forall k, 0 <= b + braceDelta (take k text)
  | None => exists k, b + braceDelta (take k text) < 0
  end.
Proof.
  revert b. induction text as [|c text IH]; intros b Hb.
  - simpl. split; [lia|]. intros k. rewrite take_nil. simpl. lia.
  - rewrite balanceLine_cons.
    destruct (Z.ltb_spec (b + braceStep c) 0) as [Hneg|Hpos].
    + exists 1%nat. simpl. fold (braceStep c). lia.
    + specialize (IH _ Hpos).
      destruct (balanceLine (b + braceStep c) text) as [b'|].
      * destruct IH as [-> H]. rewrite braceDelta_cons. split; [lia|].
        intros [|k]; simpl; [lia|]. fold (braceStep c).
        specialize (H k). lia.
      * destruct IH as [k H]. exists (S k). simpl. fold (braceStep c). lia.
Qed.

Lemma depthAt_cons text rest n k :
  depthAt (text :: rest) (S n) k = braceDelta text + depthAt rest n k.
Proof. unfold depthAt. simpl. rewrite braceDelta_app. lia. Qed.

Lemma depthAt_head text rest k :
  depthAt (text :: rest) 0 k = braceDelta (take k text).
Proof. unfold depthAt. simpl. lia. Qed.

Lemma balanceLines_spec (i : nat) (b : Z) (lines : list str) :
  0 <= b ->
  match balanceLines i b lines with
  | UnmatchedCloseAt lineNo =>
      exists n, lineNo = Z.of_nat (i + n) + 1
                /\ (n < length lines)%nat
                /\ (exists k, b + depthAt lines n k < 0)
                /\ forall m k, (m < n)%nat -> 0 <= b + depthAt lines m k
  | BraceMismatch =>
      (forall m k, 0 <= b + depthAt lines m k)
      /\ b + braceDelta (concat lines) <> 0
  | BraceOk =>
      (forall m k, 0 <= b + depthAt lines m k)
      /\ b + braceDelta (concat lines) = 0
  end.
Proof.
  revert i b. induction lines as [|text rest IH]; intros i b Hb.
  - simpl.
    assert (forall m k, 0 <= b + depthAt [] m k) as H0.
    { intros m k. unfold depthAt. rewrite take_nil. simpl.
      rewrite take_nil. simpl. lia. }
    destruct (Z.eqb_spec b 0); split; try done; lia.
  - cbn [balanceLines]. pose proof (balanceLine_spec b text Hb) as Hline.
    destruct (balanceLine b text) as [b'|].
    + destruct Hline as [-> Hk].
      assert (0 <= b + braceDelta text) as Hb'.
      { specialize (Hk (length text)). by rewrite firstn_all in Hk. }
      specialize (IH (S i) _ Hb').
      assert (forall m : nat,
                 (forall m' k', (m' < m)%nat ->
                                0 <= b + braceDelta text + depthAt rest m' k') ->
                 forall m' k', (m' < S m)%nat ->
                                0 <= b + depthAt (text :: rest) m' k') as Hshift.
      { intros m H [|m'] k' Hlt.
        - rewrite depthAt_head. apply Hk.
        - rewrite depthAt_cons. specialize (H m' k'). lia. }
      destruct (balanceLines (S i) (b + braceDelta text) rest) as [|lineNo|].
      * destruct IH as [H1 H2]. split.
        -- intros m k. apply (Hshift (S m) (fun m' k' _ => H1 m' k') m k). lia.
        -- simpl. rewrite braceDelta_app. lia.
      * destruct IH as (n & -> & Hn & [k Hdip] & Hbefore).
        exists (S n). split; [lia|]. split; [simpl; lia|]. split.
        -- exists k. rewrite depthAt_cons. lia.
        -- by apply (Hshift n).
      * destruct IH as [H1 H2]. split.
        -- intros m k. apply (Hshift (S m) (fun m' k' _ => H1 m' k') m k). lia.
        -- simpl. rewrite braceDelta_app. lia.
    + destruct Hline as [k Hk]. exists 0%nat. split; [lia|].
      split; [simpl; lia|]. split.
      * exists k. by rewrite depthAt_head.
      * intros m k' Hm. lia.
Qed.

Lemma checkBraceBalance_spec (document : list str) :
  match checkBraceBalance document with
  | UnmatchedCloseAt lineNo =>
      exists n, lineNo = Z.of_nat n + 1
                /\ (n < length document)%nat
                /\ unmatchedCloseOn document n
                /\ forall m, (m < n)%nat -> ~ unmatchedCloseOn document m
  | BraceMismatch =>
      (forall n, ~ unmatchedCloseOn document n)
      /\ braceDelta (concat document) <> 0
  | BraceOk =>
      (forall n, ~ unmatchedCloseOn document n)
      /\ braceDelta (concat document) = 0
  end.
Proof.
  unfold checkBraceBalance, unmatchedCloseOn.
  pose proof (balanceLines_spec 0 0 document (Z.le_refl 0)) as H.
  destruct (balanceLines 0 0 document) as [|lineNo|].
  - destruct H as [H1 H2]. split; [|lia].
    intros n [k Hk]. specialize (H1 n k). lia.
  - destruct H as (n & -> & Hn & [k Hk] & Hbefore).
    exists n. split; [done|]. split; [done|]. split.
    + exists k. lia.
    + intros m Hm [k' Hk']. specialize (Hbefore m k' Hm). lia.
  - destruct H as [H1 H2]. split; [|lia].
    intros n [k Hk]. specialize (H1 n k). lia.
Qed.

(** C8.  The command handler checks the braces of the whole document
    before it resolves an insertion point.  The check names line [n + 1]
    exactly when line [n] (counted from 0) is the first on which a closing
    brace has no matching open, and reports a mismatch exactly when no
    line has one and the braces do not cancel over the document.  When the
    check fails the handler never reaches the edit, and once the selection
    has been accepted it shows the error of the check. *)
Theorem brace_guard_precedes_insertion
    {Editor Warning Expression Insertion : Type}
    (documentOf : Editor -> list str)
    (chooseExpression : Editor -> Warning + Expression)
    (resolveInsertion : Editor -> Expression -> Insertion)
    (editor : Editor) :
  let document := documentOf editor in
  let handler := dumpVariable documentOf chooseExpression resolveInsertion in
  (forall lineNo,
      checkBraceBalance document = UnmatchedCloseAt lineNo <->
      exists n, lineNo = Z.of_nat n + 1
                /\ unmatchedCloseOn document n
                /\ forall m, (m < n)%nat -> ~ unmatchedCloseOn document m)
  /\ (checkBraceBalance document = BraceMismatch <->
      (forall n, ~ unmatchedCloseOn document n)
      /\ braceDelta (concat document) <> 0)
  /\ (checkBraceBalance document <> BraceOk ->
      (forall insertion, handler editor <> Edit insertion)
      /\ forall expression,
           chooseExpression editor = inr expression ->
           handler editor = ShowError (checkBraceBalance document)).
Proof.
  intros document handler.
  pose proof (checkBraceBalance_spec document) as Hspec.
  split; [|split].
  - intros lineNo. split.
    + intros Hc. rewrite Hc in Hspec.
      destruct Hspec as (n & -> & _ & Hdip & Hfirst). by exists n.
    + intros (n & -> & Hdip & Hfirst).
      destruct (checkBraceBalance document) as [|lineNo|].
      * destruct Hspec as [Hnone _]. by destruct (Hnone n).
      * destruct Hspec as (n' & -> & _ & Hdip' & Hfirst').
        destruct (lt_eq_lt_dec n n') as [[Hlt| ->]|Hlt]; [|done|].
        -- by destruct (Hfirst' n Hlt).
        -- by destruct (Hfirst n' Hlt).
      * destruct Hspec as [Hnone _]. by destruct (Hnone n).
  - split.
    + intros Hc. by rewrite Hc in Hspec.
    + intros [Hnone Hne].
      destruct (checkBraceBalance document) as [|lineNo|]; [|exfalso|done].
      * by destruct Hspec.
      * destruct Hspec as (n & _ & _ & Hdip & _). by destruct (Hnone n).
  - intros Hbad. subst handler. unfold dumpVariable. fold document. split.
    + intros insertion.
      destruct (chooseExpression editor); [done|].
      by destruct (checkBraceBalance document).
    + intros expression ->. by destruct (checkBraceBalance document).
Qed.

Lemma brace_guard_precedes_insertion_witness :
  checkBraceBalance sampleDocument = UnmatchedCloseAt 10
  /\ (forall insertion : str,
        dumpVariable (fun editor : list str => editor)
          (fun _ => inr (lit "$x") : unit + str) (fun _ e => e)
          sampleDocument <> Edit insertion)
  /\ dumpVariable (fun editor : list str => editor)
       (fun _ => inr (lit "$x") : unit + str) (fun _ e => e) sampleDocument
     = ShowError (UnmatchedCloseAt 10).
Proof.
  assert (checkBraceBalance sampleDocument = UnmatchedCloseAt 10) as Hc
    by reflexivity.
  split; [exact Hc|].
  destruct (brace_guard_precedes_insertion
              (fun editor : list str => editor)
              (fun _ => inr (lit "$x") : unit + str) (fun _ e => e)
              sampleDocument) as (_ & _ & Hguard).
  destruct Hguard as [Hnever Herror].
  { simpl. rewrite Hc. discriminate. }
  split; [exact Hnever|]. rewrite (Herror (lit "$x") eq_refl).
  by rewrite Hc.
Defined.

(** The example of the specification: nine balanced lines and a closing
    brace too many on line 10. *)
Example extra_brace_on_line_10 :
  checkBraceBalance sampleDocument = UnmatchedCloseAt 10.
Proof. reflexivity. Qed.

(** ** Bookmarks and the clear operations *)

(** [clearStatement] itself refuses a bookmarked statement and changes
    nothing. *)
Lemma clearStatement_bookmarked (pv : Provider) (statement : DebugStatement) :
  isBookmarked pv (id statement) = true ->
  clearStatement pv statement = (false, pv).
Proof. intros H. unfold clearStatement. by rewrite H. Qed.

(** Neither batch operation counts a bookmarked statement: the statements
    it hands to [clearStatement] are not bookmarked. *)
Lemma clearFileStatements_skips_bookmarked (pv : Provider) (path : str) :
  Forall (fun s => isBookmarked pv (id s) = false)
    (List.filter (fun s => negb (isBookmarked pv (id s)))
       (getStatementsByFile pv path)).
Proof.
  apply Forall_forall. intros s Hs.
  apply list_elem_of_In, filter_In in Hs as [_ Hs].
  by apply negb_true_iff.
Qed.

(** C10 (code defect).  [clearStatement] deletes the whole line of the
    statement it is given, so a bookmarked statement is deleted with it in
    two situations.  (1) It shares its line with a statement that is not
    bookmarked: [clearFileStatements] and [clearAllStatements] return 1 and
    line 2, [echo $a; print_r($b);], is gone although [print_r($b);] is
    bookmarked.  (2) It stands on the line after two statements that share
    a line: the second deletion at that index removes the line that moved
    up, and both operations return 2 with the bookmarked
    [var_dump($keep);] gone. *)
Theorem clearing_deletes_bookmarked_lines :
  let path := lit "/w/a.php" in
  let linesAfter (r : Z * Provider) := documents r.2 !! path in
  (exists keep,
      getAllStatements sharedLineProvider !! 1%nat = Some keep
      /\ isBookmarked sharedLineProvider (id keep) = true
      /\ content keep = lit "print_r($b);" /\ lineNumber keep = 2)
  /\ documents sharedLineProvider !! path
     = Some [lit "<?php"; lit "echo $a; print_r($b);"; lit "$x = 1;"]
  /\ (clearFileStatements sharedLineProvider path).1 = 1
  /\ linesAfter (clearFileStatements sharedLineProvider path)
     = Some [lit "<?php"; lit "$x = 1;"]
  /\ (clearAllStatements sharedLineProvider).1 = 1
  /\ linesAfter (clearAllStatements sharedLineProvider)
     = Some [lit "<?php"; lit "$x = 1;"]
  /\ (exists keep,
        getAllStatements nextLineProvider !! 2%nat = Some keep
        /\ isBookmarked nextLineProvider (id keep) = true
        /\ content keep = lit "var_dump($keep);" /\ lineNumber keep = 2)
  /\ documents nextLineProvider !! path
     = Some [lit "echo $a; print_r($b);"; lit "var_dump($keep);";
             lit "$x = 1;"]
  /\ (clearFileStatements nextLineProvider path).1 = 2
  /\ linesAfter (clearFileStatements nextLineProvider path)
     = Some [lit "$x = 1;"]
  /\ (clearAllStatements nextLineProvider).1 = 2
  /\ linesAfter (clearAllStatements nextLineProvider)
     = Some [lit "$x = 1;"].
Proof.
  repeat split; try (vm_compute; reflexivity);
    eexists; vm_compute; by repeat split.
Qed.

(** * The merge rule *)

(** ** Characters *)

Lemma isSpace_not_word (c : ascii) : isSpace c = true -> isWord c = false.
Proof. by destruct c as [[] [] [] [] [] [] [] []]. Qed.

Lemma isSpace_lower (c : ascii) : isSpace (lowerChar c) = isSpace c.
Proof. by destruct c as [[] [] [] [] [] [] [] []]. Qed.

Lemma isWord_lower (c : ascii) : isWord c = true -> isWord (lowerChar c) = true.
Proof. by destruct c as [[] [] [] [] [] [] [] []]. Qed.

(** ** Trimming *)

Lemma trimStart_split (s : str) :
  exists ws, s = ws ++ trimStart s /\ Forall (fun c => isSpace c = true) ws.
Proof.
  induction s as [|c s (ws & Hs & Hws)]; [by exists []|].
  simpl. destruct (isSpace c) eqn:E.
  - exists (c :: ws). split; [simpl; by f_equal|by constructor].
  - by exists [].
Qed.

Lemma trimStart_visible (c : ascii) (s : str) :
  isSpace c = false -> trimStart (c :: s) = c :: s.
Proof. intros H. simpl. by rewrite H. Qed.

Lemma trimEnd_visible (s : str) (c : ascii) :
  isSpace c = false -> trimEnd (s ++ [c]) = s ++ [c].
Proof.
  intros H. unfold trimEnd. rewrite rev_app_distr. simpl. rewrite H.
  simpl. by rewrite rev_involutive.
Qed.

Lemma trim_visible (c x : ascii) (s : str) :
  isSpace c = false -> isSpace x = false ->
  trim (c :: s ++ [x]) = c :: s ++ [x].
Proof.
  intros Hc Hx. unfold trim. rewrite trimStart_visible by done.
  by apply (trimEnd_visible (c :: s)).
Qed.

Lemma trimStart_lower (s : str) :
  trimStart (toLowerCase s) = toLowerCase (trimStart s).
Proof.
  induction s as [|c s IH]; [done|]. simpl.
  rewrite isSpace_lower. by destruct (isSpace c).
Qed.

Lemma trimStart_spaces (ws s : str) :
  Forall (fun c => isSpace c = true) ws -> trimStart (ws ++ s) = trimStart s.
Proof. induction 1 as [|c ws Hc _ IH]; [done|]. simpl. by rewrite Hc. Qed.

(** ** Searching *)

Lemma startsWith_app (p r : str) : startsWith p (p ++ r) = true.
Proof. apply startsWith_iff. by exists r. Qed.

Lemma startsWith_drop (p s : str) :
  startsWith p s = true -> s = p ++ drop (length p) s.
Proof.
  intros H. apply startsWith_iff in H as [r ->].
  by rewrite drop_app_length.
Qed.

Lemma search_cons (n : str) (c : ascii) (h : str) :
  search n (c :: h)
  = if startsWith n (c :: h) then Some 0%nat else S <$> search n h.
Proof. done. Qed.

(** A token that begins with a visible character is first found right
    after the white space in front of it. *)
Lemma search_after_spaces (c : ascii) (tok ws rest : str) :
  isSpace c = false -> Forall (fun x => isSpace x = true) ws ->
  search (c :: tok) (ws ++ (c :: tok) ++ rest) = Some (length ws).
Proof.
  intros Hc. induction 1 as [|x ws Hx _ IH].
  - change ([] ++ (c :: tok) ++ rest) with (c :: (tok ++ rest)).
    rewrite search_cons.
    assert (startsWith (c :: tok) (c :: (tok ++ rest)) = true) as ->
      by apply (startsWith_app (c :: tok) rest).
    done.
  - change ((x :: ws) ++ (c :: tok) ++ rest)
      with (x :: (ws ++ (c :: tok) ++ rest)).
    rewrite search_cons, IH.
    assert (startsWith (c :: tok) (x :: (ws ++ (c :: tok) ++ rest)) = false)
      as ->; [|done].
    cbn [startsWith]. assert (eqc c x = false) as ->; [|done].
    apply eqc_neq. intros ->. congruence.
Qed.

Lemma indexOf_after_spaces (c : ascii) (tok pre ws rest : str) :
  isSpace c = false -> Forall (fun x => isSpace x = true) ws ->
  indexOf (c :: tok) (pre ++ ws ++ (c :: tok) ++ rest) (Z.of_nat (length pre))
  = Z.of_nat (length pre + length ws).
Proof.
  intros Hc Hws. unfold indexOf, len.
  rewrite Z.max_l by lia. rewrite Z.min_l by (rewrite length_app; lia).
  rewrite Nat2Z.id, drop_app_length.
  by rewrite (search_after_spaces c tok ws rest Hc Hws).
Qed.

(** ** [findEnd] on plain text *)

Lemma findEndLoop_plain (q : option ascii) (esc : bool) (i : nat)
    (body rest : str) :
  forallb plainChar body = true -> chSemi ∉ body ->
  findEndLoop false q esc i (body ++ chSemi :: rest)
  = Some (i + length body + 1)%nat.
Proof.
  revert i. induction body as [|c body IH]; intros i Hplain Hsemi.
  - simpl. f_equal. lia.
  - simpl in Hplain. apply andb_true_iff in Hplain as [Hc Hplain].
    apply not_elem_of_cons in Hsemi as [Hne Hsemi].
    cbn [app findEndLoop].
    unfold plainChar in Hc. apply negb_true_iff in Hc.
    apply orb_false_iff in Hc as [Hc _]. apply orb_false_iff in Hc as [Hc _].
    rewrite orb_comm, Hc.
    assert (eqc c chSemi = false) as -> by (apply eqc_neq; congruence).
    rewrite IH by done. f_equal. simpl. lia.
Qed.

Lemma findEnd_plain (pre body rest : str) :
  forallb plainChar body = true -> chSemi ∉ body ->
  findEnd (pre ++ body ++ chSemi :: rest) (Z.of_nat (length pre))
  = Z.of_nat (length pre + length body + 1).
Proof.
  intros Hplain Hsemi. unfold findEnd.
  rewrite Z.max_r by lia. rewrite Nat2Z.id, drop_app_length.
  by rewrite findEndLoop_plain.
Qed.

(** ** Finding the keyword of the following segment *)

Lemma keywordAt_space (kw : string) (c : ascii) (s : str) (k : ascii) (w : str) :
  lit kw = k :: w -> isSpace k = false -> isSpace c = true ->
  keywordAt kw (c :: s) = false.
Proof.
  intros Hkw Hk Hc. unfold keywordAt. rewrite Hkw. simpl.
  assert (eqc k c = false) as ->; [|done].
  apply eqc_neq. intros ->. congruence.
Qed.

Lemma searchExitDie_after_spaces (ws rest : str) :
  Forall (fun x => isSpace x = true) ws ->
  keywordAt "exit" rest || keywordAt "die" rest = true ->
  searchExitDieLoop false (ws ++ rest) = Some (length ws).
Proof.
  intros Hws Hkw. induction Hws as [|x ws Hx _ IH].
  - simpl app. destruct rest as [|c rest]; [done|].
    cbn [searchExitDieLoop]. by rewrite Hkw.
  - cbn [app searchExitDieLoop].
    rewrite (keywordAt_space "exit" x _ "e" (lit "xit") eq_refl eq_refl Hx).
    rewrite (keywordAt_space "die" x _ "d" (lit "ie") eq_refl eq_refl Hx).
    simpl. by rewrite (isSpace_not_word x Hx), IH.
Qed.

(** ** The shape of the segments *)

Lemma trim_semicolon_nonempty (cur : str) :
  (0 <? length (trim (cur ++ [chSemi])))%nat = true.
Proof.
  apply Nat.ltb_lt. unfold trim.
  destruct (trimStart_split (cur ++ [chSemi])) as (ws & Hs & Hws).
  destruct (trimStart (cur ++ [chSemi])) as [|c t] eqn:E using rev_ind.
  - rewrite app_nil_r in Hs. subst ws.
    apply Forall_app in Hws as [_ Hws]. by inversion Hws.
  - clear IHt. rewrite app_assoc in Hs. apply app_inj_tail in Hs as [_ <-].
    rewrite trimEnd_visible by done. rewrite length_app. simpl. lia.
Qed.

Lemma segmentsFrom_chunked (rest : str) (k segStart : nat) (cur : str) :
  k = (segStart + length cur)%nat -> chSemi ∉ cur ->
  Chunked segStart (segmentsFrom k segStart cur rest) (cur ++ rest).
Proof.
  revert k segStart cur. induction rest as [|ch rest IH];
    intros k segStart cur Hk Hcur.
  - simpl. rewrite app_nil_r. by constructor.
  - cbn [segmentsFrom]. destruct (eqc ch chSemi) eqn:E.
    + apply eqc_eq in E as ->. rewrite trim_semicolon_nonempty.
      subst k. simpl app. constructor; [done|]. rewrite Nat.add_1_r.
      apply (IH (S (segStart + length cur)) (S (segStart + length cur)) []).
      * simpl. lia.
      * apply not_elem_of_nil.
    + apply eqc_neq in E.
      replace (cur ++ ch :: rest) with ((cur ++ [ch]) ++ rest)
        by (by rewrite <- app_assoc).
      apply IH.
      * rewrite length_app. simpl. lia.
      * intros H. apply elem_of_app in H as [H|H]; [done|].
        apply list_elem_of_singleton in H. congruence.
Qed.

Lemma segments_chunked (sanitized : str) :
  Chunked 0 (segments sanitized) sanitized.
Proof.
  apply (segmentsFrom_chunked sanitized 0 0 []); [done|apply not_elem_of_nil].
Qed.

(** Two neighbours among the segments, as pieces of the line. *)
Lemma chunked_neighbours base segs whole i seg next :
  Chunked base segs whole ->
  segs !! i = Some seg -> segs !! (S i) = Some next ->
  exists pre body1 body2 post,
    whole = pre ++ text seg ++ text next ++ post
    /\ startSan seg = (base + length pre)%nat
    /\ text seg = body1 ++ [chSemi] /\ (chSemi ∉ body1)
    /\ text next = body2 ++ [chSemi] /\ (chSemi ∉ body2)
    /\ endSan next
       = (base + length pre + length (text seg) + length body2)%nat.
Proof.
  intros Hch. revert i. induction Hch as [base tail Htail|base body segs rest Hbody Hch IH];
    intros i Hi Hn; [done|].
  destruct i as [|i].
  - simpl in Hi, Hn. injection Hi as <-. simpl.
    inversion Hch as [|base' body2 segs' rest' Hbody2 Hch' Hb Hs Hr]; subst;
      [done|].
    simpl in Hn. injection Hn as <-. simpl.
    exists [], body, body2, rest'. simpl.
    split; [by rewrite <- !app_assoc|].
    repeat split; try done; try lia.
    rewrite length_app. simpl. lia.
  - simpl in Hi, Hn.
    destruct (IH i Hi Hn) as (pre & b1 & b2 & post & -> & Hs & H1 & H2 & H3 & H4 & H5).
    exists (body ++ chSemi :: pre), b1, b2, post.
    split; [by rewrite <- app_assoc|].
    rewrite length_app. simpl.
    repeat split; try done; lia.
Qed.

(** ** A line without strings or comments is scanned as it stands *)

Lemma plain_chars (s : str) (c : ascii) :
  forallb plainChar s = true -> c ∈ s ->
  c <> chQuote1 /\ c <> chQuote2 /\ c <> chSlash /\ c <> chHash.
Proof.
  intros H Hc. rewrite forallb_forall in H.
  specialize (H c (proj1 (list_elem_of_In _ _) Hc)).
  unfold plainChar in H. apply negb_true_iff in H.
  rewrite !orb_false_iff, !eqc_neq in H. tauto.
Qed.

Lemma startsWith_head (c : ascii) (p s : str) :
  startsWith (c :: p) s = true -> c ∈ s.
Proof. intros H. apply startsWith_iff in H as [r ->]. by left. Qed.

Lemma search_head (c : ascii) (p s : str) (i : nat) :
  search (c :: p) s = Some i -> c ∈ s.
Proof.
  intros H. apply search_Some in H as (a & b & -> & _).
  apply elem_of_app. right. by left.
Qed.

Lemma elem_of_trimStart (x : ascii) (s : str) : x ∈ trimStart s -> x ∈ s.
Proof.
  destruct (trimStart_split s) as (ws & Hs & _). intros H.
  rewrite Hs. apply elem_of_app. by right.
Qed.

Lemma elem_of_rev (x : ascii) (s : str) : x ∈ rev s <-> x ∈ s.
Proof. by rewrite !list_elem_of_In, <- in_rev. Qed.

Lemma elem_of_trim (x : ascii) (s : str) : x ∈ trim s -> x ∈ s.
Proof.
  unfold trim, trimEnd. intros H.
  apply (proj1 (elem_of_rev _ _)) in H. apply elem_of_trimStart in H.
  apply (proj1 (elem_of_rev _ _)) in H. by apply elem_of_trimStart.
Qed.

Lemma indexOf_0 (n s : str) :
  indexOf n s 0
  = match search n s with Some i => Z.of_nat i | None => -1 end.
Proof.
  unfold indexOf, len. rewrite Z.max_l, Z.min_l by lia. done.
Qed.

Lemma stripComments_plain (orig : str) :
  forallb plainChar orig = true ->
  stripComments false orig = (Kept orig, false).
Proof.
  intros H. unfold stripComments.
  assert (startsWith (lit "//") (trim orig) = false) as ->.
  { apply not_true_iff_false. intros Hs.
    apply (startsWith_head chSlash), elem_of_trim in Hs.
    by destruct (plain_chars _ _ H Hs) as (_ & _ & ? & _). }
  assert (startsWith (lit "#") (trim orig) = false) as ->.
  { apply not_true_iff_false. intros Hs.
    apply (startsWith_head chHash), elem_of_trim in Hs.
    by destruct (plain_chars _ _ H Hs) as (_ & _ & _ & ?). }
  simpl orb. cbv iota.
  assert (indexOf (lit "/*") orig 0 = -1) as Hidx.
  { rewrite indexOf_0.
    destruct (search (lit "/*") orig) as [i|] eqn:E; [|done].
    apply (search_head chSlash) in E.
    by destruct (plain_chars _ _ H E) as (_ & _ & ? & _). }
  by rewrite Hidx.
Qed.

Lemma sanitize_plain (q : option ascii) (orig : str) :
  forallb plainChar orig = true ->
  sanitize false q false orig = (orig, (false, q)).
Proof.
  induction orig as [|c orig IH]; [done|]. simpl forallb.
  intros H. apply andb_true_iff in H as [Hc H].
  cbn [sanitize]. unfold plainChar in Hc. apply negb_true_iff in Hc.
  rewrite !orb_false_iff in Hc. destruct Hc as [[[H1 H2] H3] H4].
  by rewrite H1, H2, H3, H4, (IH H).
Qed.

Lemma scanLine_plain fp rel n st orig :
  inBlockComment st = false -> inString st = false ->
  forallb plainChar orig = true -> quickCheck orig = true ->
  (scanLine fp rel n st orig).1
  = processSegments fp rel n orig (seq 0 (length orig)) (segments orig).
Proof.
  intros Hbc Hstr Hplain Hquick. unfold scanLine.
  by rewrite Hbc, Hstr, stripComments_plain, sanitize_plain, Hquick.
Qed.

(** ** The segment loop up to index [i] and from index [i] *)

Lemma loopStandsAt_split fp rel n orig mapIdx (segs : list Segment) :
  forall i, loopStandsAt segs i = true ->
  processSegments fp rel n orig mapIdx segs
  = processSegments fp rel n orig mapIdx (take i segs)
    ++ processSegments fp rel n orig mapIdx (drop i segs).
Proof.
  induction segs as [|x|x y l IH1 IH2] using pair_step_ind; intros i Hi.
  - by destruct i.
  - by destruct i as [|i].
  - destruct i as [|i]; [done|].
    rewrite processSegments_pair. cbn [loopStandsAt] in Hi.
    destruct (isDebugSegment (text x) && isExitOnlySegment (text y)) eqn:E.
    + destruct i as [|i]; [done|].
      cbn [take drop]. rewrite processSegments_pair, E.
      by rewrite (IH1 i Hi).
    + rewrite (IH2 i Hi). destruct i as [|i].
      * reflexivity.
      * cbn [take drop]. rewrite processSegments_pair, E.
        by rewrite <- app_assoc.
Qed.

(** ** Slices of a line given as a concatenation *)

Lemma slice_middle (a m b : str) :
  slice (a ++ m ++ b) (Z.of_nat (length a))
    (Z.of_nat (length a + length m)) = m.
Proof.
  unfold slice, relIndex, len. rewrite !length_app.
  destruct (Z.ltb_spec (Z.of_nat (length a)) 0); [lia|].
  destruct (Z.ltb_spec (Z.of_nat (length a + length m)) 0); [lia|].
  rewrite !Z.min_l by lia.
  replace (Z.to_nat (Z.of_nat (length a + length m) - Z.of_nat (length a)))
    with (length m) by lia.
  by rewrite Nat2Z.id, drop_app_length, take_app_length.
Qed.

Lemma sliceFrom_app (a b : str) :
  sliceFrom (a ++ b) (Z.of_nat (length a)) = b.
Proof.
  unfold sliceFrom, len.
  pose proof (slice_middle a b []) as H. rewrite app_nil_r in H.
  by rewrite length_app.
Qed.

(** ** Keywords *)

Lemma tokenMap_visible (ty : DebugType) :
  exists c tok, tokenMap ty = c :: tok /\ isSpace c = false.
Proof. destruct ty; by eexists _, _. Qed.

Lemma last_semicolon_suffix (ws t body : str) :
  ws ++ t = body ++ [chSemi] -> t <> [] ->
  exists body', t = body' ++ [chSemi] /\ body = ws ++ body'.
Proof.
  intros H Ht. destruct t as [|x t _] using rev_ind; [done|].
  rewrite app_assoc in H. apply app_inj_tail in H as [<- ->]. by exists t.
Qed.

(** What may follow the keyword in an exit-only segment is no word
    character. *)
Lemma exit_tail_boundary (x : str) :
  match trimStart x with
  | c :: body =>
      if eqc c chLParen then
        match afterParenBody body with
        | Some r2 => semicolonTail r2
        | None => false
        end
      else semicolonTail (c :: body)
  | [] => false
  end = true ->
  exists c0 x', x = c0 :: x' /\ isWord c0 = false.
Proof.
  destruct x as [|c0 x']; [done|]. intros H. exists c0, x'. split; [done|].
  destruct (isSpace c0) eqn:Hs; [by apply isSpace_not_word|].
  rewrite trimStart_visible in H by done.
  destruct (eqc c0 chLParen) eqn:Hp; [by apply eqc_eq in Hp as ->|].
  unfold semicolonTail in H. rewrite trimStart_visible in H by done.
  apply andb_true_iff in H as [H _]. by apply eqc_eq in H as ->.
Qed.

Lemma isWord_lower_false (c : ascii) :
  isWord (lowerChar c) = false -> isWord c = false.
Proof.
  intros H. destruct (isWord c) eqn:E; [|done].
  by rewrite (isWord_lower c E) in H.
Qed.

Lemma toLowerCase_app (a b : str) :
  toLowerCase (a ++ b) = toLowerCase a ++ toLowerCase b.
Proof. apply map_app. Qed.

(** In an exit-only segment that spells its keyword in lower case, the
    keyword is found as a whole word, whatever follows the segment. *)
Lemma exit_keyword_found (txt body post : str) :
  txt = body ++ [chSemi] ->
  isExitOnlySegment txt = true ->
  startsWith (lit "exit") (trimStart txt)
  || startsWith (lit "die") (trimStart txt) = true ->
  keywordAt "exit" (trimStart txt ++ post)
  || keywordAt "die" (trimStart txt ++ post) = true.
Proof.
  intros Htxt Hexit Hkw. unfold isExitOnlySegment in Hexit.
  destruct (trimStart_split txt) as (ws & Hsplit & Hws).
  set (t := trimStart txt) in *.
  assert (t <> []) as Hne by (by destruct t).
  destruct (last_semicolon_suffix ws t body) as (bt & Ht & _);
    [congruence|done|].
  assert (trim (toLowerCase txt) = toLowerCase t) as Htrim.
  { unfold trim. rewrite trimStart_lower. fold t.
    rewrite Ht, toLowerCase_app. by apply trimEnd_visible. }
  rewrite Htrim in Hexit. clear Htrim.
  assert (forall (kw : string) k w r,
             lit kw = k :: w -> isSpace k = false ->
             toLowerCase (lit kw) = lit kw ->
             t = lit kw ++ r ->
             afterExitOrDie (toLowerCase t) = Some (toLowerCase r) ->
             keywordAt kw (t ++ post) = true) as Hcase.
  { intros kw k w r Hk Hvis Hlow -> Hafter. rewrite Hafter in Hexit.
    apply exit_tail_boundary in Hexit as (c0 & x' & Hx & Hw).
    destruct r as [|c1 r]; [done|]. injection Hx as <- _.
    apply isWord_lower_false in Hw.
    unfold keywordAt. rewrite <- app_assoc, startsWith_app.
    rewrite drop_app_length. simpl. by rewrite Hw. }
  apply orb_true_iff in Hkw as [Hkw|Hkw].
  - apply startsWith_drop in Hkw.
    rewrite (Hcase "exit"%string "e"%char (lit "xit") _ eq_refl eq_refl eq_refl Hkw);
      [done|].
    rewrite Hkw at 1. by rewrite toLowerCase_app.
  - apply startsWith_drop in Hkw.
    rewrite (Hcase "die"%string "d"%char (lit "ie") _ eq_refl eq_refl eq_refl Hkw);
      [by rewrite orb_true_r|].
    rewrite Hkw at 1. by rewrite toLowerCase_app.
Qed.

Lemma severity_with_exit (a kw b : str) :
  toLowerCase kw = kw -> kw = lit "exit" \/ kw = lit "die" ->
  getStatementSeverity (a ++ kw ++ b) = error.
Proof.
  intros Hlow Hkw. unfold getStatementSeverity.
  assert (includes kw (toLowerCase (a ++ kw ++ b)) = true) as H.
  { apply includes_iff. exists (toLowerCase a), (toLowerCase b).
    by rewrite !toLowerCase_app, Hlow. }
  destruct Hkw as [-> | ->]; rewrite H; by rewrite ?orb_true_r.
Qed.

Lemma plain_app (a b : str) :
  forallb plainChar (a ++ b) = true ->
  forallb plainChar a = true /\ forallb plainChar b = true.
Proof. rewrite forallb_app. apply andb_true_iff. Qed.

(** ** The merged statement *)

(** The two [findEnd] scans and the keyword search of the merge branch, on
    a plain line given by its pieces: white space and text of segment
    [i], then white space and text of segment [i+1]. *)
Lemma merge_span (pre ws t ws2 t2 post bt bt2 r tok : str) (c : ascii) :
  let orig := pre ++ (ws ++ t) ++ (ws2 ++ t2) ++ post in
  Forall (fun x => isSpace x = true) ws ->
  Forall (fun x => isSpace x = true) ws2 ->
  t = (c :: tok) ++ r -> isSpace c = false ->
  t = bt ++ [chSemi] -> t2 = bt2 ++ [chSemi] ->
  forallb plainChar bt = true -> forallb plainChar bt2 = true ->
  chSemi ∉ bt -> chSemi ∉ bt2 ->
  keywordAt "exit" (t2 ++ post) || keywordAt "die" (t2 ++ post) = true ->
  let startTok := locateToken orig (c :: tok) (Z.of_nat (length pre)) in
  let end1 := findEnd orig startTok in
  let exitIdxLocal := searchExitDie (sliceFrom orig end1) in
  let finalEnd :=
    if 0 <=? exitIdxLocal then findEnd orig (end1 + exitIdxLocal) else end1 in
  startTok = Z.of_nat (length pre + length ws)
  /\ finalEnd = Z.of_nat (length (pre ++ ws ++ t ++ ws2 ++ t2))
  /\ slice orig startTok finalEnd = t ++ ws2 ++ t2.
Proof.
  intros orig Hws Hws2 Htok Hc Ht Ht2 Hp Hp2 Hs Hs2 Hkw.
  assert (locateToken orig (c :: tok) (Z.of_nat (length pre))
          = Z.of_nat (length pre + length ws)) as Hlocate.
  { unfold locateToken.
    assert (orig = pre ++ ws ++ (c :: tok) ++ (r ++ (ws2 ++ t2) ++ post)) as ->.
    { subst orig. rewrite Htok. by rewrite <- !app_assoc. }
    rewrite indexOf_after_spaces by done.
    destruct (Z.ltb_spec (Z.of_nat (length pre + length ws)) 0); [lia|done]. }
  assert (findEnd orig (Z.of_nat (length pre + length ws))
          = Z.of_nat (length (pre ++ ws ++ t))) as Hend1.
  { assert (orig = (pre ++ ws) ++ bt ++ chSemi :: ((ws2 ++ t2) ++ post)) as ->.
    { subst orig. rewrite Ht. by rewrite <- !app_assoc. }
    rewrite <- length_app, findEnd_plain by done.
    f_equal. rewrite Ht, !length_app. simpl. lia. }
  assert (sliceFrom orig (Z.of_nat (length (pre ++ ws ++ t)))
          = ws2 ++ t2 ++ post) as Hafter.
  { assert (orig = (pre ++ ws ++ t) ++ ws2 ++ t2 ++ post) as ->
      by (subst orig; by rewrite <- !app_assoc).
    apply sliceFrom_app. }
  assert (searchExitDie (ws2 ++ t2 ++ post) = Z.of_nat (length ws2)) as Hidx.
  { unfold searchExitDie. by rewrite searchExitDie_after_spaces. }
  assert (findEnd orig (Z.of_nat (length (pre ++ ws ++ t))
                        + Z.of_nat (length ws2))
          = Z.of_nat (length (pre ++ ws ++ t ++ ws2 ++ t2))) as Hend2.
  { assert (orig = (pre ++ ws ++ t ++ ws2) ++ bt2 ++ chSemi :: post) as ->.
    { subst orig. rewrite Ht2. by rewrite <- !app_assoc. }
    rewrite <- Nat2Z.inj_add.
    replace (length (pre ++ ws ++ t) + length ws2)%nat
      with (length (pre ++ ws ++ t ++ ws2))
      by (rewrite !length_app; lia).
    rewrite findEnd_plain by done. f_equal.
    rewrite Ht2, !length_app. simpl. lia. }
  cbv zeta. rewrite Hlocate, Hend1, Hafter, Hidx.
  destruct (Z.leb_spec 0 (Z.of_nat (length ws2))); [|lia]. rewrite Hend2.
  split; [done|]. split; [done|].
  assert (orig = (pre ++ ws) ++ (t ++ ws2 ++ t2) ++ post) as ->
    by (subst orig; by rewrite <- !app_assoc).
  rewrite <- length_app.
  replace (length (pre ++ ws ++ t ++ ws2 ++ t2))
    with (length (pre ++ ws) + length (t ++ ws2 ++ t2))%nat
    by (rewrite !length_app; lia).
  apply slice_middle.
Qed.

Lemma mergedStatement_plain fp rel n orig pre post seg next body1 body2 :
  forallb plainChar orig = true ->
  orig = pre ++ text seg ++ text next ++ post ->
  startSan seg = length pre ->
  text seg = body1 ++ [chSemi] -> chSemi ∉ body1 ->
  text next = body2 ++ [chSemi] -> chSemi ∉ body2 ->
  endSan next = (length pre + length (text seg) + length body2)%nat ->
  keywordAsWritten seg = true ->
  exitAsWritten next = true ->
  isExitOnlySegment (text next) = true ->
  let d := mergedStatement fp rel n orig (seq 0 (length orig)) seg in
  type d = getStatementType (text seg)
  /\ severity d = error
  /\ content d = trimStart (text seg) ++ text next
  /\ content d = slice orig (column d) (Z.of_nat (endSan next) + 1)
  /\ column d = Z.of_nat (tokenOffset seg)
  /\ lineNumber d = n.
Proof.
  intros Hplain Horig Hstart Hseg Hsemi1 Hnext Hsemi2 Hend Hkw Hexit Honly.
  pose proof (exit_keyword_found (text next) body2 post Hnext Honly Hexit)
    as Hfound.
  unfold keywordAsWritten in Hkw. unfold exitAsWritten in Hexit.
  unfold tokenOffset.
  destruct (trimStart_split (text seg)) as (ws & Hsplit & Hws).
  destruct (trimStart_split (text next)) as (ws2 & Hsplit2 & Hws2).
  remember (trimStart (text seg)) as t eqn:Et.
  remember (trimStart (text next)) as t2 eqn:Et2.
  destruct (tokenMap_visible (getStatementType (text seg)))
    as (c & tok & Htok & Hc).
  apply startsWith_drop in Hkw. rewrite Htok in Hkw.
  remember (drop (length (c :: tok)) t) as r eqn:Er.
  destruct (last_semicolon_suffix ws t body1) as (bt & Ht & Hb1);
    [congruence|by rewrite Hkw|].
  destruct (last_semicolon_suffix ws2 t2 body2) as (bt2 & Ht2 & Hb2);
    [congruence|by destruct t2|].
  assert (orig = pre ++ (ws ++ t) ++ (ws2 ++ t2) ++ post) as Horig'
    by congruence.
  assert (forallb plainChar bt = true /\ forallb plainChar bt2 = true)
    as [Hpbt Hpbt2].
  { rewrite Horig', Ht, Ht2 in Hplain.
    apply plain_app in Hplain as [_ Hplain].
    apply plain_app in Hplain as [H1 Hplain].
    apply plain_app in H1 as [_ H1]. apply plain_app in H1 as [H1 _].
    apply plain_app in Hplain as [H2 _].
    apply plain_app in H2 as [_ H2]. apply plain_app in H2 as [H2 _].
    by split. }
  assert ((chSemi ∉ bt) /\ (chSemi ∉ bt2)) as [Hsbt Hsbt2].
  { subst body1 body2. split; intros H.
    - apply Hsemi1, elem_of_app. by right.
    - apply Hsemi2, elem_of_app. by right. }
  assert (approxOf (seq 0 (length orig)) seg = Z.of_nat (length pre))
    as Happrox.
  { unfold approxOf. rewrite Hstart, lookup_seq_lt; [done|].
    rewrite Horig, !length_app, Hseg, length_app. simpl. lia. }
  destruct (merge_span pre ws t ws2 t2 post bt bt2 r tok c
              Hws Hws2 Hkw Hc Ht Ht2 Hpbt Hpbt2 Hsbt Hsbt2 Hfound)
    as (Hlocate & Hfinal & Hslice).
  rewrite <- Horig' in Hlocate, Hfinal, Hslice.
  assert (trim (t ++ ws2 ++ t2) = t ++ ws2 ++ t2) as Htrim.
  { assert (t ++ ws2 ++ t2 = c :: (tok ++ r ++ ws2 ++ bt2) ++ [chSemi]) as ->
      by (rewrite Hkw, Ht2; simpl; by rewrite <- !app_assoc).
    by apply trim_visible. }
  unfold mergedStatement. rewrite Happrox, Htok. cbv zeta.
  rewrite Hslice. cbv zeta in Hfinal. rewrite Hfinal in Hslice.
  rewrite Hlocate in *. simpl. rewrite Htrim.
  repeat split.
  - apply orb_true_iff in Hexit as [H|H]; apply startsWith_drop in H;
      rewrite H, !app_assoc, <- (app_assoc _ (lit _));
      by apply severity_with_exit; [|auto].
  - by rewrite Hsplit2.
  - rewrite <- Hslice. f_equal. rewrite Hend, Hsplit, Hb2, Ht2.
    rewrite !length_app. simpl. lia.
  - rewrite Hstart. f_equal.
    rewrite Hsplit at 1. rewrite length_app. lia.
Qed.

(** X15.  Where the merge works.  Take a line without quotes, [/] or [#],
    read outside any string or block comment, that passes the quick
    pre-filter.  If the segment loop stands at segment [i] (no merge at an
    earlier index has consumed it), segment [i] classifies as a debug type
    and spells its keyword as [tokenMap] does, and segment [i+1] is an
    exit-only segment with [exit] or [die] in lower case, then the loop
    emits for the two segments exactly one statement: what it emits before
    is what the segments before [i] give, what it emits after is what the
    segments from [i+2] on give.  The statement has the type of segment
    [i], severity [error], and as content the text of the line from the
    first visible character of segment [i] to the end of segment [i+1]. *)
Theorem merge_with_following_exit fp rel n st orig i seg next :
  inBlockComment st = false -> inString st = false ->
  forallb plainChar orig = true ->
  quickCheck orig = true ->
  segments orig !! i = Some seg ->
  segments orig !! (S i) = Some next ->
  loopStandsAt (segments orig) i = true ->
  isDebugSegment (text seg) = true ->
  isExitOnlySegment (text next) = true ->
  keywordAsWritten seg = true ->
  exitAsWritten next = true ->
  exists d,
    (scanLine fp rel n st orig).1
    = processSegments fp rel n orig (seq 0 (length orig))
        (take i (segments orig))
      ++ d :: processSegments fp rel n orig (seq 0 (length orig))
                (drop (S (S i)) (segments orig))
    /\ type d = getStatementType (text seg)
    /\ matchTypeFromText (text seg) = Some (type d)
    /\ severity d = error
    /\ content d = trimStart (text seg) ++ text next
    /\ content d = slice orig (column d) (Z.of_nat (endSan next) + 1)
    /\ column d = Z.of_nat (tokenOffset seg)
    /\ lineNumber d = n.
Proof.
  intros Hbc Hstr Hplain Hquick Hi Hn Hstand Hdebug Honly Hkw Hexit.
  exists (mergedStatement fp rel n orig (seq 0 (length orig)) seg).
  destruct (chunked_neighbours 0 _ _ i seg next (segments_chunked orig) Hi Hn)
    as (pre & b1 & b2 & post & Horig & Hs & H1 & H2 & H3 & H4 & H5).
  destruct (mergedStatement_plain fp rel n orig pre post seg next b1 b2)
    as (Hty & Hsev & Hc1 & Hc2 & Hcol & Hline); try done.
  split; [|repeat split; try done].
  - rewrite scanLine_plain by done.
    rewrite (loopStandsAt_split _ _ _ _ _ _ i Hstand). f_equal.
    rewrite (drop_S _ _ _ Hi), (drop_S _ _ _ Hn).
    by rewrite processSegments_pair, Hdebug, Honly.
  - rewrite Hty. unfold getStatementType, isDebugSegment in *.
    by destruct (matchTypeFromText (text seg)).
Qed.

Lemma merge_with_following_exit_witness :
  let line := lit "dd($x); exit;" in
  exists seg next d,
    segments line !! 0%nat = Some seg /\ segments line !! 1%nat = Some next
    /\ (scanLine (lit "/w/a.php") (lit "a.php") 1 initialLexState line).1
       = [d]
    /\ type d = dd /\ severity d = error
    /\ content d = lit "dd($x); exit;" /\ column d = 0.
Proof.
  intros line.
  destruct (segments line) as [|seg [|next rest]] eqn:Hsegs;
    try (vm_compute in Hsegs; discriminate).
  exists seg, next.
  assert (seg = {| text := lit "dd($x);"; startSan := 0; endSan := 6 |}
          /\ next = {| text := lit " exit;"; startSan := 7; endSan := 12 |}
          /\ rest = []) as (Hseg & Hnext & Hrest).
  { vm_compute in Hsegs. by injection Hsegs as <- <- <-. }
  destruct (merge_with_following_exit (lit "/w/a.php") (lit "a.php") 1
              initialLexState line 0 seg next)
    as (d & Hout & Hty & _ & Hsev & Hcontent & _ & Hcol & _);
    try (rewrite ?Hsegs, ?Hseg, ?Hnext; reflexivity).
  exists d. rewrite Hsegs, Hrest in Hout.
  repeat split; try done.
  - by rewrite Hty, Hseg.
  - by rewrite Hcontent, Hseg, Hnext.
  - by rewrite Hcol, Hseg.
Defined.

(** The example of the specification, by evaluation. *)
Example dd_exit_is_one_statement :
  exists d,
    scanContent (lit "/w/a.php") (lit "a.php") (lit "dd($x); exit;") = [d]
    /\ type d = dd /\ severity d = error
    /\ content d = lit "dd($x); exit;".
Proof. eexists. vm_compute. by repeat split. Qed.

(** A segment that a merge has consumed starts no merge of its own: in
    [echo 1; exit; exit;] segment 1 classifies as [exit] and segment 2 is
    exit-only, but the loop merged segments 0 and 1 and stands next at
    segment 2, which it emits on its own; no statement spans segments 1
    and 2. *)
Lemma no_merge_at_a_consumed_segment :
  let line := lit "echo 1; exit; exit;" in
  let s0 := {| text := lit "echo 1;"; startSan := 0; endSan := 6 |} in
  let s1 := {| text := lit " exit;"; startSan := 7; endSan := 12 |} in
  let s2 := {| text := lit " exit;"; startSan := 13; endSan := 18 |} in
  let found := scanContent (lit "/w/a.php") (lit "a.php") line in
  segments line = [s0; s1; s2]
  /\ matchTypeFromText (text s1) = Some exit
  /\ isExitOnlySegment (text s2) = true
  /\ loopStandsAt (segments line) 1 = false
  /\ map type found = [echo; exit]
  /\ map content found = [lit "echo 1; exit;"; lit "exit;"]
  /\ map column found = [0; Z.of_nat (tokenOffset s2)]
  /\ Forall (fun d => content d <> trimStart (text s1) ++ text s2) found.
Proof.
  repeat split; try (vm_compute; reflexivity).
  vm_compute. repeat constructor; discriminate.
Qed.

(** C4 (code defect).  The merge classifies without regard to case but
    searches the line for the keywords as [tokenMap] and the pattern
    [\b(?:exit|die)\b] spell them, in lower case.  In
    [Var_Dump($x); exit;] segment 0 classifies as [var_dump] and segment 1
    is exit-only, so the two are merged; but [indexOf] finds no
    [var_dump], the start is [-1], and [slice(-1, 19)] leaves the last
    character of the line: one statement with content [;], column [-1]
    and severity [info].  In [var_dump($x); EXIT;] the merge is taken as
    well, the search for the exit keyword finds nothing, and the one
    statement ends after the first segment: content [var_dump($x);],
    severity [info], with the [EXIT;] consumed and reported nowhere. *)
Theorem merge_misses_keywords_in_upper_case :
  let upperCall := lit "Var_Dump($x); exit;" in
  let upperExit := lit "var_dump($x); EXIT;" in
  let scan := scanContent (lit "/w/a.php") (lit "a.php") in
  (map text (segments upperCall) = [lit "Var_Dump($x);"; lit " exit;"]
   /\ matchTypeFromText (lit "Var_Dump($x);") = Some var_dump
   /\ isExitOnlySegment (lit " exit;") = true
   /\ map type (scan upperCall) = [var_dump]
   /\ map content (scan upperCall) = [lit ";"]
   /\ map column (scan upperCall) = [-1]
   /\ map severity (scan upperCall) = [info])
  /\ (map text (segments upperExit) = [lit "var_dump($x);"; lit " EXIT;"]
      /\ matchTypeFromText (lit "var_dump($x);") = Some var_dump
      /\ isExitOnlySegment (lit " EXIT;") = true
      /\ map type (scan upperExit) = [var_dump]
      /\ map content (scan upperExit) = [lit "var_dump($x);"]
      /\ map column (scan upperExit) = [0]
      /\ map severity (scan upperExit) = [info]).
Proof. repeat split; vm_compute; reflexivity. Qed.

(** * Further properties of the code *)

(** After a call that returned, the cache holds the fingerprint that
    [stat] gives now. *)
Lemma scanFile_settled_again host sc path found sc' :
  scanFile host sc path = (Returned found, sc') ->
  scanFile host sc' path = (Returned found, sc').
Proof.
  intros H. destruct (scanFile_settles host sc path _ sc' H) as [Hs Ho].
  rewrite (Hs sc' (sameView_refl sc' path)). by rewrite Ho.
Qed.

(** X1.  [scanFile] settles after one call: scanning the same path again,
    with the file system unchanged, returns the same outcome and leaves
    the scanner as it is. *)
Theorem scanFile_twice host sc path o sc' :
  scanFile host sc path = (o, sc') ->
  scanFile host sc' path = (o, sc').
Proof.
  intros H. destruct (scanFile_settles host sc path o sc' H) as [Hs Ho].
  rewrite (Hs sc' (sameView_refl sc' path)). by rewrite Ho.
Qed.

Lemma scanFile_twice_witness :
  let r := scanFile sampleHost freshScanner (lit "/w/ok.php") in
  r.1 = Returned (scanContent (lit "/w/ok.php") (lit "/w/ok.php")
                    (lit "var_dump($x);"))
  /\ scanFile sampleHost r.2 (lit "/w/ok.php") = r.
Proof.
  intros r. split; [vm_compute; reflexivity|].
  destruct r as [o sc'] eqn:E.
  by apply (scanFile_twice sampleHost freshScanner (lit "/w/ok.php")).
Defined.

(** X2.  The fingerprint decides.  After a successful scan the file is
    not read again while [stat] reports the same size and modification
    time: whatever the file then contains, and even if it cannot be read,
    the cached statements are returned. *)
Theorem unchanged_fingerprint_skips_the_read host host' sc path found sc' :
  scanFile host sc path = (Returned found, sc') ->
  stat host' path = stat host path ->
  maxFileSize host' = maxFileSize host ->
  scanFile host' sc' path = (Returned found, sc').
Proof.
  intros H Hstat Hmax. pose proof (scanFile_settled_again _ _ _ _ _ H) as H2.
  revert H2. unfold scanFile. rewrite Hstat, Hmax.
  destruct (stat host path) as [stats|]; [|done].
  destruct (maxFileSize host <? size stats); [done|].
  destruct (match fileCache sc' !! path with
            | Some cached => bool_decide (hash cached = getFileHash stats)
            | None => false
            end) eqn:Hhit; [done|].
  destruct (readFile host path); [|done].
  intros [= _ Hsc]. exfalso.
  apply (f_equal (fun s => fileCache s !! path)) in Hsc.
  simpl in Hsc. rewrite lookup_insert_eq in Hsc. rewrite <- Hsc in Hhit.
  simpl in Hhit. by rewrite bool_decide_eq_true_2 in Hhit.
Qed.

Lemma unchanged_fingerprint_skips_the_read_witness :
  let host' :=
    {| maxFileSize := maxFileSize sampleHost;
       isExcluded := isExcluded sampleHost;
       relativeOf := relativeOf sampleHost;
       localeCompare := localeCompare sampleHost;
       stat := stat sampleHost;
       readFile := fun _ => None |} in
  let r := scanFile sampleHost freshScanner (lit "/w/ok.php") in
  r.1 = Returned (scanContent (lit "/w/ok.php") (lit "/w/ok.php")
                    (lit "var_dump($x);"))
  /\ scanFile host' r.2 (lit "/w/ok.php") = r
  /\ scanFile host' freshScanner (lit "/w/ok.php")
     = (Thrown ReadError, freshScanner).
Proof.
  intros host' r.
  assert (r.1 = Returned (scanContent (lit "/w/ok.php") (lit "/w/ok.php")
                            (lit "var_dump($x);"))) as H1
    by (vm_compute; reflexivity).
  split; [exact H1|]. split; [|reflexivity].
  destruct r as [o sc'] eqn:E. simpl in H1. subst o.
  by apply (unchanged_fingerprint_skips_the_read sampleHost host'
              freshScanner (lit "/w/ok.php") _ sc' E).
Defined.

(** ** What every reported statement carries *)

Lemma indexOf_spec (needle s : str) (from : Z) :
  indexOf needle s from = -1
  \/ (0 <= indexOf needle s from
      /\ startsWith needle (drop (Z.to_nat (indexOf needle s from)) s) = true).
Proof.
  unfold indexOf.
  set (k := Z.to_nat (Z.min (Z.max from 0) (len s))).
  destruct (search needle (drop k s)) as [i|] eqn:E; [right|by left].
  apply search_Some in E as (a & b & Hdrop & <-).
  split; [lia|]. rewrite Nat2Z.id, <- drop_drop, Hdrop.
  rewrite drop_app_length. apply startsWith_app.
Qed.

Lemma locateToken_spec (orig : str) (ty : DebugType) (approx : Z) :
  let col := locateToken orig (tokenMap ty) approx in
  col = -1
  \/ (0 <= col /\ startsWith (tokenMap ty) (drop (Z.to_nat col) orig) = true).
Proof.
  destruct (tokenMap_visible ty) as (c & tok & Htok & _).
  unfold locateToken. rewrite Htok.
  destruct (Z.ltb_spec (indexOf (c :: tok) orig approx) 0) as [Hneg|Hpos].
  - apply indexOf_spec.
  - destruct (indexOf_spec (c :: tok) orig approx) as [H|H]; [lia|by right].
Qed.

Lemma wellFormed_created fp rel n orig ty approx e sev :
  let col := locateToken orig (tokenMap ty) approx in
  wellFormedStatement fp rel n orig
    (createDebugStatement fp rel n col (slice orig col e) orig ty sev).
Proof.
  intros col. unfold wellFormedStatement. simpl.
  repeat split; try done.
  - apply locateToken_spec.
  - by exists e.
Qed.

Lemma processSegments_wellFormed fp rel n orig mapIdx segs :
  Forall (wellFormedStatement fp rel n orig)
    (processSegments fp rel n orig mapIdx segs).
Proof.
  assert (Hsingle : forall seg,
             Forall (wellFormedStatement fp rel n orig)
               (singleStatement fp rel n orig mapIdx seg)).
  { intros seg. unfold singleStatement.
    destruct (matchTypeFromText (text seg)); [|constructor].
    constructor; [apply wellFormed_created|constructor]. }
  induction segs as [|seg|seg next rest IH1 IH2] using pair_step_ind.
  - constructor.
  - apply Hsingle.
  - rewrite processSegments_pair. destruct (_ && _).
    + constructor; [apply wellFormed_created | apply IH1].
    + apply Forall_app. split; [apply Hsingle | apply IH2].
Qed.

Lemma scanLine_wellFormed fp rel n st line :
  Forall (wellFormedStatement fp rel n line) (scanLine fp rel n st line).1.
Proof.
  unfold scanLine. destruct (stripComments _ _) as [[|l] inBC]; [constructor|].
  destruct (sanitize _ _ _ _) as [san [inStr q]].
  destruct (quickCheck san); [|constructor].
  apply processSegments_wellFormed.
Qed.

Lemma scanLines_wellFormed fp rel i st lines :
  Forall (fun d => exists k line,
              lines !! k = Some line
              /\ wellFormedStatement fp rel (Z.of_nat (i + k) + 1) line d)
    (scanLines fp rel i st lines).1.
Proof.
  revert i st. induction lines as [|l lines IH]; intros i st; simpl.
  - constructor.
  - pose proof (scanLine_wellFormed fp rel (Z.of_nat i + 1) st l) as H1.
    destruct (scanLine _ _ _ _ _) as [found st1].
    specialize (IH (S i) st1).
    destruct (scanLines _ _ _ _ _) as [more st2].
    apply Forall_app. simpl in *. split.
    + eapply Forall_impl; [exact H1|]. intros d Hd. exists 0%nat, l.
      split; [done|]. by rewrite Nat.add_0_r.
    + eapply Forall_impl; [exact IH|]. intros d (k & line & Hk & Hd).
      exists (S k), line. split; [done|].
      by replace (i + S k)%nat with (S i + k)%nat by lia.
Qed.

(** X3.  Every statement reported for a file stems from one of its lines:
    it carries the two paths, the number of that line, the trimmed line as
    context and the identifier [path:line:column]; its column is [-1] or
    the place of its type's keyword in the line, and its content is a
    trimmed piece of the line that starts at the column. *)
Theorem reported_statements_are_well_formed fp rel fileText d :
  d ∈ scanContent fp rel fileText ->
  exists k line,
    splitLines fileText !! k = Some line
    /\ lineNumber d = Z.of_nat k + 1
    /\ wellFormedStatement fp rel (Z.of_nat k + 1) line d.
Proof.
  intros Hd.
  pose proof (scanLines_wellFormed fp rel 0 initialLexState
                (splitLines fileText)) as H.
  rewrite Forall_forall in H.
  destruct (H d Hd) as (k & line & Hk & Hw).
  exists k, line. split; [done|]. split; [|done].
  by destruct Hw as (_ & _ & -> & _).
Qed.

Lemma reported_statements_are_well_formed_witness :
  let text := lit "<?php" ++ lit newline ++ lit "  var_dump($x);" in
  let d := createDebugStatement (lit "/w/ok.php") (lit "ok.php") 2 2
             (lit "var_dump($x);") (lit "var_dump($x);") var_dump info in
  d ∈ scanContent (lit "/w/ok.php") (lit "ok.php") text
  /\ exists k line,
       splitLines text !! k = Some line
       /\ lineNumber d = Z.of_nat k + 1
       /\ wellFormedStatement (lit "/w/ok.php") (lit "ok.php")
            (Z.of_nat k + 1) line d.
Proof.
  intros text d.
  assert (d ∈ scanContent (lit "/w/ok.php") (lit "ok.php") text) as Hd.
  { vm_compute. left. }
  split; [exact Hd|].
  exact (reported_statements_are_well_formed _ _ _ _ Hd).
Defined.

(** ** Lines without a semicolon *)

Lemma elem_of_slice (x : ascii) (s : str) (a b : Z) : x ∈ slice s a b -> x ∈ s.
Proof.
  unfold slice. intros H.
  apply (subseteq_take _ _ x) in H. by apply (subseteq_drop _ _ x) in H.
Qed.

Lemma stripComments_chars (inBC : bool) (line kept : str) (inBC' : bool)
    (x : ascii) :
  stripComments inBC line = (Kept kept, inBC') -> x ∈ kept -> x ∈ line.
Proof.
  unfold stripComments.
  set (carried := if inBC then _ else _).
  assert (forall l, carried = Some l -> x ∈ l -> x ∈ line) as Hcar.
  { subst carried. intros l. destruct inBC.
    - destruct (_ =? _); [done|]. intros [= <-]. apply elem_of_slice.
    - by intros [= <-]. }
  destruct carried as [l|]; [|done]. specialize (Hcar l eq_refl).
  destruct (_ || _); [done|].
  destruct (_ =? _).
  - intros [= <- _]. exact Hcar.
  - destruct (_ =? _).
    + intros [= <- _] H. apply Hcar. by apply elem_of_slice in H.
    + intros [= <- _] H. apply Hcar.
      apply elem_of_app in H as [H|H]; by apply elem_of_slice in H.
Qed.

Lemma sanitize_chars (inStr : bool) (q : option ascii) (esc : bool)
    (line : str) (x : ascii) :
  x ∈ (sanitize inStr q esc line).1 -> x ∈ line.
Proof.
  revert inStr q esc. induction line as [|ch rest IH]; intros inStr q esc.
  - simpl. by intros H%elem_of_nil.
  - simpl. intros H. apply elem_of_cons.
    destruct inStr.
    + right. repeat case_match; by eapply IH.
    + destruct (_ || _); [right; by eapply IH|].
      destruct (_ && _); [by apply elem_of_nil in H|].
      destruct (eqc ch chHash); [by apply elem_of_nil in H|].
      specialize (IH false q false).
      destruct (sanitize false q false rest) as [s st]. simpl in *.
      apply elem_of_cons in H as [->|H]; [by left|right; by apply IH].
Qed.

Lemma segmentsFrom_no_semicolon (k segStart : nat) (cur rest : str) :
  chSemi ∉ rest -> segmentsFrom k segStart cur rest = [].
Proof.
  revert k segStart cur. induction rest as [|ch rest IH]; intros k s cur H.
  - done.
  - simpl. destruct (eqc ch chSemi) eqn:E.
    + apply eqc_eq in E as ->. exfalso. apply H. left.
    + apply IH. intros Hin. apply H. by right.
Qed.

(** X4.  Statements end at a semicolon on their own line: a line without
    a semicolon reports nothing, in whatever state the line loop reaches
    it.  The first line of a call written over several lines is such a
    line. *)
Theorem line_without_semicolon_reports_nothing (fp rel : str) (n : Z)
    (st : LexState) (line : str) :
  chSemi ∉ line -> (scanLine fp rel n st line).1 = [].
Proof.
  intros H. unfold scanLine.
  destruct (stripComments _ _) as [[|kept] inBC] eqn:Es; [done|].
  pose proof (sanitize_chars (inString st) (stringDelimiter st) false kept
                chSemi) as Hs.
  destruct (sanitize _ _ _ _) as [san [inStr q]]. simpl in Hs.
  destruct (quickCheck san); [|done]. simpl.
  unfold segments. rewrite segmentsFrom_no_semicolon; [done|].
  intros Hin. apply H. eapply stripComments_chars; [exact Es|]. by apply Hs.
Qed.

Lemma line_without_semicolon_reports_nothing_witness :
  (chSemi ∉ lit "var_dump($x)")
  /\ (scanLine (lit "/w/a.php") (lit "a.php") 1 initialLexState
        (lit "var_dump($x)")).1 = [].
Proof.
  assert (chSemi ∉ lit "var_dump($x)") as H.
  { vm_compute. intros H. repeat (apply elem_of_cons in H as [H|H]; [done|]).
    by apply elem_of_nil in H. }
  split; [exact H|].
  exact (line_without_semicolon_reports_nothing _ _ _ _ _ H).
Defined.

(** ** Order of the statements of one file *)

Lemma processSegments_line fp rel n orig mapIdx segs :
  Forall (fun d => lineNumber d = n)
    (processSegments fp rel n orig mapIdx segs).
Proof.
  assert (Hsingle : forall seg,
             Forall (fun d => lineNumber d = n)
               (singleStatement fp rel n orig mapIdx seg)).
  { intros seg. unfold singleStatement.
    destruct (matchTypeFromText (text seg)); by repeat constructor. }
  induction segs as [|seg|seg next rest IH1 IH2] using pair_step_ind.
  - constructor.
  - apply Hsingle.
  - rewrite processSegments_pair. destruct (_ && _).
    + by constructor.
    + apply Forall_app. split; [apply Hsingle | apply IH2].
Qed.

Lemma scanLine_line fp rel n st line :
  Forall (fun d => lineNumber d = n) (scanLine fp rel n st line).1.
Proof.
  unfold scanLine. destruct (stripComments _ _) as [[|l] inBC]; [constructor|].
  destruct (sanitize _ _ _ _) as [san [inStr q]].
  destruct (quickCheck san); [|constructor].
  apply processSegments_line.
Qed.

Lemma scanLines_line_order fp rel i st lines :
  Forall (fun d => Z.of_nat i + 1 <= lineNumber d)
    (scanLines fp rel i st lines).1
  /\ StronglySorted lineOrder (scanLines fp rel i st lines).1.
Proof.
  revert i st. induction lines as [|l lines IH]; intros i st; simpl.
  - split; constructor.
  - pose proof (scanLine_line fp rel (Z.of_nat i + 1) st l) as H1.
    destruct (scanLine _ _ _ _ _) as [found st1].
    destruct (IH (S i) st1) as [IHa IHb].
    destruct (scanLines _ _ _ _ _) as [more st2]. simpl in *.
    split.
    + apply Forall_app. split.
      * eapply Forall_impl; [exact H1|]. simpl. intros; lia.
      * eapply Forall_impl; [exact IHa|]. simpl. intros; lia.
    + clear IH. induction H1 as [|d found Hd Hf IHf]; [exact IHb|].
      simpl. constructor; [exact IHf|].
      apply Forall_app. split.
      * eapply Forall_impl; [exact Hf|]. unfold lineOrder. simpl. intros; lia.
      * eapply Forall_impl; [exact IHa|]. unfold lineOrder. simpl. intros; lia.
Qed.

(** X5.  The statements of a file come in the order of its lines. *)
Theorem statements_of_a_file_follow_the_lines (fp rel fileText : str) :
  StronglySorted lineOrder (scanContent fp rel fileText).
Proof. apply scanLines_line_order. Qed.

(** ** The classifier *)

Lemma afterToken_starts (tok : string) (t r : str) :
  afterToken tok t = Some r -> startsWith (lit tok) (trimStart t) = true.
Proof. unfold afterToken. by destruct (startsWith _ _). Qed.

Lemma testCall_starts (tok : string) (t : str) :
  testCall tok t = true -> startsWith (lit tok) (trimStart t) = true.
Proof.
  unfold testCall. destruct (afterToken tok t) eqn:E; [|done].
  intros _. by eapply afterToken_starts.
Qed.

Lemma testSpaced_starts (tok : string) (t : str) :
  testSpaced tok t = true -> startsWith (lit tok) (trimStart t) = true.
Proof.
  unfold testSpaced. destruct (afterToken tok t) eqn:E; [|done].
  intros _. by eapply afterToken_starts.
Qed.

Lemma testWord_starts (tok : string) (t : str) :
  testWord tok t = true -> startsWith (lit tok) (trimStart t) = true.
Proof.
  unfold testWord. destruct (afterToken tok t) eqn:E; [|done].
  intros _. by eapply afterToken_starts.
Qed.

Lemma starts_includes (p t : str) :
  startsWith p (trimStart t) = true -> includes p t = true.
Proof.
  intros H. apply startsWith_iff in H as [r Hr].
  destruct (trimStart_split t) as (ws & Ht & _).
  apply includes_iff. exists ws, r. by rewrite Ht at 1; rewrite Hr.
Qed.

(** X6.  A text that [matchTypeFromText] classifies starts, after its
    leading white space and in lower case, with the keyword of the type it
    is given; the one exception is a text that starts with [die] and
    mentions [exit] anywhere, which is read as [exit]. *)
Theorem classified_text_starts_with_its_keyword (s : str) (ty : DebugType) :
  matchTypeFromText s = Some ty ->
  startsWith (tokenMap ty) (trimStart (toLowerCase s)) = true
  \/ (ty = exit /\ dieReadAsExit (toLowerCase s)).
Proof.
  unfold matchTypeFromText, dieReadAsExit.
  generalize (toLowerCase s). intros t.
  repeat (match goal with
          | |- (if testCall ?k t then _ else _) = _ -> _ =>
              destruct (testCall k t) eqn:?;
              [intros [= <-]; left; by apply (testCall_starts k)|]
          | |- (if testSpaced ?k t then _ else _) = _ -> _ =>
              destruct (testSpaced k t) eqn:?;
              [intros [= <-]; left; by apply (testSpaced_starts k)|]
          end).
  destruct (testWord "die" t) eqn:Hdie; cbn [orb].
  - apply testWord_starts in Hdie.
    destruct (includes (lit "exit") t) eqn:Hin; intros [= <-].
    + by right.
    + by left.
  - destruct (testWord "exit" t) eqn:Hexit.
    + apply testWord_starts in Hexit.
      rewrite (starts_includes _ _ Hexit). intros [= <-]. by left.
    + repeat (match goal with
          | |- (if testCall ?k t then _ else _) = _ -> _ =>
              destruct (testCall k t) eqn:?;
              [intros [= <-]; left; by apply (testCall_starts k)|]
          end).
      destruct (testWord "xdebug_break" t) eqn:Hx; [|done].
      intros [= <-]. left. by apply (testWord_starts "xdebug_break").
Qed.

Lemma classified_text_starts_with_its_keyword_witness :
  matchTypeFromText (lit "  DIE($exitCode)") = Some exit
  /\ (startsWith (tokenMap exit) (trimStart (toLowerCase (lit "  DIE($exitCode)")))
      = true
      \/ (exit = exit /\ dieReadAsExit (toLowerCase (lit "  DIE($exitCode)")))).
Proof.
  assert (matchTypeFromText (lit "  DIE($exitCode)") = Some exit) as H
    by (vm_compute; reflexivity).
  split; [exact H|].
  exact (classified_text_starts_with_its_keyword _ _ H).
Defined.

Lemma lowerChar_idem (c : ascii) : lowerChar (lowerChar c) = lowerChar c.
Proof. by destruct c as [[] [] [] [] [] [] [] []]. Qed.

Lemma toLowerCase_idem (s : str) : toLowerCase (toLowerCase s) = toLowerCase s.
Proof.
  unfold toLowerCase. rewrite map_map. apply map_ext. apply lowerChar_idem.
Qed.

Lemma includes_after_spaces (c : ascii) (tok ws t : str) :
  isSpace c = false -> Forall (fun x => isSpace x = true) ws ->
  includes (c :: tok) (ws ++ t) = includes (c :: tok) t.
Proof.
  intros Hc. induction 1 as [|x ws Hx _ IH]; [done|].
  rewrite <- IH. unfold includes. simpl.
  destruct (eqc c x) eqn:E.
  - apply eqc_eq in E as ->. congruence.
  - simpl. by destruct (search (c :: tok) (ws ++ t)).
Qed.

Lemma afterToken_spaces (tok : string) (ws t : str) :
  Forall (fun x => isSpace x = true) ws ->
  afterToken tok (ws ++ t) = afterToken tok t.
Proof. intros H. unfold afterToken. by rewrite trimStart_spaces. Qed.

(** X7.  Neither the case of the letters nor white space in front of the
    text changes the answer of [matchTypeFromText]. *)
Theorem classification_ignores_case_and_indentation (ws s s' : str) :
  Forall (fun c => isSpace c = true) ws ->
  toLowerCase s = toLowerCase s' ->
  matchTypeFromText (ws ++ s) = matchTypeFromText s'.
Proof.
  intros Hws Hs. unfold matchTypeFromText.
  rewrite toLowerCase_app, Hs.
  assert (Forall (fun c => isSpace c = true) (toLowerCase ws)) as Hws'.
  { unfold toLowerCase. apply Forall_map.
    eapply Forall_impl; [exact Hws|]. simpl. intros c Hc.
    by rewrite isSpace_lower. }
  generalize dependent (toLowerCase ws). intros ws' Hws'.
  generalize (toLowerCase s'). intros t.
  unfold testCall, testSpaced, testWord.
  rewrite !(afterToken_spaces _ ws' t Hws').
  change (lit "exit") with ("e"%char :: lit "xit").
  by rewrite (includes_after_spaces "e" (lit "xit") ws' t eq_refl Hws').
Qed.

Lemma classification_ignores_case_and_indentation_witness :
  Forall (fun c => isSpace c = true) (lit "    ")
  /\ toLowerCase (lit "Var_Dump ($x);") = toLowerCase (lit "var_dump ($x);")
  /\ matchTypeFromText (lit "    " ++ lit "Var_Dump ($x);")
     = matchTypeFromText (lit "var_dump ($x);").
Proof.
  assert (Forall (fun c => isSpace c = true) (lit "    ")) as Hws
    by (vm_compute; repeat constructor).
  assert (toLowerCase (lit "Var_Dump ($x);")
          = toLowerCase (lit "var_dump ($x);")) as Hs
    by (vm_compute; reflexivity).
  split; [exact Hws|]. split; [exact Hs|].
  exact (classification_ignores_case_and_indentation _ _ _ Hws Hs).
Defined.

(** ** A cache in line with the file system *)

Lemma cacheSound_fresh host : cacheSound host freshScanner.
Proof. intros p cached stats H. simpl in H. by rewrite lookup_empty in H. Qed.

Lemma scanFile_sound host sc p :
  cacheSound host sc ->
  outcomeOf host sc p = outcomeOf host freshScanner p
  /\ cacheSound host (scanFile host sc p).2.
Proof.
  intros Hsound. unfold outcomeOf, scanFile.
  destruct (stat host p) as [stats|] eqn:Hstat; [|done].
  destruct (maxFileSize host <? size stats); [done|].
  cbn [fileCache freshScanner]. rewrite lookup_empty.
  destruct (fileCache sc !! p) as [cached|] eqn:Hc.
  - destruct (bool_decide (hash cached = getFileHash stats)) eqn:Hhit.
    + apply bool_decide_eq_true in Hhit.
      destruct (Hsound p cached stats Hc Hstat Hhit) as (content & Hr & Hs).
      by rewrite Hr, Hs.
    + destruct (readFile host p) as [content|] eqn:Hr; [|done].
      split; [done|]. simpl.
      intros p' cached' stats' Hc' Hstat' Hhash'. simpl in *.
      destruct (decide (p' = p)) as [->|Hne].
      * exists content. by rewrite lookup_insert_eq.
      * rewrite lookup_insert_ne in Hc' by done.
        rewrite lookup_insert_ne by done. by eapply Hsound.
  - destruct (readFile host p) as [content|] eqn:Hr; [|done].
    split; [done|]. simpl.
    intros p' cached' stats' Hc' Hstat' Hhash'. simpl in *.
    destruct (decide (p' = p)) as [->|Hne].
    * exists content. by rewrite lookup_insert_eq.
    * rewrite lookup_insert_ne in Hc' by done.
      rewrite lookup_insert_ne by done. by eapply Hsound.
Qed.

Lemma scanBatch_sound host sc ps :
  cacheSound host sc ->
  (scanBatch host sc ps).1 = outcomesIn host freshScanner ps
  /\ cacheSound host (scanBatch host sc ps).2.
Proof.
  revert sc. induction ps as [|p ps IH]; intros sc Hsound; simpl; [done|].
  destruct (scanFile_sound host sc p Hsound) as [Ho Hs].
  unfold outcomeOf in Ho.
  destruct (scanFile host sc p) as [o sc1]. simpl in *.
  destruct (IH sc1 Hs) as [IHo IHs].
  destruct (scanBatch host sc1 ps) as [os sc2]. simpl in *.
  by rewrite Ho, IHo.
Qed.

(** X8.  A cache in line with the file system is not observable: the
    result of [scanFiles] is the one a scanner without any cache gives,
    and the cache is in line with the file system afterwards. *)
Theorem sound_cache_is_transparent host sc paths t0 t1 :
  cacheSound host sc -> scanInProgress sc = false ->
  (scanFiles host sc paths t0 t1).1
  = (scanFiles host freshScanner paths t0 t1).1
  /\ cacheSound host (scanFiles host sc paths t0 t1).2.
Proof.
  intros Hsound Hidle. unfold scanFiles. rewrite Hidle. simpl.
  set (targets := List.filter _ _).
  rewrite !scanFilesLoop_flat by lia. rewrite drop_0.
  destruct (scanBatch_sound host (withProgress true sc) targets Hsound)
    as [Ho Hs].
  destruct (scanBatch_sound host (withProgress true freshScanner) targets
              (cacheSound_fresh host)) as [Ho' _].
  destruct (scanBatch host (withProgress true sc) targets) as [os sc1].
  destruct (scanBatch host (withProgress true freshScanner) targets)
    as [os' sc1'].
  simpl in *. by rewrite Ho, Ho'.
Qed.

Lemma sound_cache_is_transparent_witness :
  let sc := (scanFile sampleHost freshScanner (lit "/w/ok.php")).2 in
  let paths := [lit "/w/two.php"; lit "/w/ok.php"; lit "/w/big.php"] in
  cacheSound sampleHost sc
  /\ scanInProgress sc = false
  /\ (hash <$> fileCache sc !! lit "/w/ok.php") = Some (lit "13-7")
  /\ (scanFiles sampleHost sc paths 0 9).1
     = (scanFiles sampleHost freshScanner paths 0 9).1
  /\ cacheSound sampleHost (scanFiles sampleHost sc paths 0 9).2.
Proof.
  intros sc paths.
  assert (cacheSound sampleHost sc) as Hs.
  { apply scanFile_sound, cacheSound_fresh. }
  split; [exact Hs|]. split; [reflexivity|].
  split; [vm_compute; reflexivity|].
  exact (sound_cache_is_transparent sampleHost sc paths 0 9 Hs eq_refl).
Defined.

(** ** The totals of a scan *)

Lemma filter_eligible host (paths : list str) :
  List.filter (fun p => negb (isExcluded host p))
    (List.filter (fun p => endsWith (lit ".php") (toLowerCase p)) paths)
  = List.filter (eligible host) paths.
Proof.
  induction paths as [|p paths IH]; [done|].
  cbn [List.filter]. rewrite <- IH. unfold eligible.
  destruct (endsWith _ _); [|done]. cbn [List.filter andb].
  by destruct (isExcluded host p).
Qed.

Lemma insertSorted_perm {A} (cmp : A -> A -> Z) (x : A) (l : list A) :
  insertSorted cmp x l ≡ₚ x :: l.
Proof.
  induction l as [|y l IH]; [done|]. simpl.
  destruct (_ <=? _); [done|]. rewrite IH. apply Permutation_swap.
Qed.

Lemma sortBy_perm {A} (cmp : A -> A -> Z) (l : list A) : sortBy cmp l ≡ₚ l.
Proof.
  induction l as [|x l IH]; [done|]. simpl.
  by rewrite insertSorted_perm, IH.
Qed.

Lemma scanBatch_paths host sc ps : map fst (scanBatch host sc ps).1 = ps.
Proof.
  revert sc. induction ps as [|p ps IH]; intros sc; simpl; [done|].
  destruct (scanFile host sc p) as [o sc1]. specialize (IH sc1).
  destruct (scanBatch host sc1 ps) as [os sc2]. simpl in *. by rewrite IH.
Qed.

Lemma scanFile_flag host sc p :
  scanInProgress (scanFile host sc p).2 = scanInProgress sc.
Proof. unfold scanFile. by repeat case_match. Qed.

Lemma scanBatch_flag host sc ps :
  scanInProgress (scanBatch host sc ps).2 = scanInProgress sc.
Proof.
  revert sc. induction ps as [|p ps IH]; intros sc; simpl; [done|].
  pose proof (scanFile_flag host sc p) as H.
  destruct (scanFile host sc p) as [o sc1]. specialize (IH sc1).
  destruct (scanBatch host sc1 ps) as [os sc2]. simpl in *. congruence.
Qed.

Lemma absorb_files t os : filesSoFar (absorb t os) = filesSoFar t + len' os.
Proof.
  revert t. unfold len'.
  induction os as [|[p [found|e]] os IH]; intros t; simpl length.
  - simpl. lia.
  - cbn [absorb]. rewrite IH. simpl. lia.
  - cbn [absorb]. rewrite IH. simpl. lia.
Qed.

Lemma absorb_errors t os :
  exists failed,
    map errorPath (errorsSoFar (absorb t os))
    = map errorPath (errorsSoFar t) ++ failed
    /\ sublist failed (map fst os).
Proof.
  revert t. induction os as [|[p [found|e]] os IH]; intros t.
  - exists []. by rewrite app_nil_r.
  - cbn [absorb]. destruct (IH {| foundSoFar := foundSoFar t ++ found;
                                  errorsSoFar := errorsSoFar t;
                                  filesSoFar := filesSoFar t + 1 |})
      as (failed & H1 & H2).
    exists failed. split; [exact H1|]. simpl. by constructor.
  - cbn [absorb].
    destruct (IH {| foundSoFar := foundSoFar t;
                    errorsSoFar :=
                      errorsSoFar t ++ [{| errorPath := p; errorOf := e |}];
                    filesSoFar := filesSoFar t + 1 |})
      as (failed & H1 & H2).
    exists (p :: failed). split; [|simpl; by constructor].
    rewrite H1. simpl. rewrite map_app. simpl. by rewrite <- app_assoc.
Qed.

(** X9.  The counts of [scanFiles]: [scannedFiles] is the number of the
    paths that end in [.php] (in any case) and are not excluded, whether
    their scan succeeded or not; [totalStatements] is the length of
    [statements]; the paths in [errors] are among those files, each at
    most as often as it is a target (in whatever order the errors
    arrived); [scanTime] is the difference of the two clock readings; and
    the scanner is idle again afterwards. *)
Theorem scanFiles_accounting host sc paths t0 t1 r sc' :
  scanInProgress sc = false ->
  scanFiles host sc paths t0 t1 = (Returned r, sc') ->
  scannedFiles r = len' (List.filter (eligible host) paths)
  /\ totalStatements r = len' (statements r)
  /\ map errorPath (errors r) ⊆+ List.filter (eligible host) paths
  /\ scanTime r = t1 - t0
  /\ scanInProgress sc' = false.
Proof.
  intros Hidle. unfold scanFiles. rewrite Hidle, filter_eligible.
  set (targets := List.filter _ _).
  rewrite scanFilesLoop_flat by lia. rewrite drop_0.
  pose proof (scanBatch_paths host (withProgress true sc) targets) as Hp.
  destruct (scanBatch host (withProgress true sc) targets) as [os sc1].
  simpl in Hp. intros [= <- <-]. simpl.
  split; [|split; [|split; [|done]]].
  - rewrite absorb_files. simpl. unfold len'.
    by rewrite <- Hp, length_map.
  - unfold len'. by rewrite sortBy_perm.
  - destruct (absorb_errors noTotals os) as (failed & H1 & H2).
    rewrite H1. simpl. rewrite <- Hp. by apply sublist_submseteq.
Qed.

Lemma scanFiles_accounting_witness :
  let paths := [lit "/w/two.php"; lit "/w/notes.txt"; lit "/w/big.php"] in
  let run := scanFiles sampleHost freshScanner paths 3 10 in
  exists r,
    run = (Returned r, run.2)
    /\ scannedFiles r = 2 /\ totalStatements r = 2
    /\ map errorPath (errors r) = [lit "/w/big.php"]
    /\ map errorPath (errors r) ⊆+ List.filter (eligible sampleHost) paths
    /\ scanInProgress run.2 = false.
Proof.
  intros paths run.
  destruct run as [o sc'] eqn:E.
  assert (exists r, o = Returned r /\ scannedFiles r = 2
                    /\ totalStatements r = 2
                    /\ map errorPath (errors r) = [lit "/w/big.php"])
    as (r & -> & H1 & H2 & H3).
  { replace o with run.1 by (subst run; by rewrite E).
    eexists. split; [subst run; vm_compute; reflexivity|].
    repeat split. }
  exists r. split; [done|]. split; [done|]. split; [done|]. split; [done|].
  destruct (scanFiles_accounting sampleHost freshScanner paths 3 10 r sc'
              eq_refl E) as (_ & _ & Hsub & _ & Hflag).
  by split.
Defined.

(** ** Files above the size limit *)

Lemma scanFile_large host sc p stats :
  stat host p = Some stats -> maxFileSize host < size stats ->
  scanFile host sc p = (Thrown (FileTooLarge (size stats)), sc).
Proof.
  intros Hstat Hbig. unfold scanFile. rewrite Hstat.
  by destruct (Z.ltb_spec (maxFileSize host) (size stats)); [|lia].
Qed.

Lemma scanBatch_large host sc ps p stats :
  p ∈ ps -> stat host p = Some stats -> maxFileSize host < size stats ->
  (p, Thrown (FileTooLarge (size stats))) ∈ (scanBatch host sc ps).1.
Proof.
  intros Hin Hstat Hbig. revert sc.
  induction ps as [|q ps IH]; intros sc; [by apply elem_of_nil in Hin|].
  simpl. apply elem_of_cons in Hin as [<-|Hin].
  - rewrite (scanFile_large host sc p stats Hstat Hbig).
    destruct (scanBatch host sc ps) as [os sc2]. simpl. by left.
  - destruct (scanFile host sc q) as [o sc1]. specialize (IH Hin sc1).
    destruct (scanBatch host sc1 ps) as [os sc2]. simpl in *. by right.
Qed.

Lemma absorb_keeps_errors t os x :
  x ∈ errorsSoFar t -> x ∈ errorsSoFar (absorb t os).
Proof.
  revert t. induction os as [|[p [found|e]] os IH]; intros t Hx; [done| |];
    cbn [absorb]; apply IH; simpl; [done|].
  apply elem_of_app. by left.
Qed.

Lemma absorb_thrown t os p e :
  (p, Thrown e) ∈ os ->
  {| errorPath := p; errorOf := e |} ∈ errorsSoFar (absorb t os).
Proof.
  revert t. induction os as [|[q o] os IH]; intros t Hin;
    [by apply elem_of_nil in Hin|].
  apply elem_of_cons in Hin as [[= <- <-]|Hin].
  - cbn [absorb]. apply absorb_keeps_errors. simpl.
    apply elem_of_app. right. by left.
  - destruct o; cbn [absorb]; by apply IH.
Qed.

(** X10.  [scanFiles] returns a result whatever the sizes of the files
    are, and every target above the size limit has an entry in [errors]
    that carries its size. *)
Theorem scanFiles_reports_every_large_file host sc paths t0 t1 p stats :
  scanInProgress sc = false ->
  p ∈ paths -> eligible host p = true ->
  stat host p = Some stats -> maxFileSize host < size stats ->
  exists r sc',
    scanFiles host sc paths t0 t1 = (Returned r, sc')
    /\ {| errorPath := p; errorOf := FileTooLarge (size stats) |} ∈ errors r.
Proof.
  intros Hidle Hin Hel Hstat Hbig. unfold scanFiles.
  rewrite Hidle, filter_eligible.
  set (targets := List.filter _ _).
  assert (p ∈ targets) as Hp.
  { apply list_elem_of_In, filter_In. split; [by apply list_elem_of_In|done]. }
  rewrite scanFilesLoop_flat by lia. rewrite drop_0.
  pose proof (scanBatch_large host (withProgress true sc) targets p stats
                Hp Hstat Hbig) as Hos.
  destruct (scanBatch host (withProgress true sc) targets) as [os sc1].
  eexists _, _. split; [reflexivity|]. simpl. by apply absorb_thrown.
Qed.

Lemma scanFiles_reports_every_large_file_witness :
  exists r sc',
    scanFiles sampleHost freshScanner [lit "/w/ok.php"; lit "/w/big.php"] 0 1
    = (Returned r, sc')
    /\ {| errorPath := lit "/w/big.php"; errorOf := FileTooLarge 5000 |}
       ∈ errors r.
Proof.
  apply (scanFiles_reports_every_large_file sampleHost freshScanner
           [lit "/w/ok.php"; lit "/w/big.php"] 0 1 (lit "/w/big.php")
           {| size := 5000; mtime := 7 |}).
  - reflexivity.
  - right. left.
  - vm_compute; reflexivity.
  - vm_compute; reflexivity.
  - simpl. lia.
Defined.

(** ** What a scan finds *)

Lemma outcomeOf_fresh_returned host q found :
  outcomeOf host freshScanner q = Returned found
  <-> exists stats content,
        stat host q = Some stats /\ size stats <= maxFileSize host
        /\ readFile host q = Some content
        /\ found = scanContent q (relativeOf host q) content.
Proof.
  unfold outcomeOf, scanFile. cbn [fileCache freshScanner].
  rewrite lookup_empty. split.
  - destruct (stat host q) as [stats|]; [|done].
    destruct (Z.ltb_spec (maxFileSize host) (size stats)); [done|].
    destruct (readFile host q) as [content|]; [|done].
    simpl. intros [= <-]. by exists stats, content.
  - intros (stats & content & -> & Hsize & -> & ->).
    by destruct (Z.ltb_spec (maxFileSize host) (size stats)); [lia|].
Qed.

Lemma absorb_found t os d :
  d ∈ foundSoFar (absorb t os)
  <-> d ∈ foundSoFar t
      \/ exists q found, (q, Returned found) ∈ os /\ d ∈ found.
Proof.
  revert t. induction os as [|[p [found|e]] os IH]; intros t.
  - simpl. split; [by left|]. intros [H|(q & f & H & _)]; [done|].
    by apply elem_of_nil in H.
  - cbn [absorb]. rewrite IH. simpl. rewrite elem_of_app. split.
    + intros [[H|H]|(q & f & H & Hd)].
      * by left.
      * right. exists p, found. split; [left|done].
      * right. exists q, f. split; [by right|done].
    + intros [H|(q & f & H & Hd)]; [by left; left|].
      apply elem_of_cons in H as [[= <- <-]|H]; [by left; right|].
      right. by exists q, f.
  - cbn [absorb]. rewrite IH. simpl. split.
    + intros [H|(q & f & H & Hd)]; [by left|].
      right. exists q, f. split; [by right|done].
    + intros [H|(q & f & H & Hd)]; [by left|].
      apply elem_of_cons in H as [[=]|H]. right. by exists q, f.
Qed.

Lemma elem_of_outcomesIn host sc ps q o :
  (q, o) ∈ outcomesIn host sc ps <-> q ∈ ps /\ o = outcomeOf host sc q.
Proof.
  unfold outcomesIn. rewrite list_elem_of_fmap. split.
  - by intros (p & [= -> ->] & Hp).
  - intros [Hq ->]. by exists q.
Qed.

(** X11.  With a cache in line with the file system, [scanFiles] reports
    exactly the statements of the texts of its readable targets: the
    given paths that end in [.php], are not excluded, are within the size
    limit and can be read. *)
Theorem scanFiles_finds_the_statements_of_its_targets
    host sc paths t0 t1 r sc' d :
  cacheSound host sc -> scanInProgress sc = false ->
  scanFiles host sc paths t0 t1 = (Returned r, sc') ->
  d ∈ statements r
  <-> exists q stats content,
        q ∈ paths /\ eligible host q = true
        /\ stat host q = Some stats /\ size stats <= maxFileSize host
        /\ readFile host q = Some content
        /\ d ∈ scanContent q (relativeOf host q) content.
Proof.
  intros Hsound Hidle. unfold scanFiles. rewrite Hidle, filter_eligible.
  set (targets := List.filter _ _).
  rewrite scanFilesLoop_flat by lia. rewrite drop_0.
  destruct (scanBatch_sound host (withProgress true sc) targets Hsound)
    as [Ho _].
  destruct (scanBatch host (withProgress true sc) targets) as [os sc1].
  simpl in Ho. subst os. intros [= <- <-]. simpl.
  rewrite sortBy_perm, absorb_found. simpl. split.
  - intros [H|(q & found & Hq & Hd)]; [by apply elem_of_nil in H|].
    apply elem_of_outcomesIn in Hq as [Hq Ho]. symmetry in Ho.
    apply outcomeOf_fresh_returned in Ho
      as (stats & content & Hstat & Hsize & Hread & ->).
    apply list_elem_of_In, filter_In in Hq as [Hq Hel].
    exists q, stats, content. by rewrite list_elem_of_In.
  - intros (q & stats & content & Hq & Hel & Hstat & Hsize & Hread & Hd).
    right. exists q, (scanContent q (relativeOf host q) content).
    split; [|done]. apply elem_of_outcomesIn. split.
    + apply list_elem_of_In, filter_In. by rewrite <- list_elem_of_In.
    + symmetry. apply outcomeOf_fresh_returned. by exists stats, content.
Qed.

Lemma scanFiles_finds_the_statements_of_its_targets_witness :
  let paths := [lit "/w/ok.php"; lit "/w/big.php"] in
  let run := scanFiles sampleHost freshScanner paths 0 1 in
  let r := match run.1 with Returned r => r | Thrown _ => emptyResult end in
  let d := createDebugStatement (lit "/w/ok.php") (lit "/w/ok.php") 1 0
             (lit "var_dump($x);") (lit "var_dump($x);") var_dump info in
  cacheSound sampleHost freshScanner
  /\ run = (Returned r, run.2)
  /\ d ∈ statements r.
Proof.
  intros paths run r d.
  assert (run = (Returned r, run.2)) as E by (vm_compute; reflexivity).
  split; [apply cacheSound_fresh|]. split; [exact E|].
  apply (scanFiles_finds_the_statements_of_its_targets sampleHost
           freshScanner paths 0 1 r run.2 d (cacheSound_fresh sampleHost)
           eq_refl E).
  exists (lit "/w/ok.php"), {| size := 13; mtime := 7 |}, (lit "var_dump($x);").
  split; [left|]. split; [vm_compute; reflexivity|].
  split; [vm_compute; reflexivity|]. split; [simpl; lia|].
  split; [vm_compute; reflexivity|]. vm_compute. left.
Defined.

(** ** The walk over the workspace *)

Lemma Node_nested_ind (P : Node -> Prop) :
  (forall name, P (FileNode name)) ->
  (forall name, P (DirNode name None)) ->
  (forall name es, Forall P es -> P (DirNode name (Some es))) ->
  (forall name, P (OtherNode name)) ->
  forall e, P e.
Proof.
  intros Hfile Hnone Hsome Hother. fix IH 1. intros [name|name [es|]|name].
  - apply Hfile.
  - apply Hsome. induction es as [|e es IHes]; constructor; [apply IH|done].
  - apply Hnone.
  - apply Hother.
Qed.

Lemma endsWith_iff (p s : str) :
  endsWith p s = true <-> exists pre, s = pre ++ p.
Proof.
  unfold endsWith. rewrite startsWith_iff. split.
  - intros [r Hr]. exists (rev r).
    rewrite <- (rev_involutive s), Hr, rev_app_distr.
    by rewrite rev_involutive.
  - intros [pre ->]. exists (rev pre). by rewrite rev_app_distr.
Qed.

Lemma collectEntry_paths host e :
  forall dir, Forall (collectedFile host) (collectEntry host dir e).1.
Proof.
  induction e as [name|name|name es IH|name] using Node_nested_ind;
    intros dir.
  - cbn [collectEntry].
    destruct (endsWith (lit ".php") name) eqn:Hphp; [|constructor].
    destruct (isExcluded host (pathJoin dir name)) eqn:Hex; [constructor|].
    simpl. constructor; [|constructor]. split; [|done].
    apply endsWith_iff in Hphp as [pre ->]. apply endsWith_iff.
    exists (dir ++ lit "/" ++ pre). unfold pathJoin.
    by rewrite <- !app_assoc.
  - cbn [collectEntry]. destruct (_ || _); constructor.
  - cbn [collectEntry]. destruct (_ || _); [constructor|].
    induction IH as [|e es He _ IHes]; [constructor|].
    specialize (He (pathJoin dir name)).
    destruct (collectEntry host (pathJoin dir name) e) as [f1 e1].
    match goal with
    | H : Forall _ (?rest).1 |- _ => destruct rest as [f2 e2]
    end.
    simpl in *. by apply Forall_app.
  - constructor.
Qed.

Lemma collectFiles_paths host dir listing :
  Forall (collectedFile host) (collectFiles host dir listing).1.
Proof.
  destruct listing as [es|]; [|constructor]. simpl.
  induction es as [|e es IH]; [constructor|]. simpl.
  pose proof (collectEntry_paths host e dir) as He.
  destruct (collectEntry host dir e) as [f1 e1].
  destruct (fold_right _ _ es) as [f2 e2]. simpl in *.
  by apply Forall_app.
Qed.

Lemma collected_eligible host p :
  collectedFile host p -> eligible host p = true.
Proof.
  intros (Hphp & Hex). unfold eligible. rewrite Hex, andb_true_r.
  apply endsWith_iff in Hphp as [pre ->]. apply endsWith_iff.
  exists (toLowerCase pre). by rewrite toLowerCase_app.
Qed.

(** X12.  Every path [collectFiles] returns ends in [.php] as written and
    is matched by no exclude pattern; hence it passes the filter of
    [scanFiles] as well. *)
Theorem collectFiles_returns_php_files_of_the_directory host dir listing p :
  p ∈ (collectFiles host dir listing).1 ->
  collectedFile host p /\ eligible host p = true.
Proof.
  intros Hp.
  pose proof (collectFiles_paths host dir listing) as H.
  rewrite Forall_forall in H. specialize (H p Hp).
  split; [exact H|]. by eapply collected_eligible.
Qed.

Lemma collectFiles_returns_php_files_of_the_directory_witness :
  (collectFiles sampleHost (lit "/w") sampleTree).1
  = [lit "/w/ok.php"; lit "/w/src/two.php"]
  /\ collectedFile sampleHost (lit "/w/src/two.php")
  /\ eligible sampleHost (lit "/w/src/two.php") = true.
Proof.
  assert ((collectFiles sampleHost (lit "/w") sampleTree).1
          = [lit "/w/ok.php"; lit "/w/src/two.php"]) as E
    by (vm_compute; reflexivity).
  split; [exact E|].
  apply (collectFiles_returns_php_files_of_the_directory sampleHost
           (lit "/w") sampleTree).
  rewrite E. right. left.
Defined.

(** ** The workspace scan *)

Lemma scanFile_withScanErrors host es sc p :
  scanFile host (withScanErrors es sc) p
  = ((scanFile host sc p).1, withScanErrors es (scanFile host sc p).2).
Proof.
  unfold scanFile. cbn [fileCache scanResults withScanErrors].
  destruct (stat host p) as [stats|]; [|done].
  destruct (_ <? _); [done|].
  destruct (match fileCache sc !! p with Some _ => _ | None => _ end);
    [done|].
  by destruct (readFile host p).
Qed.

Lemma scanBatch_withScanErrors host es sc ps :
  scanBatch host (withScanErrors es sc) ps
  = ((scanBatch host sc ps).1, withScanErrors es (scanBatch host sc ps).2).
Proof.
  revert sc. induction ps as [|p ps IH]; intros sc; simpl; [done|].
  rewrite scanFile_withScanErrors.
  destruct (scanFile host sc p) as [o sc1]. simpl. rewrite IH.
  by destruct (scanBatch host sc1 ps) as [os sc2].
Qed.

Lemma absorb_no_thrown t os :
  firstThrown os = None -> errorsSoFar (absorb t os) = errorsSoFar t.
Proof.
  revert t. induction os as [|[p [found|e]] os IH]; intros t H; [done| |done].
  cbn [absorb]. by rewrite IH.
Qed.

Lemma collectAll_paths host folders :
  Forall (fun p => eligible host p = true) (collectAll host folders).1.
Proof.
  induction folders as [|f fs IH]; [constructor|]. simpl.
  pose proof (collectFiles_paths host (fsPath f) (entries f)) as Hf.
  destruct (collectFiles host (fsPath f) (entries f)) as [f1 e1].
  destruct (collectAll host fs) as [f2 e2]. simpl in *.
  apply Forall_app. split; [|done].
  eapply Forall_impl; [exact Hf|]. intros p. apply collected_eligible.
Qed.

Lemma filter_all {A} (f : A -> bool) (l : list A) :
  Forall (fun x => f x = true) l -> List.filter f l = l.
Proof. induction 1 as [|x l Hx _ IH]; [done|]. simpl. by rewrite Hx, IH. Qed.

(** X13.  When [scanWorkspace] returns a result, its [errors] are empty,
    every collected file has been counted, and the result is the one
    [scanFiles] returns for the collected paths; the scanner it leaves is
    the one [scanFiles] leaves, with the directories that could not be
    listed appended to [scanErrors] and nothing else changed. *)
Theorem workspace_scan_is_a_scan_of_the_collected_files
    host sc folders t0 t1 r sc' :
  scanInProgress sc = false ->
  scanWorkspace host sc (Some folders) t0 t1 = (Returned r, sc') ->
  errors r = []
  /\ scannedFiles r = len' (collectAll host folders).1
  /\ exists sc'',
       scanFiles host sc (collectAll host folders).1 t0 t1
       = (Returned r, sc'')
       /\ sc' = withScanErrors (collectAll host folders).2 sc''.
Proof.
  intros Hidle. unfold scanWorkspace, scanFiles. rewrite Hidle.
  destruct folders as [|f fs]; [done|].
  pose proof (collectAll_paths host (f :: fs)) as Hel.
  destruct (collectAll host (f :: fs)) as [ps dirErrors]. simpl in Hel.
  cbn [fst snd]. rewrite filter_eligible, (filter_all _ _ Hel).
  destruct (scanWorkspaceLoop host (length ps) 0 ps noTotals _)
    as [[t|e] sc1] eqn:Hloop; [|done].
  apply scanWorkspaceLoop_returned in Hloop as (os & Hb & Hno & ->); [|lia].
  rewrite drop_0, scanBatch_withScanErrors in Hb.
  rewrite scanFilesLoop_flat by lia. rewrite drop_0.
  pose proof (scanBatch_paths host (withProgress true sc) ps) as Hp.
  destruct (scanBatch host (withProgress true sc) ps) as [os' sc2].
  simpl in Hb, Hp. injection Hb as -> <-. intros [= <- <-]. simpl.
  split; [by rewrite absorb_no_thrown|].
  split; [|by eexists].
  rewrite absorb_files. simpl. unfold len'. by rewrite <- Hp, length_map.
Qed.

Lemma workspace_scan_is_a_scan_of_the_collected_files_witness :
  let run := scanWorkspace sampleHost freshScanner (Some sampleFolders) 0 9 in
  let r := match run.1 with Returned r => r | Thrown _ => emptyResult end in
  run = (Returned r, run.2)
  /\ length (statements r) = 3%nat
  /\ errors r = []
  /\ scannedFiles r = len' (collectAll sampleHost sampleFolders).1
  /\ exists sc'',
       scanFiles sampleHost freshScanner
         (collectAll sampleHost sampleFolders).1 0 9 = (Returned r, sc'')
       /\ run.2 = withScanErrors (collectAll sampleHost sampleFolders).2 sc''.
Proof.
  intros run r.
  assert (run = (Returned r, run.2)) as E by (vm_compute; reflexivity).
  split; [exact E|]. split; [vm_compute; reflexivity|].
  exact (workspace_scan_is_a_scan_of_the_collected_files sampleHost
           freshScanner sampleFolders 0 9 r run.2 eq_refl E).
Defined.

Lemma scanWorkspaceLoop_thrown host fuel i ps t sc e :
  (length ps <= i + fuel)%nat ->
  firstThrown (scanBatch host sc (drop i ps)).1 = Some e ->
  (scanWorkspaceLoop host fuel i ps t sc).1 = Thrown e.
Proof.
  revert i t sc. induction fuel as [|fuel IH]; intros i t sc Hlen.
  - by rewrite drop_ge by lia.
  - cbn [scanWorkspaceLoop]. destruct (Nat.ltb_spec i (length ps)).
    + intros Hf. rewrite (drop_batch i ps), scanBatch_app in Hf.
      destruct (scanBatch host sc (take batchSize (drop i ps)))
        as [os sc1].
      specialize (IH (i + batchSize)%nat (absorb t os) sc1).
      destruct (scanBatch host sc1 (drop (i + batchSize) ps)) as [os2 sc2].
      simpl in Hf. rewrite firstThrown_app in Hf.
      destruct (firstThrown os) as [e0|]; [by injection Hf as ->|].
      apply IH; [unfold batchSize; lia|done].
    + by rewrite drop_ge by lia.
Qed.

Lemma firstThrown_some os p e :
  (p, Thrown e) ∈ os -> exists e', firstThrown os = Some e'.
Proof.
  induction os as [|[q [found|e0]] os IH]; intros H.
  - by apply elem_of_nil in H.
  - apply elem_of_cons in H as [[=]|H]. simpl. by apply IH.
  - by exists e0.
Qed.

(** X14.  One collected file above the size limit is enough for
    [scanWorkspace] to be rejected, whatever the other files are; the
    scanner is idle again afterwards. *)
Theorem a_large_file_aborts_the_workspace_scan
    host sc folders t0 t1 p stats :
  scanInProgress sc = false ->
  p ∈ (collectAll host folders).1 ->
  stat host p = Some stats -> maxFileSize host < size stats ->
  exists e sc',
    scanWorkspace host sc (Some folders) t0 t1 = (Thrown e, sc')
    /\ scanInProgress sc' = false.
Proof.
  intros Hidle Hp Hstat Hbig. unfold scanWorkspace. rewrite Hidle.
  destruct folders as [|f fs].
  { by apply elem_of_nil in Hp. }
  destruct (collectAll host (f :: fs)) as [ps dirErrors]. simpl in Hp.
  set (sc0 := withScanErrors dirErrors (withProgress true sc)).
  pose proof (scanBatch_large host sc0 ps p stats Hp Hstat Hbig) as Hos.
  apply firstThrown_some in Hos as [e He].
  pose proof (scanWorkspaceLoop_thrown host (length ps) 0 ps noTotals sc0 e)
    as Hloop.
  rewrite drop_0 in Hloop. specialize (Hloop ltac:(lia) He).
  destruct (scanWorkspaceLoop host (length ps) 0 ps noTotals sc0)
    as [o sc1]. simpl in Hloop. subst o.
  by eexists _, _.
Qed.

Lemma a_large_file_aborts_the_workspace_scan_witness :
  exists e sc',
    scanWorkspace sampleHost freshScanner
      (Some [{| fsPath := lit "/w";
                entries := Some [FileNode (lit "ok.php");
                                 FileNode (lit "big.php")] |}]) 0 9
    = (Thrown e, sc')
    /\ scanInProgress sc' = false.
Proof.
  apply (a_large_file_aborts_the_workspace_scan sampleHost freshScanner _ 0 9
           (lit "/w/big.php") {| size := 5000; mtime := 7 |}).
  - reflexivity.
  - vm_compute. right. left.
  - vm_compute; reflexivity.
  - simpl. lia.
Defined.

(** ** Braces in strings and comments *)

Lemma balanceLine_app b a c :
  balanceLine b (a ++ c)
  = match balanceLine b a with
    | Some b' => balanceLine b' c
    | None => None
    end.
Proof.
  revert b. induction a as [|x a IH]; intros b; [done|].
  rewrite <- app_comm_cons, !balanceLine_cons.
  by destruct (_ <? _).
Qed.

Lemma balanceLine_braceFree b s :
  0 <= b -> braceFree s -> balanceLine b s = Some b.
Proof.
  intros Hb. induction 1 as [|c s Hc _ IH]; [done|].
  rewrite balanceLine_cons, Hc, Z.add_0_r.
  by destruct (Z.ltb_spec b 0); [lia|].
Qed.

Lemma balanceLines_app_ok i b document rest :
  balanceLines i b document = BraceOk ->
  balanceLines i b (document ++ rest)
  = balanceLines (i + length document) 0 rest.
Proof.
  revert i b. induction document as [|text document IH]; intros i b; simpl.
  - destruct (Z.eqb_spec b 0) as [->|]; [|done].
    intros _. by rewrite Nat.add_0_r.
  - destruct (balanceLine b text) as [b'|]; [|done].
    intros H. rewrite (IH _ _ H). f_equal. lia.
Qed.

(** X16.  [checkBraceBalance] counts every brace, wherever it stands: a
    closing brace on a line after a balanced document, before which the
    line holds no brace, is reported as unmatched on that line, also when
    it stands in a string or a comment. *)
Theorem a_brace_counts_wherever_it_stands document pre post rest :
  checkBraceBalance document = BraceOk -> braceFree pre ->
  checkBraceBalance (document ++ (pre ++ chRBrace :: post) :: rest)
  = UnmatchedCloseAt (len' document + 1).
Proof.
  intros Hok Hpre. unfold checkBraceBalance.
  rewrite (balanceLines_app_ok 0 0 document _ Hok). simpl.
  rewrite balanceLine_app, (balanceLine_braceFree 0 pre (Z.le_refl 0) Hpre).
  by rewrite balanceLine_cons.
Qed.

Lemma a_brace_counts_wherever_it_stands_witness :
  let document := map lit ["<?php"; "function f() {"; "}"]%string in
  checkBraceBalance document = BraceOk
  /\ braceFree (lit "echo 'no ")
  /\ checkBraceBalance (document ++ [lit "echo 'no " ++ chRBrace :: lit " here';"])
     = UnmatchedCloseAt 4.
Proof.
  intros document.
  assert (checkBraceBalance document = BraceOk) as H1 by reflexivity.
  assert (braceFree (lit "echo 'no ")) as H2 by (repeat constructor).
  split; [exact H1|]. split; [exact H2|].
  exact (a_brace_counts_wherever_it_stands document _ _ [] H1 H2).
Defined.

(** ** The list of the provider and the disabled types *)

Lemma filter_filter_and {A} (f g : A -> bool) (l : list A) :
  List.filter g (List.filter f l) = List.filter (fun x => f x && g x) l.
Proof.
  induction l as [|x l IH]; [done|]. simpl.
  destruct (f x); simpl; [|done]. destruct (g x); by rewrite IH.
Qed.

(** X17.  The list of the provider holds no statement of a disabled
    type, and [totalStatements] is its length.  [setDisabledTypes] filters
    the list that is already filtered: afterwards the list holds the
    statements of the last scan that neither the old nor the new set
    disables, so that enabling a type again does not bring its statements
    back before the next scan. *)
Theorem disabled_types_are_not_listed (v : View) (result : ScanResult)
    (types : DebugType -> bool) :
  let shown := showResult v result in
  let changed := setDisabledTypes types shown in
  getAllStatements (provider shown)
  = List.filter (fun s => negb (disabledTypes v (type s))) (statements result)
  /\ getAllStatements (provider changed)
     = List.filter (fun s => negb (disabledTypes v (type s))
                             && negb (types (type s)))
         (statements result)
  /\ (totalStatements <$> lastScanResult (provider changed))
     = Some (len' (getAllStatements (provider changed))).
Proof.
  unfold showResult, setDisabledTypes, getAllStatements. simpl.
  by rewrite filter_filter_and.
Qed.

(** ** Bookmarks *)

(** X18.  [toggleBookmark] answers with the new state of the bookmark,
    which is the opposite of the old one; it saves the bookmarks as they
    then are, touches no other bookmark, and a second toggle of the same
    statement restores the set. *)
Theorem toggleBookmark_twice (pv : Provider) (statement : DebugStatement) :
  let once := toggleBookmark pv statement in
  let twice := toggleBookmark once.2 statement in
  once.1 = negb (isBookmarked pv (id statement))
  /\ isBookmarked once.2 (id statement) = once.1
  /\ savedBookmarks once.2 = bookmarks once.2
  /\ twice.1 = isBookmarked pv (id statement)
  /\ bookmarks twice.2 = bookmarks pv
  /\ (forall other, other <> id statement ->
        isBookmarked once.2 other = isBookmarked pv other).
Proof.
  unfold toggleBookmark, isBookmarked. simpl.
  destruct (decide (id statement ∈ bookmarks pv)) as [Hin|Hout].
  - rewrite (bool_decide_eq_true_2 _ Hin). simpl.
    assert (id statement ∉ bookmarks pv ∖ {[id statement]}) as Hgone.
    { rewrite elem_of_difference, elem_of_singleton. tauto. }
    rewrite !(bool_decide_eq_false_2 _ Hgone). simpl.
    repeat split.
    + apply bool_decide_eq_true_2.
      rewrite elem_of_union, elem_of_singleton. tauto.
    + apply set_eq. intros x.
      rewrite elem_of_union, elem_of_difference, elem_of_singleton.
      destruct (decide (x = id statement)) as [->|]; tauto.
    + intros other Hne. apply bool_decide_ext.
      rewrite elem_of_difference, elem_of_singleton. tauto.
  - rewrite (bool_decide_eq_false_2 _ Hout). simpl.
    assert (id statement ∈ bookmarks pv ∪ {[id statement]}) as Hnow.
    { rewrite elem_of_union, elem_of_singleton. tauto. }
    rewrite !(bool_decide_eq_true_2 _ Hnow). simpl.
    repeat split.
    + apply bool_decide_eq_false_2.
      rewrite elem_of_difference, elem_of_singleton. tauto.
    + apply set_eq. intros x.
      rewrite elem_of_difference, elem_of_union, elem_of_singleton.
      split; [tauto|]. intros Hx. split; [tauto|]. by intros ->.
    + intros other Hne. apply bool_decide_ext.
      rewrite elem_of_union, elem_of_singleton. tauto.
Qed.

(** ** What the clear operations leave alone *)

Lemma clearStatement_frame (pv : Provider) (s : DebugStatement) :
  let r := clearStatement pv s in
  bookmarks r.2 = bookmarks pv
  /\ savedBookmarks r.2 = savedBookmarks pv
  /\ lastScanResult r.2 = lastScanResult pv
  /\ (forall q, q <> filePath s -> documents r.2 !! q = documents pv !! q)
  /\ (forall q, is_Some (documents r.2 !! q) <-> is_Some (documents pv !! q)).
Proof.
  unfold clearStatement, isBookmarked.
  destruct (decide (id s ∈ bookmarks pv)) as [Hin|Hout].
  - rewrite (bool_decide_eq_true_2 _ Hin). by simpl.
  - rewrite (bool_decide_eq_false_2 _ Hout).
    destruct (documents pv !! filePath s) as [lines|] eqn:Hdoc; [|by simpl].
    destruct (_ || _); [by simpl|]. simpl.
    split; [|split; [done|split; [done|split]]].
    + apply set_eq. intros x. rewrite elem_of_difference, elem_of_singleton.
      split; [tauto|]. intros Hx. split; [done|]. by intros ->.
    + intros q Hq. by rewrite lookup_insert_ne.
    + intros q. destruct (decide (q = filePath s)) as [->|Hq].
      * rewrite lookup_insert_eq, Hdoc. by split; eauto.
      * by rewrite lookup_insert_ne.
Qed.

Lemma clearEach_frame (todo : list DebugStatement) :
  forall (pv : Provider) (cleared : Z),
  let r := clearEach pv cleared todo in
  bookmarks r.2 = bookmarks pv
  /\ savedBookmarks r.2 = savedBookmarks pv
  /\ lastScanResult r.2 = lastScanResult pv
  /\ (forall q, q ∉ map filePath todo ->
        documents r.2 !! q = documents pv !! q)
  /\ cleared <= r.1 <= cleared + len' todo.
Proof.
  induction todo as [|s todo IH]; intros pv cleared.
  - simpl. unfold len'. simpl. repeat split; lia.
  - cbn [clearEach].
    destruct (clearStatement_frame pv s) as (Hb & Hsv & Hl & Hd & _).
    destruct (clearStatement pv s) as [done pv1]. simpl in Hb, Hsv, Hl, Hd.
    destruct (IH pv1 (if done then cleared + 1 else cleared))
      as (IHb & IHsv & IHl & IHd & IHc).
    split; [congruence|]. split; [congruence|]. split; [congruence|]. split.
    + intros q Hq. rewrite IHd, Hd; [done| |].
      * intros ->. apply Hq. simpl. left.
      * intros Hin. apply Hq. simpl. by right.
    + unfold len' in *. simpl length. destruct done; lia.
Qed.

Lemma saveBookmarks_frame (b : bool) (pv : Provider) :
  bookmarks (if b then saveBookmarks pv else pv) = bookmarks pv
  /\ lastScanResult (if b then saveBookmarks pv else pv) = lastScanResult pv
  /\ documents (if b then saveBookmarks pv else pv) = documents pv.
Proof. by destruct b. Qed.

Lemma filePath_sortBy (cmp : DebugStatement -> DebugStatement -> Z)
    (l : list DebugStatement) (q : str) :
  q ∈ map filePath (sortBy cmp l) <-> q ∈ map filePath l.
Proof. by rewrite (sortBy_perm cmp l). Qed.

(** X19.  [clearFileStatements] leaves the bookmarks and the list of
    statements as they are (the cleared statements stay listed until the
    next scan), changes no document but that of the given path, and
    clears at most as many statements as the file has without a
    bookmark. *)
Theorem clearFileStatements_leaves_the_rest_alone (pv : Provider)
    (path : str) :
  let r := clearFileStatements pv path in
  bookmarks r.2 = bookmarks pv
  /\ getAllStatements r.2 = getAllStatements pv
  /\ (forall q, q <> path -> documents r.2 !! q = documents pv !! q)
  /\ 0 <= r.1 <= len' (List.filter (clearable pv) (getStatementsByFile pv path)).
Proof.
  unfold clearFileStatements.
  set (todo := sortBy _ _).
  destruct (clearEach_frame todo pv 0) as (Hb & _ & Hl & Hd & Hc).
  destruct (clearEach pv 0 todo) as [cleared pv1]. simpl in *.
  destruct (saveBookmarks_frame (0 <? cleared) pv1) as (Sb & Sl & Sd).
  split; [congruence|]. split; [unfold getAllStatements; by rewrite Sl, Hl|]. split.
  - intros q Hq. rewrite Sd. apply Hd. subst todo.
    rewrite filePath_sortBy. intros Hin.
    apply list_elem_of_fmap in Hin as (s & -> & Hs).
    apply list_elem_of_In, filter_In in Hs as [Hs _].
    apply filter_In in Hs as [_ Hs]. by apply bool_decide_eq_true in Hs.
  - subst todo. unfold len' in *. rewrite sortBy_perm in Hc. exact Hc.
Qed.

Lemma addToFile_perm (s : DebugStatement)
    (groups : list (str * list DebugStatement)) :
  concat (map snd (addToFile s groups)) ≡ₚ s :: concat (map snd groups).
Proof.
  induction groups as [|[path arr] groups IH]; [done|]. simpl.
  destruct (bool_decide (path = filePath s)); simpl.
  - rewrite <- app_assoc. simpl.
    by rewrite <- Permutation_middle.
  - rewrite IH. by rewrite Permutation_middle.
Qed.

Lemma groups_perm (pv : Provider) (l : list DebugStatement) :
  forall groups,
  concat (map snd
    (fold_left (fun groups s =>
                  if isBookmarked pv (id s) then groups
                  else addToFile s groups) l groups))
  ≡ₚ List.filter (clearable pv) l ++ concat (map snd groups).
Proof.
  induction l as [|s l IH]; intros groups; [done|]. simpl.
  rewrite IH. unfold clearable at 2.
  destruct (isBookmarked pv (id s)); simpl; [done|].
  by rewrite addToFile_perm, Permutation_middle.
Qed.

Lemma clearGroups_frame (byFile : list (str * list DebugStatement)) :
  forall (pv : Provider) (cleared : Z),
  let r := clearGroups pv cleared byFile in
  bookmarks r.2 = bookmarks pv
  /\ lastScanResult r.2 = lastScanResult pv
  /\ (forall q, q ∉ map filePath (concat (map snd byFile)) ->
        documents r.2 !! q = documents pv !! q)
  /\ cleared <= r.1 <= cleared + len' (concat (map snd byFile)).
Proof.
  induction byFile as [|[path list] byFile IH]; intros pv cleared.
  - simpl. unfold len'. simpl. repeat split; lia.
  - cbn [clearGroups].
    destruct (clearEach_frame (sortBy compareForClearing list) pv cleared)
      as (Hb & _ & Hl & Hd & Hc).
    destruct (clearEach pv cleared _) as [cleared1 pv1]. simpl in *.
    destruct (IH pv1 cleared1) as (IHb & IHl & IHd & IHc).
    split; [congruence|]. split; [congruence|]. split.
    + intros q Hq. rewrite map_app, elem_of_app in Hq.
      rewrite IHd, Hd; [done| |]; rewrite ?filePath_sortBy; tauto.
    + unfold len' in *. rewrite sortBy_perm in Hc.
      rewrite length_app. lia.
Qed.

(** X20.  [clearAllStatements] leaves the bookmarks and the list of
    statements as they are, changes no document in which no statement
    without a bookmark is listed, and clears at most as many statements
    as are listed without a bookmark. *)
Theorem clearAllStatements_leaves_the_rest_alone (pv : Provider) :
  let r := clearAllStatements pv in
  bookmarks r.2 = bookmarks pv
  /\ getAllStatements r.2 = getAllStatements pv
  /\ (forall q,
        q ∉ map filePath (List.filter (clearable pv) (getAllStatements pv)) ->
        documents r.2 !! q = documents pv !! q)
  /\ 0 <= r.1 <= len' (List.filter (clearable pv) (getAllStatements pv)).
Proof.
  unfold clearAllStatements.
  set (byFile := fold_left _ _ _).
  pose proof (groups_perm pv (getAllStatements pv) []) as Hperm.
  fold byFile in Hperm. simpl in Hperm. rewrite app_nil_r in Hperm.
  destruct (clearGroups_frame byFile pv 0) as (Hb & Hl & Hd & Hc).
  destruct (clearGroups pv 0 byFile) as [cleared pv1]. simpl in *.
  destruct (saveBookmarks_frame (0 <? cleared) pv1) as (Sb & Sl & Sd).
  split; [congruence|]. split; [unfold getAllStatements; by rewrite Sl, Hl|]. split.
  - intros q Hq. rewrite Sd. apply Hd. by rewrite Hperm.
  - unfold len' in *. by rewrite Hperm in Hc.
Qed.

(** ** The inserted statement, as the scanner reads it *)

Lemma isSpace_plain (c : ascii) : isSpace c = true -> plainChar c = true.
Proof. by destruct c as [[] [] [] [] [] [] [] []]. Qed.

Lemma plain_spaces (ws : str) :
  Forall (fun c => isSpace c = true) ws -> forallb plainChar ws = true.
Proof.
  induction 1 as [|c ws Hc _ IH]; [done|]. simpl.
  by rewrite (isSpace_plain c Hc), IH.
Qed.

Lemma matchTypeFromText_spaces (ws s : str) :
  Forall (fun c => isSpace c = true) ws ->
  matchTypeFromText (ws ++ s) = matchTypeFromText s.
Proof.
  intros Hws. unfold matchTypeFromText. rewrite toLowerCase_app.
  assert (Forall (fun c => isSpace c = true) (toLowerCase ws)) as Hws'.
  { unfold toLowerCase. apply Forall_map.
    eapply Forall_impl; [exact Hws|]. simpl. intros c Hc.
    by rewrite isSpace_lower. }
  generalize dependent (toLowerCase ws). intros ws' Hws'.
  generalize (toLowerCase s). intros t.
  unfold testCall, testSpaced, testWord.
  rewrite !(afterToken_spaces _ ws' t Hws').
  change (lit "exit") with ("e"%char :: lit "xit").
  by rewrite (includes_after_spaces "e" (lit "xit") ws' t eq_refl Hws').
Qed.

Lemma matchTypeFromText_var_dump (ws r : str) :
  Forall (fun c => isSpace c = true) ws ->
  matchTypeFromText (ws ++ lit "var_dump(" ++ r) = Some var_dump.
Proof.
  intros Hws. rewrite (matchTypeFromText_spaces _ _ Hws).
  unfold matchTypeFromText. rewrite toLowerCase_app.
  generalize (toLowerCase r). intros t. reflexivity.
Qed.

Lemma segmentsFrom_body (k segStart : nat) (cur body rest : str) :
  chSemi ∉ body ->
  segmentsFrom k segStart cur (body ++ chSemi :: rest)
  = {| text := cur ++ body ++ [chSemi]; startSan := segStart;
       endSan := k + length body |}
    :: segmentsFrom (k + length body + 1) (k + length body + 1) [] rest.
Proof.
  revert k cur. induction body as [|c body IH]; intros k cur Hsemi.
  - cbn [segmentsFrom app length]. rewrite trim_semicolon_nonempty.
    change (eqc chSemi chSemi) with true. cbv iota. simpl app.
    by rewrite !Nat.add_0_r, Nat.add_1_r.
  - simpl. destruct (eqc c chSemi) eqn:E.
    + apply eqc_eq in E as ->. exfalso. apply Hsemi. left.
    + rewrite IH by (intros H; apply Hsemi; by right).
      rewrite <- !app_assoc. simpl.
      by replace (k + S (length body))%nat with (S (k + length body)) by lia.
Qed.

Lemma trimEnd_after_visible (s ws : str) (c : ascii) :
  isSpace c = false -> Forall (fun x => isSpace x = true) ws ->
  trimEnd ((s ++ [c]) ++ ws) = s ++ [c].
Proof.
  intros Hc Hws. unfold trimEnd. rewrite rev_app_distr.
  rewrite trimStart_spaces by (by apply Forall_rev).
  rewrite rev_app_distr. simpl. rewrite Hc. simpl.
  by rewrite rev_involutive.
Qed.

Lemma strip_after_semicolon (e ws : str) :
  Forall (fun c => isSpace c = true) ws ->
  stripTrailingSemicolon (e ++ chSemi :: ws) = e.
Proof.
  intros Hws. unfold stripTrailingSemicolon.
  replace (e ++ chSemi :: ws) with ((e ++ [chSemi]) ++ ws)
    by (by rewrite <- !app_assoc).
  rewrite (trimEnd_after_visible e ws chSemi eq_refl Hws).
  assert (endsWith (lit ";") (e ++ [chSemi]) = true) as ->.
  { unfold endsWith. by rewrite rev_app_distr. }
  unfold slice, relIndex, len. rewrite length_app. simpl.
  rewrite Z.max_l, Z.min_l by lia. simpl.
  replace (Z.to_nat (_ - 0)) with (length e) by lia.
  change (Z.to_nat 0) with 0%nat. by rewrite drop_0, take_app_length.
Qed.

Lemma scan_of_the_dump_line fp rel n st (indent e : str) :
  inBlockComment st = false -> inString st = false ->
  Forall (fun c => isSpace c = true) indent ->
  forallb plainChar e = true -> chSemi ∉ e ->
  exists d,
    (scanLine fp rel n st (indent ++ lit "var_dump(" ++ e ++ lit ");exit;")).1
    = [d]
    /\ type d = var_dump /\ severity d = error
    /\ content d = lit "var_dump(" ++ e ++ lit ");exit;"
    /\ column d = len indent /\ lineNumber d = n.
Proof.
  intros Hbc Hstr Hind Hplain Hsemi.
  remember (indent ++ lit "var_dump(" ++ e ++ lit ")") as body1 eqn:Hb1.
  remember (indent ++ lit "var_dump(" ++ e ++ lit ");exit;") as orig eqn:Ho.
  assert (orig = body1 ++ chSemi :: lit "exit" ++ chSemi :: []) as Horig.
  { subst orig body1. by rewrite <- !app_assoc. }
  assert (forallb plainChar orig = true) as Hporig.
  { subst orig. by rewrite !forallb_app, (plain_spaces indent Hind), Hplain. }
  assert (chSemi ∉ body1) as Hsemi1.
  { subst body1. rewrite !elem_of_app. intros [H|[H|[H|H]]].
    - rewrite Forall_forall in Hind. by specialize (Hind _ H).
    - revert H. vm_compute. intros H.
      repeat (apply elem_of_cons in H as [H|H]; [done|]).
      by apply elem_of_nil in H.
    - done.
    - apply elem_of_cons in H as [H|H]; [done|]. by apply elem_of_nil in H. }
  assert (chSemi ∉ lit "exit") as Hsemi2.
  { vm_compute. intros H.
    repeat (apply elem_of_cons in H as [H|H]; [done|]).
    by apply elem_of_nil in H. }
  assert (matchTypeFromText orig = Some var_dump) as Htype.
  { subst orig. by apply matchTypeFromText_var_dump. }
  assert (matchTypeFromText (body1 ++ [chSemi]) = Some var_dump) as Htseg.
  { subst body1. rewrite <- !app_assoc.
    by apply matchTypeFromText_var_dump. }
  assert (trimStart (body1 ++ [chSemi]) = lit "var_dump(" ++ e ++ lit ");")
    as Htrim.
  { subst body1. rewrite <- !app_assoc.
    by rewrite trimStart_spaces. }
  assert (length (body1 ++ [chSemi])
          = (length indent + length (lit "var_dump(" ++ e ++ lit ");"))%nat)
    as Hlen.
  { subst body1. rewrite !length_app. simpl. lia. }
  remember {| text := body1 ++ [chSemi]; startSan := 0;
              endSan := 0 + length body1 |} as seg eqn:Hseg.
  remember {| text := lit "exit" ++ [chSemi];
              startSan := 0 + length body1 + 1;
              endSan := 0 + length body1 + 1 + length (lit "exit") |}
    as next eqn:Hnext.
  assert (segments orig = [seg; next]) as Hsegs.
  { unfold segments. rewrite Horig.
    rewrite (segmentsFrom_body 0 0 [] body1 _ Hsemi1).
    rewrite (segmentsFrom_body _ _ [] (lit "exit") [] Hsemi2).
    by subst seg next. }
  assert (text seg = body1 ++ [chSemi]) as Htext by (by subst seg).
  assert (text next = lit "exit" ++ [chSemi]) as Htext2 by (by subst next).
  assert (isExitOnlySegment (text next) = true) as Hexit
    by (by rewrite Htext2).
  rewrite scanLine_plain; [|done|done|done|].
  2:{ unfold quickCheck. by rewrite Htype. }
  rewrite Hsegs, processSegments_pair.
  unfold isDebugSegment. rewrite Htext, Htseg, Hexit. simpl andb. cbv iota.
  destruct (mergedStatement_plain fp rel n orig [] [] seg next body1
              (lit "exit") Hporig)
    as (Hty & Hsev & Hcontent & _ & Hcol & Hline).
  - rewrite Htext, Htext2, Horig. simpl. by rewrite <- !app_assoc.
  - by subst seg.
  - done.
  - done.
  - done.
  - done.
  - subst next. simpl. rewrite Htext, length_app. simpl. lia.
  - unfold keywordAsWritten, getStatementType. by rewrite Htext, Htseg, Htrim.
  - unfold exitAsWritten. by rewrite Htext2.
  - exact Hexit.
  - eexists. split; [reflexivity|].
    split; [by rewrite Hty, Htext; unfold getStatementType; rewrite Htseg|].
    split; [done|]. split.
    + rewrite Hcontent, Htext, Htext2, Htrim. by rewrite <- !app_assoc.
    + split; [|done]. rewrite Hcol. unfold tokenOffset.
      rewrite Htext, Htrim, Hlen. subst seg. simpl startSan.
      unfold len. f_equal. lia.
Qed.

(** X21.  [stripTrailingSemicolon] takes away the white space at the end
    and then one semicolon, if one stands there: an expression that ends
    in a visible character comes back as it is, whether a semicolon
    followed it or not. *)
Theorem stripTrailingSemicolon_strips_one_semicolon (e ws : str) (x : ascii) :
  isSpace x = false -> Forall (fun c => isSpace c = true) ws ->
  stripTrailingSemicolon ((e ++ [x]) ++ chSemi :: ws) = e ++ [x]
  /\ (x <> chSemi -> stripTrailingSemicolon ((e ++ [x]) ++ ws) = e ++ [x]).
Proof.
  intros Hx Hws. split; [by apply strip_after_semicolon|].
  intros Hne. unfold stripTrailingSemicolon.
  rewrite (trimEnd_after_visible e ws x Hx Hws).
  assert (endsWith (lit ";") (e ++ [x]) = false) as ->; [|done].
  unfold endsWith. rewrite rev_app_distr. simpl.
  rewrite andb_true_r. apply eqc_neq. intros H. apply Hne. by rewrite <- H.
Qed.

Lemma stripTrailingSemicolon_strips_one_semicolon_witness :
  isSpace "x" = false
  /\ Forall (fun c => isSpace c = true) (lit "  ")
  /\ stripTrailingSemicolon (lit "$x;  ") = lit "$x"
  /\ ("x"%char <> chSemi -> stripTrailingSemicolon (lit "$x  ") = lit "$x").
Proof.
  assert (Forall (fun c => isSpace c = true) (lit "  ")) as Hws
    by (repeat constructor).
  split; [reflexivity|]. split; [exact Hws|].
  exact (stripTrailingSemicolon_strips_one_semicolon (lit "$") (lit "  ") "x"
           eq_refl Hws).
Defined.



(** ** The end of the statement *)

Lemma endInLine_found (rest : str) :
  forall (s : EndScan) (i col : nat),
  endInLine s i rest = inl col ->
  exists k, rest !! k = Some chSemi /\ col = S (i + k).
Proof.
  induction rest as [|ch rest IH]; intros s i col; [done|].
  cbn [endInLine].
  assert (forall s', endInLine s' (S i) rest = inl col ->
            exists k, (ch :: rest) !! k = Some chSemi /\ col = S (i + k))
    as Hnext.
  { intros s' H. apply IH in H as (k & Hk & ->).
    exists (S k). split; [done|lia]. }
  destruct (openQuote s) as [q|].
  { destruct (eqc ch chBackslash); apply Hnext. }
  repeat (match goal with
          | |- (if ?b then endInLine _ _ _ else _) = _ -> _ =>
              destruct b eqn:?; [apply Hnext|]
          end).
  destruct (_ && _) eqn:E; [|apply Hnext].
  intros [= <-]. exists 0%nat. split; [|lia].
  apply andb_true_iff in E as [E _]. apply andb_true_iff in E as [E _].
  apply andb_true_iff in E as [E _]. apply eqc_eq in E as ->. done.
Qed.

Lemma endInLines_found (lines : list str) :
  forall (s : EndScan) (li ci l col : nat),
  endInLines s li ci lines = Some (l, col) ->
  exists k t j,
    lines !! k = Some t /\ l = (li + k)%nat
    /\ t !! j = Some chSemi /\ col = S j /\ (k = 0%nat -> (ci <= j)%nat).
Proof.
  induction lines as [|t lines IH]; intros s li ci l col; [done|].
  cbn [endInLines].
  destruct (endInLine s ci (drop ci t)) as [c|s'] eqn:E.
  - intros [= <- <-]. apply endInLine_found in E as (k & Hk & ->).
    rewrite lookup_drop in Hk.
    exists 0%nat, t, (ci + k)%nat. repeat split; [lia|done|lia].
  - intros H. apply IH in H as (k & t' & j & Hk & -> & Hj & -> & _).
    exists (S k), t', j. repeat split; [done|lia|done|lia].
Qed.

(** X23.  The position [findStatementEndPosition] returns is the one
    just after a semicolon of the document, at or after the position it
    started from, or else the start of the line that follows the starting
    line (of the end of the document, if there is none). *)
Theorem statement_end_is_after_a_semicolon (document : list str)
    (fromLine fromChar line col : nat) :
  findStatementEndPosition document fromLine fromChar = (line, col) ->
  (line, col) = (Nat.min (fromLine + 1) (length document), 0%nat)
  \/ exists t j,
       document !! line = Some t /\ t !! j = Some chSemi /\ col = S j
       /\ (fromLine <= line)%nat
       /\ (line = fromLine -> (fromChar <= j)%nat).
Proof.
  unfold findStatementEndPosition.
  destruct (endInLines _ _ _ _) as [[l c]|] eqn:E; [|intros [= <- <-]; by left].
  intros [= -> ->]. right.
  apply endInLines_found in E as (k & t & j & Hk & -> & Hj & -> & Hfirst).
  rewrite lookup_drop in Hk. exists t, j.
  repeat split; [done|done|lia|]. intros H. apply Hfirst. lia.
Qed.

Lemma statement_end_is_after_a_semicolon_witness :
  let document := [lit "$total = add($a, ';')"; lit "  + 1; echo $b;"] in
  findStatementEndPosition document 0 3 = (1%nat, 6%nat)
  /\ ((1%nat, 6%nat) = (Nat.min (0 + 1) (length document), 0%nat)
      \/ exists t j,
           document !! 1%nat = Some t /\ t !! j = Some chSemi /\ 6%nat = S j
           /\ (0 <= 1)%nat /\ (1%nat = 0%nat -> (3 <= j)%nat)).
Proof.
  intros document.
  assert (findStatementEndPosition document 0 3 = (1%nat, 6%nat)) as H
    by reflexivity.
  split; [exact H|].
  exact (statement_end_is_after_a_semicolon document 0 3 1 6 H).
Defined.

Lemma endInLine_stepOver (body : str) :
  forall (i : nat) (rest : str),
  forallb stepOver body = true ->
  endInLine startOfScan i (body ++ rest)
  = endInLine startOfScan (i + length body) rest.
Proof.
  induction body as [|c body IH]; intros i rest H.
  - simpl. by rewrite Nat.add_0_r.
  - simpl in H. apply andb_true_iff in H as [Hc H].
    unfold stepOver in Hc. apply negb_true_iff in Hc.
    rewrite !orb_false_iff in Hc.
    destruct Hc as [[[[[[[[H1 H2] H3] H4] H5] H6] H7] H8] H9].
    rewrite <- app_comm_cons. cbn [endInLine openQuote startOfScan].
    rewrite H1, H2, H3, H4, H5, H6, H7, H8, H9. simpl.
    rewrite (IH (S i) rest H). f_equal. lia.
Qed.

(** X24.  When only characters that are neither quotes, brackets of any
    kind nor semicolons stand between the starting position and the next
    semicolon of the line, [findStatementEndPosition] returns the
    position just after that semicolon. *)
Theorem statement_end_of_a_simple_statement (document : list str)
    (fromLine : nat) (before body after : str) :
  document !! fromLine = Some (before ++ body ++ chSemi :: after) ->
  forallb stepOver body = true ->
  findStatementEndPosition document fromLine (length before)
  = (fromLine, (length before + length body + 1)%nat).
Proof.
  intros Hline Hbody. unfold findStatementEndPosition.
  rewrite (drop_S _ _ _ Hline). cbn [endInLines].
  rewrite drop_app_length, (endInLine_stepOver body _ _ Hbody).
  simpl. f_equal. lia.
Qed.

Lemma statement_end_of_a_simple_statement_witness :
  let document := [lit "<?php"; lit "  $x = $y + 1; echo $x;"] in
  document !! 1%nat = Some (lit "  $x" ++ lit " = $y + 1" ++ chSemi :: lit " echo $x;")
  /\ forallb stepOver (lit " = $y + 1") = true
  /\ findStatementEndPosition document 1 4 = (1%nat, 14%nat).
Proof.
  intros document.
  assert (document !! 1%nat
          = Some (lit "  $x" ++ lit " = $y + 1" ++ chSemi :: lit " echo $x;"))
    as H1 by reflexivity.
  assert (forallb stepOver (lit " = $y + 1") = true) as H2 by reflexivity.
  split; [exact H1|]. split; [exact H2|].
  exact (statement_end_of_a_simple_statement document 1 _ _ _ H1 H2).
Defined.

(** ** Indentation *)

Lemma getIndent_split (t : str) :
  t = getIndent t ++ trimStart t
  /\ Forall (fun c => isSpace c = true) (getIndent t).
Proof.
  induction t as [|c t [IH1 IH2]]; [by split|]. simpl.
  destruct (isSpace c) eqn:E; [|by split].
  split; [by rewrite <- app_comm_cons, <- IH1|by constructor].
Qed.

Lemma previousContentIndent_spec (document : list str) (fromLine : nat) :
  (fromLine < length document)%nat ->
  exists found,
    getPreviousContentIndent document fromLine = Some found
    /\ ((found = []
         /\ forall k t, (k <= fromLine)%nat -> document !! k = Some t ->
                        passedOver t = true)
        \/ exists k t,
             (k <= fromLine)%nat /\ document !! k = Some t
             /\ passedOver t = false /\ found = getIndent t
             /\ forall m u, (k < m <= fromLine)%nat ->
                            document !! m = Some u -> passedOver u = true).
Proof.
  induction fromLine as [|n IH]; intros Hlt.
  - destruct (lookup_lt_is_Some_2 document 0 Hlt) as [t Ht].
    cbn [getPreviousContentIndent]. rewrite Ht.
    destruct (passedOver t) eqn:Hp.
    + exists []. split; [done|]. left. split; [done|].
      intros k u Hk Hu. assert (k = 0%nat) as -> by lia. congruence.
    + exists (getIndent t). split; [done|]. right.
      exists 0%nat, t. repeat split; try done. intros m u Hm. lia.
  - destruct (lookup_lt_is_Some_2 document (S n) Hlt) as [t Ht].
    cbn [getPreviousContentIndent]. rewrite Ht.
    destruct (passedOver t) eqn:Hp.
    + destruct IH as (found & Hf & Hcase); [lia|].
      exists found. split; [done|].
      destruct Hcase as [[-> Hall]|(k & u & Hk & Hu & Hpu & -> & Hbetween)].
      * left. split; [done|]. intros k u Hk Hu.
        destruct (decide (k = S n)) as [->|]; [congruence|].
        apply (Hall k u); [lia|done].
      * right. exists k, u. repeat split; try done; [lia|].
        intros m w Hm Hw.
        destruct (decide (m = S n)) as [->|]; [congruence|].
        apply (Hbetween m w); [lia|done].
    + exists (getIndent t). split; [done|]. right.
      exists (S n), t. repeat split; try done. intros m u Hm. lia.
Qed.

(** X25.  For a line of the document, [getPreviousContentIndent] returns
    white space only: the indent of the nearest line, at or above the
    given one, that is neither blank nor a brace alone, or the empty
    string when there is no such line. *)
Theorem previous_content_indent_is_that_of_the_nearest_content_line
    (document : list str) (fromLine : nat) :
  (fromLine < length document)%nat ->
  exists found,
    getPreviousContentIndent document fromLine = Some found
    /\ Forall (fun c => isSpace c = true) found
    /\ ((found = []
         /\ forall k t, (k <= fromLine)%nat -> document !! k = Some t ->
                        passedOver t = true)
        \/ exists k t,
             (k <= fromLine)%nat /\ document !! k = Some t
             /\ passedOver t = false
             /\ t = found ++ trimStart t
             /\ forall m u, (k < m <= fromLine)%nat ->
                            document !! m = Some u -> passedOver u = true).
Proof.
  intros Hlt.
  destruct (previousContentIndent_spec document fromLine Hlt)
    as (found & Hf & Hcase).
  exists found. split; [done|].
  destruct Hcase as [[-> Hall]|(k & t & Hk & Ht & Hp & -> & Hbetween)].
  - split; [constructor|]. by left.
  - destruct (getIndent_split t) as [Hsplit Hws].
    split; [done|]. right. by exists k, t.
Qed.

Lemma previous_content_indent_is_that_of_the_nearest_content_line_witness :
  let document :=
    [lit "function f() {"; lit "    $a = 1;"; lit ""; lit "  }"] in
  (3 < length document)%nat
  /\ getPreviousContentIndent document 3 = Some (lit "    ").
Proof.
  intros document.
  assert (3 < length document)%nat as H by (simpl; lia).
  split; [exact H|].
  destruct (previous_content_indent_is_that_of_the_nearest_content_line
              document 3 H) as (found & Hf & _).
  rewrite Hf. f_equal.
  assert (getPreviousContentIndent document 3 = Some (lit "    ")) as E
    by reflexivity.
  congruence.
Defined.

(** ** No statement end below the last line *)

Lemma endInLine_no_semicolon (s : EndScan) (i : nat) (rest : str) :
  chSemi ∉ rest -> exists s', endInLine s i rest = inr s'.
Proof.
  intros H. destruct (endInLine s i rest) as [col|s'] eqn:E; [|by exists s'].
  apply endInLine_found in E as (k & Hk & _).
  exfalso. apply H. by eapply list_elem_of_lookup_2.
Qed.

Lemma endInLines_no_semicolon (lines : list str) :
  forall (s : EndScan) (li ci : nat),
  Forall (fun t => chSemi ∉ t) lines -> endInLines s li ci lines = None.
Proof.
  induction lines as [|t lines IH]; intros s li ci H; [done|].
  apply Forall_cons in H as [Ht H]. cbn [endInLines].
  destruct (endInLine_no_semicolon s ci (drop ci t)) as [s' ->].
  - intros Hin. apply Ht. by apply (subseteq_drop ci t).
  - by apply IH.
Qed.

(** X26.  Started on the last line of a document that holds no semicolon
    from there on, [findStatementEndPosition] returns line [lineCount],
    which is no line of the document, and [getPreviousContentIndent],
    which the command handler calls with this line, fails at its first
    [lineAt]. *)
Theorem no_statement_end_on_the_last_line (document : list str)
    (fromLine fromChar : nat) :
  Forall (fun t => chSemi ∉ t) (drop fromLine document) ->
  S fromLine = length document ->
  findStatementEndPosition document fromLine fromChar
  = (length document, 0%nat)
  /\ getPreviousContentIndent document
       (findStatementEndPosition document fromLine fromChar).1 = None.
Proof.
  intros Hno Hlast. unfold findStatementEndPosition.
  rewrite (endInLines_no_semicolon _ _ _ _ Hno).
  replace (Nat.min (fromLine + 1) (length document)) with (length document)
    by lia.
  split; [done|]. simpl.
  destruct (length document) as [|n] eqn:E; [done|].
  cbn [getPreviousContentIndent].
  by rewrite lookup_ge_None_2 by lia.
Qed.

Lemma no_statement_end_on_the_last_line_witness :
  let document := [lit "<?php"; lit "echo $x"] in
  Forall (fun t => chSemi ∉ t) (drop 1 document)
  /\ 2%nat = length document
  /\ findStatementEndPosition document 1 7 = (2%nat, 0%nat)
  /\ getPreviousContentIndent document
       (findStatementEndPosition document 1 7).1 = None.
Proof.
  intros document.
  assert (Forall (fun t => chSemi ∉ t) (drop 1 document)) as H.
  { constructor; [|constructor]. vm_compute. intros H.
    repeat (apply elem_of_cons in H as [H|H]; [done|]).
    by apply elem_of_nil in H. }
  split; [exact H|]. split; [reflexivity|].
  exact (no_statement_end_on_the_last_line document 1 7 H eq_refl).
Defined.

(** ** Selections inside a quoted string *)

Lemma lastMatchFrom_spec (c : ascii) (rest : str) :
  forall (i : nat) (best : Z),
  best < Z.of_nat i ->
  let r := lastMatchFrom c i rest best in
  (r = best /\ forall k, rest !! k <> Some c)
  \/ (exists k, r = Z.of_nat (i + k) /\ rest !! k = Some c
                /\ forall m, (k < m)%nat -> rest !! m <> Some c).
Proof.
  induction rest as [|x rest IH]; intros i best Hbest; [by left|].
  cbn [lastMatchFrom]. destruct (eqc x c) eqn:E.
  - apply eqc_eq in E as ->.
    destruct (IH (S i) (Z.of_nat i) ltac:(lia)) as [[Hr Hnone]|(k & Hr & Hk & Hlast)].
    + right. exists 0%nat. rewrite Hr. split; [f_equal; lia|]. split; [done|].
      intros [|m] Hm; [lia|]. apply Hnone.
    + right. exists (S k). rewrite Hr. split; [f_equal; lia|]. split; [done|].
      intros [|m] Hm; [lia|]. apply Hlast. lia.
  - assert (x <> c) as Hne by (by apply eqc_neq).
    destruct (IH (S i) best ltac:(lia)) as [[Hr Hnone]|(k & Hr & Hk & Hlast)].
    + left. split; [done|]. intros [|k]; [simpl; congruence|apply Hnone].
    + right. exists (S k). rewrite Hr. split; [f_equal; lia|]. split; [done|].
      intros [|m] Hm; [lia|]. apply Hlast. lia.
Qed.

Lemma lastIndexOfChar_before (c : ascii) (s : str) (startChar : nat) :
  let r := lastIndexOfChar c s (Z.of_nat startChar - 1) in
  -1 <= r
  /\ ((0 < startChar)%nat -> r < Z.of_nat startChar)
  /\ (r <> -1 /\ r < Z.of_nat startChar
      <-> exists i, (i < startChar)%nat /\ s !! i = Some c).
Proof.
  unfold lastIndexOfChar.
  set (start := Z.min (Z.max (Z.of_nat startChar - 1) 0) (len s - 1)).
  pose proof (lastMatchFrom_spec c (take (Z.to_nat (start + 1)) s) 0 (-1)
                ltac:(lia)) as H.
  simpl in H. unfold len in *.
  destruct H as [[-> Hnone]|(k & -> & Hk & Hlast)].
  - split; [lia|]. split; [lia|]. split; [by intros [? _]|].
    intros (i & Hi & Hc). exfalso. apply (Hnone i).
    rewrite lookup_take_lt; [done|].
    apply lookup_lt_Some in Hc. lia.
  - apply lookup_take_Some in Hk as [Hk Hlt].
    split; [lia|]. split; [lia|]. split.
    + intros [_ Hr]. exists k. split; [lia|done].
    + intros (i & Hi & Hc). lia.
Qed.

Lemma search_char (c : ascii) (h : str) :
  match search [c] h with
  | Some i => h !! i = Some c /\ forall j, (j < i)%nat -> h !! j <> Some c
  | None => forall j, h !! j <> Some c
  end.
Proof.
  induction h as [|x h IH]; [by intros j|].
  cbn [search startsWith]. rewrite andb_true_r.
  destruct (eqc c x) eqn:E.
  - apply eqc_eq in E as ->. split; [done|]. intros j Hj. lia.
  - assert (x <> c) as Hne by (intros ->; by rewrite eqc_refl in E).
    destruct (search [c] h) as [i|]; simpl.
    + destruct IH as [Hi Hfirst]. split; [done|].
      intros [|j] Hj; [simpl; congruence|]. apply Hfirst. lia.
    + intros [|j]; [simpl; congruence|apply IH].
Qed.

Lemma indexOf_char_after (c : ascii) (s : str) (endChar : nat) :
  match orInfinity (indexOf [c] s (Z.of_nat endChar)) with
  | Some r =>
      exists i, r = Z.of_nat i /\ (endChar <= i)%nat /\ s !! i = Some c
                /\ forall j, (endChar <= j < i)%nat -> s !! j <> Some c
  | None => forall j, (endChar <= j)%nat -> s !! j <> Some c
  end.
Proof.
  unfold indexOf, orInfinity, len.
  set (k := Z.to_nat (Z.min (Z.max (Z.of_nat endChar) 0)
                        (Z.of_nat (length s)))).
  assert (k = Nat.min endChar (length s)) as Hk by lia.
  pose proof (search_char c (drop k s)) as H.
  destruct (search [c] (drop k s)) as [i|].
  - destruct (Z.eqb_spec (Z.of_nat (k + i)) (-1)) as [|_]; [lia|].
    destruct H as [Hi Hfirst]. rewrite lookup_drop in Hi.
    pose proof (lookup_lt_Some _ _ _ Hi) as Hlt.
    exists (k + i)%nat. split; [done|]. split; [lia|]. split; [done|].
    intros j Hj. specialize (Hfirst (j - k)%nat ltac:(lia)).
    rewrite lookup_drop in Hfirst.
    by replace (k + (j - k))%nat with j in Hfirst by lia.
  - simpl. intros j Hj Hc.
    pose proof (lookup_lt_Some _ _ _ Hc) as Hlt.
    apply (H (j - k)%nat). rewrite lookup_drop.
    by replace (k + (j - k))%nat with j by lia.
Qed.

(** X27.  [isQuotedStringContext] holds exactly when a quote stands
    before the start of the selection, a quote stands after the character
    at the end of the selection, and that character is no quote itself:
    the quote on the left may touch the selection, the one on the right
    may not. *)
Theorem quoted_string_context_needs_a_gap_on_the_right (lineText : str)
    (startChar endChar : nat) :
  isQuotedStringContext lineText startChar endChar = true
  <-> (exists i, (i < startChar)%nat /\ quoteAt lineText i)
      /\ (exists j, (endChar < j)%nat /\ quoteAt lineText j)
      /\ ~ quoteAt lineText endChar.
Proof.
  unfold isQuotedStringContext, quoteAt.
  destruct (lastIndexOfChar_before chQuote2 lineText startChar)
    as (Hd1 & Hd0 & Hd).
  destruct (lastIndexOfChar_before chQuote1 lineText startChar)
    as (Hs1 & Hs0 & Hs).
  pose proof (indexOf_char_after chQuote2 lineText endChar) as Rd.
  pose proof (indexOf_char_after chQuote1 lineText endChar) as Rs.
  set (ld := lastIndexOfChar chQuote2 lineText (Z.of_nat startChar - 1)) in *.
  set (ls := lastIndexOfChar chQuote1 lineText (Z.of_nat startChar - 1)) in *.
  set (rd := orInfinity (indexOf [chQuote2] lineText (Z.of_nat endChar))) in *.
  set (rs := orInfinity (indexOf [chQuote1] lineText (Z.of_nat endChar))) in *.
  assert ((Z.max ld ls <> -1 /\ Z.max ld ls < Z.of_nat startChar)
          <-> exists i, (i < startChar)%nat
                        /\ (lineText !! i = Some chQuote2
                            \/ lineText !! i = Some chQuote1)) as Hleft.
  { split.
    - intros [Hne Hlt].
      destruct (Z.max_spec ld ls) as [[_ Hm]|[_ Hm]]; rewrite Hm in Hne, Hlt.
      + destruct (proj1 Hs (conj Hne Hlt)) as (i & Hi & Hc). eauto.
      + destruct (proj1 Hd (conj Hne Hlt)) as (i & Hi & Hc). eauto.
    - intros (i & Hi & [Hc|Hc]).
      + destruct (proj2 Hd (ex_intro _ i (conj Hi Hc))) as [Hne Hlt].
        specialize (Hs0 ltac:(lia)). lia.
      + destruct (proj2 Hs (ex_intro _ i (conj Hi Hc))) as [Hne Hlt].
        specialize (Hd0 ltac:(lia)). lia. }
  rewrite andb_true_iff, negb_true_iff, Z.eqb_neq.
  destruct rd as [a|], rs as [b|]; simpl.
  all: rewrite ?andb_true_iff, ?Z.ltb_lt.
  - destruct Rd as (i & -> & Hi & Hci & Hfi).
    destruct Rs as (j & -> & Hj & Hcj & Hfj). split.
    + intros [Hne [Hlt Hgap]]. split; [by apply Hleft|]. split.
      * exists i. split; [lia|by left].
      * intros [Hq|Hq].
        -- apply (Hfi endChar); [lia|done].
        -- apply (Hfj endChar); [lia|done].
    + intros (Hl & (m & Hm & Hq) & Hnot). apply Hleft in Hl as [Hne Hlt].
      split; [done|]. split; [done|].
      destruct (decide (i = endChar)) as [->|]; [exfalso; apply Hnot; by left|].
      destruct (decide (j = endChar)) as [->|]; [exfalso; apply Hnot; by right|].
      lia.
  - destruct Rd as (i & -> & Hi & Hci & Hfi). split.
    + intros [Hne [Hlt Hgap]]. split; [by apply Hleft|]. split.
      * exists i. split; [lia|by left].
      * intros [Hq|Hq].
        -- apply (Hfi endChar); [lia|done].
        -- apply (Rs endChar); [lia|done].
    + intros (Hl & (m & Hm & Hq) & Hnot). apply Hleft in Hl as [Hne Hlt].
      split; [done|]. split; [done|].
      destruct (decide (i = endChar)) as [->|]; [exfalso; apply Hnot; by left|].
      lia.
  - destruct Rs as (j & -> & Hj & Hcj & Hfj). split.
    + intros [Hne [Hlt Hgap]]. split; [by apply Hleft|]. split.
      * exists j. split; [lia|by right].
      * intros [Hq|Hq].
        -- apply (Rd endChar); [lia|done].
        -- apply (Hfj endChar); [lia|done].
    + intros (Hl & (m & Hm & Hq) & Hnot). apply Hleft in Hl as [Hne Hlt].
      split; [done|]. split; [done|].
      destruct (decide (j = endChar)) as [->|]; [exfalso; apply Hnot; by right|].
      lia.
  - split; [by intros [_ ?]|].
    intros (_ & (m & Hm & [Hq|Hq]) & _); exfalso.
    + apply (Rd m); [lia|done].
    + apply (Rs m); [lia|done].
Qed.

(** ** Matching brackets *)

Lemma scanBalancedLoop_found (open close : ascii) (rest : str) :
  forall (i : nat) (depth : Z) (quote : option ascii) (before : str),
  let r := scanBalancedLoop open close i depth quote before rest in
  r = -1
  \/ exists k, r = Z.of_nat (i + k) /\ rest !! k = Some close.
Proof.
  induction rest as [|ch rest IH]; intros i depth quote before; [by left|].
  cbn [scanBalancedLoop].
  assert (forall depth' quote' before',
            scanBalancedLoop open close (S i) depth' quote' before' rest = -1
            \/ exists k,
                 scanBalancedLoop open close (S i) depth' quote' before' rest
                 = Z.of_nat (i + k) /\ (ch :: rest) !! k = Some close)
    as Hnext.
  { intros depth' quote' before'.
    destruct (IH (S i) depth' quote' before') as [H|(k & H & Hk)];
      [by left|].
    right. exists (S k). split; [rewrite H; f_equal; lia|done]. }
  destruct quote as [q|]; [apply Hnext|].
  destruct (_ || _); [apply Hnext|].
  destruct (eqc ch open); [apply Hnext|].
  destruct (eqc ch close) eqn:E; [|apply Hnext].
  destruct (_ =? 0).
  - right. exists 0%nat. apply eqc_eq in E as ->.
    split; [f_equal; lia|done].
  - destruct (_ <? 0); [by left|apply Hnext].
Qed.

(** X28.  [scanBalanced] answers [-1] or the index of a closing bracket
    at or after the start. *)
Theorem scanBalanced_answers_with_a_closing_bracket (src : str)
    (start : nat) (open close : ascii) :
  let r := scanBalanced src start open close in
  r = -1
  \/ exists k, r = Z.of_nat k /\ (start <= k < length src)%nat
               /\ src !! k = Some close.
Proof.
  unfold scanBalanced.
  destruct (scanBalancedLoop_found open close (drop start src) start 0 None [])
    as [H|(k & H & Hk)]; [by left|].
  right. rewrite lookup_drop in Hk. exists (start + k)%nat.
  split; [done|]. split; [|done].
  apply lookup_lt_Some in Hk. lia.
Qed.

Lemma scanBalancedLoop_flat (open close : ascii) (body : str) :
  forall (i : nat) (depth : Z) (before rest : str),
  forallb (besideBrackets open close) body = true ->
  scanBalancedLoop open close i depth None before (body ++ rest)
  = scanBalancedLoop open close (i + length body) depth None
      (rev body ++ before) rest.
Proof.
  induction body as [|c body IH]; intros i depth before rest H.
  - simpl. by rewrite Nat.add_0_r.
  - simpl in H. apply andb_true_iff in H as [Hc H].
    unfold besideBrackets in Hc. apply negb_true_iff in Hc.
    rewrite !orb_false_iff in Hc. destruct Hc as [[[H1 H2] H3] H4].
    rewrite <- app_comm_cons. cbn [scanBalancedLoop].
    rewrite H1, H2, H3, H4. simpl orb. cbv iota.
    rewrite (IH (S i) depth (c :: before) rest H).
    simpl. rewrite <- app_assoc. simpl. f_equal. lia.
Qed.

(** X29.  For an opening bracket, a group without quotes and brackets,
    and the closing bracket, [scanBalanced] started at the opening bracket
    answers the index of the closing one. *)
Theorem scanBalanced_finds_the_bracket_of_a_flat_group (before body after : str)
    (open close : ascii) :
  eqc open chQuote1 || eqc open chQuote2 = false ->
  eqc close chQuote1 || eqc close chQuote2 = false ->
  open <> close ->
  forallb (besideBrackets open close) body = true ->
  scanBalanced (before ++ open :: body ++ close :: after) (length before)
    open close
  = Z.of_nat (length before + 1 + length body).
Proof.
  intros Hopen Hclose Hne Hbody. unfold scanBalanced.
  rewrite drop_app_length. cbn [scanBalancedLoop].
  rewrite Hopen, eqc_refl.
  rewrite (scanBalancedLoop_flat open close body _ _ _ _ Hbody).
  cbn [scanBalancedLoop]. rewrite Hclose, eqc_refl.
  assert (eqc close open = false) as ->.
  { apply eqc_neq. congruence. }
  simpl. f_equal. lia.
Qed.

Lemma scanBalanced_finds_the_bracket_of_a_flat_group_witness :
  scanBalanced (lit "$rows[$i + 1]->name") 5 chLBracket chRBracket = 12.
Proof.
  apply (scanBalanced_finds_the_bracket_of_a_flat_group (lit "$rows")
           (lit "$i + 1") (lit "->name") chLBracket chRBracket);
    by vm_compute.
Defined.

(** ** Variables and what may follow them *)

Lemma identStart_part (c : ascii) : identStart c = true -> identPart c = true.
Proof. unfold identPart. by intros ->. Qed.

Lemma isIdentifier_parts (name : str) :
  isIdentifier name = true ->
  exists c r, name = c :: r /\ identStart c = true
              /\ forallb identPart r = true
              /\ Forall (fun x => isSpace x = false) name.
Proof.
  destruct name as [|c r]; [done|]. unfold isIdentifier.
  intros H. apply andb_true_iff in H as [H Hv].
  apply andb_true_iff in H as [Hc Hr].
  exists c, r. repeat split; try done.
  apply Forall_forall. intros x Hx. rewrite forallb_forall in Hv.
  apply negb_true_iff, Hv. by apply list_elem_of_In.
Qed.

Lemma identPartLength_app (r rest : str) :
  forallb identPart r = true ->
  identPartLength (r ++ rest) = (length r + identPartLength rest)%nat.
Proof.
  induction r as [|c r IH]; [done|]. simpl.
  intros H. apply andb_true_iff in H as [-> H]. by rewrite IH.
Qed.

Lemma chainText_head (names : list str) :
  identPartLength (chainText names) = 0%nat
  /\ getIndent (chainText names) = []
  /\ match chainText names with c :: _ => eqc c chLParen = false
                                         /\ eqc c chLBracket = false
     | [] => True end.
Proof. by destruct names. Qed.

Lemma chainLoop_names (names : list str) :
  forall (pre : str) (fuel : nat),
  Forall (fun name => isIdentifier name = true) names ->
  (length names < fuel)%nat ->
  chainLoop fuel (pre ++ chainText names) (length pre) = true.
Proof.
  induction names as [|name names IH]; intros pre fuel Hall Hfuel.
  - destruct fuel as [|fuel]; [lia|]. cbn [chainLoop].
    unfold chainText. simpl. rewrite app_nil_r.
    by rewrite (proj2 (Nat.leb_le _ _) (Nat.le_refl _)).
  - destruct fuel as [|fuel]; [simpl in Hfuel; lia|].
    apply Forall_cons in Hall as [Hname Hall].
    destruct (isIdentifier_parts name Hname) as (c & r & -> & Hc & Hr & Hv).
    apply Forall_cons in Hv as [Hvc _].
    destruct (chainText_head names) as (Hlen0 & Hind0 & Hhead).
    set (s := pre ++ chainText ((c :: r) :: names)).
    assert (s = pre ++ "-"%char :: ">"%char :: c :: r ++ chainText names)
      as Hs.
    { subst s. unfold chainText. by simpl. }
    cbn [chainLoop].
    assert ((length s <=? length pre)%nat = false) as ->.
    { apply Nat.leb_gt. rewrite Hs, length_app. simpl. lia. }
    assert (skipSpaces s (length pre) = length pre) as ->.
    { unfold skipSpaces. rewrite Hs, drop_app_length. simpl. lia. }
    assert ((length s <=? length pre)%nat = false) as ->.
    { apply Nat.leb_gt. rewrite Hs, length_app. simpl. lia. }
    assert (s !! length pre = Some "-"%char) as H0.
    { rewrite Hs, lookup_app_r by lia. by rewrite Nat.sub_diag. }
    assert (s !! (length pre + 1)%nat = Some ">"%char) as H1.
    { rewrite Hs, lookup_app_r by lia.
      by replace (length pre + 1 - length pre)%nat with 1%nat by lia. }
    unfold charIs at 1. rewrite H0. simpl eqc. cbv iota.
    unfold charIs at 1 2. rewrite H0, H1. simpl andb. cbv iota.
    assert (drop (length pre + 2) s = c :: r ++ chainText names) as Hd2.
    { rewrite Hs. rewrite <- drop_drop, drop_app_length. done. }
    assert (skipSpaces s (length pre + 2) = (length pre + 2)%nat) as ->.
    { unfold skipSpaces. rewrite Hd2. simpl.
      rewrite Hvc. simpl. lia. }
    rewrite Hd2. cbn [identifierLength]. rewrite Hc.
    rewrite (identPartLength_app r _ Hr), Hlen0, Nat.add_0_r.
    set (i3 := (length pre + 2 + S (length r))%nat).
    assert (s = (pre ++ lit "->" ++ c :: r) ++ chainText names) as Hs3.
    { rewrite Hs. rewrite <- !app_assoc. done. }
    assert (length (pre ++ lit "->" ++ c :: r) = i3) as Hl3.
    { subst i3. rewrite !length_app. simpl. lia. }
    assert (drop i3 s = chainText names) as Hd3.
    { rewrite Hs3, <- Hl3. apply drop_app_length. }
    assert (skipSpaces s i3 = i3) as ->.
    { unfold skipSpaces. rewrite Hd3, Hind0. simpl. lia. }
    assert (charIs s i3 chLParen = false) as ->.
    { unfold charIs. rewrite <- (Nat.add_0_r i3), <- lookup_drop, Hd3.
      destruct (chainText names) as [|x t]; [done|]. simpl. by destruct Hhead. }
    rewrite Hs3, <- Hl3. apply IH; [done|]. simpl in Hfuel. lia.
Qed.

Lemma trim_visible_text (s : str) :
  Forall (fun c => isSpace c = false) s -> trim s = s.
Proof.
  intros H. unfold trim, trimEnd.
  assert (forall t, Forall (fun c => isSpace c = false) t -> trimStart t = t)
    as Hstart.
  { intros t Ht. destruct Ht as [|c t Hc _]; [done|]. simpl. by rewrite Hc. }
  rewrite (Hstart s H), Hstart by (by apply Forall_rev).
  apply rev_involutive.
Qed.

Lemma variable_text_visible (name : str) (names : list str) :
  isIdentifier name = true ->
  Forall (fun n => isIdentifier n = true) names ->
  Forall (fun c => isSpace c = false) (lit "$" ++ name ++ chainText names).
Proof.
  intros Hname Hall.
  destruct (isIdentifier_parts name Hname) as (c & r & _ & _ & _ & Hv).
  apply Forall_app. split; [by repeat constructor|].
  apply Forall_app. split; [exact Hv|].
  unfold chainText. induction Hall as [|n ns Hn _ IH]; [constructor|].
  simpl. constructor; [done|]. constructor; [done|].
  apply Forall_app. split; [|exact IH].
  by destruct (isIdentifier_parts n Hn) as (c' & r' & _ & _ & _ & Hn').
Qed.

Lemma isPhpVariable_names (name : str) (names : list str) :
  isIdentifier name = true ->
  Forall (fun n => isIdentifier n = true) names ->
  isPhpVariable (lit "$" ++ name ++ chainText names) = true.
Proof.
  intros Hname Hall. unfold isPhpVariable.
  rewrite (trim_visible_text _ (variable_text_visible name names Hname Hall)).
  destruct (isIdentifier_parts name Hname) as (c & r & -> & Hc & Hr & _).
  destruct (chainText_head names) as (Hlen0 & _ & _).
  simpl startsWith. cbv iota. simpl drop. cbn [identifierLength].
  rewrite Hc, (identPartLength_app r _ Hr), Hlen0, Nat.add_0_r.
  pose proof (chainLoop_names names (lit "$" ++ c :: r)
                (S (length (lit "$" ++ (c :: r) ++ chainText names))) Hall)
    as H.
  replace (1 + S (length r))%nat with (length (lit "$" ++ c :: r))
    by reflexivity.
  apply H.
  assert (length names <= length (chainText names))%nat.
  { clear. induction names as [|n ns IH]; [done|].
    change (chainText (n :: ns)) with ((lit "->" ++ n) ++ chainText ns).
    rewrite !length_app. simpl length. lia. }
  rewrite !length_app. lia.
Qed.

Lemma scanBalanced_forward (s : str) (start : nat) (open close : ascii) :
  (scanBalanced s start open close <? 0) = false ->
  (start < Z.to_nat (scanBalanced s start open close) + 1)%nat.
Proof.
  unfold scanBalanced.
  destruct (scanBalancedLoop_found open close (drop start s) start 0 None [])
    as [->|(k & -> & _)]; [done|lia].
Qed.

Lemma chainLoop_fuel (fuel : nat) :
  forall (fuel' : nat) (s : str) (i : nat),
  (0 < fuel)%nat -> (length s < i + fuel)%nat ->
  (0 < fuel')%nat -> (length s < i + fuel')%nat ->
  chainLoop fuel s i = chainLoop fuel' s i.
Proof.
  induction fuel as [|fuel IH]; intros fuel' s i H0 Hlen H0' Hlen'; [lia|].
  destruct fuel' as [|fuel']; [lia|]. cbn [chainLoop].
  destruct (Nat.leb_spec (length s) i) as [|Hi]; [done|].
  assert (i <= skipSpaces s i)%nat as Hskip by (unfold skipSpaces; lia).
  destruct (Nat.leb_spec (length s) (skipSpaces s i)) as [|Hi1]; [done|].
  assert (forall j, (i < j)%nat -> chainLoop fuel s j = chainLoop fuel' s j)
    as Hnext.
  { intros j Hj. apply IH; lia. }
  destruct (charIs s (skipSpaces s i) chLBracket).
  { destruct (_ <? 0) eqn:E; [done|]. apply Hnext.
    pose proof (scanBalanced_forward _ _ _ _ E). lia. }
  destruct (_ && _); [|done].
  assert (skipSpaces s i + 2 <= skipSpaces s (skipSpaces s i + 2))%nat
    by (unfold skipSpaces; lia).
  destruct (identifierLength _) as [n|]; [|done].
  set (i3 := skipSpaces s (skipSpaces s (skipSpaces s i + 2) + n)).
  assert (skipSpaces s (skipSpaces s i + 2) + n <= i3)%nat
    by (subst i3; unfold skipSpaces; lia).
  destruct (charIs s i3 chLParen).
  - destruct (_ <? 0) eqn:E; [done|]. apply Hnext.
    pose proof (scanBalanced_forward _ _ _ _ E). lia.
  - apply Hnext. lia.
Qed.

(** X30.  What [isPhpVariable] takes for a variable.  A text it accepts
    starts, once trimmed, with [$] and the first character of a name; it
    accepts every [$name] followed by any number of [->name]; and the
    rounds of its loop never outnumber the characters of the text (with
    more fuel than the model gives the loop, the answer is the same). *)
Theorem isPhpVariable_accepts_property_chains (text name : str)
    (names : list str) :
  (isPhpVariable text = true ->
   exists c r, trim text = "$"%char :: c :: r /\ identStart c = true)
  /\ (isIdentifier name = true ->
      Forall (fun n => isIdentifier n = true) names ->
      isPhpVariable (lit "$" ++ name ++ chainText names) = true)
  /\ (forall fuel i, (length text < fuel)%nat ->
        chainLoop fuel text i = chainLoop (S (length text)) text i).
Proof.
  split; [|split; [apply isPhpVariable_names|]].
  - unfold isPhpVariable. destruct (trim text) as [|d s]; [done|].
    simpl startsWith. rewrite andb_true_r.
    destruct (eqc "$" d) eqn:E; [|done]. apply eqc_eq in E as <-.
    simpl drop. destruct s as [|c r]; [done|].
    change (drop 0 (c :: r)) with (c :: r). cbn [identifierLength].
    destruct (identStart c) eqn:Hc; [|done]. intros _. by exists c, r.
  - intros fuel i Hfuel. apply chainLoop_fuel; lia.
Qed.

Lemma isPhpVariable_accepts_property_chains_witness :
  isIdentifier (lit "order") = true
  /\ Forall (fun n => isIdentifier n = true) [lit "customer"; lit "name"]
  /\ isPhpVariable (lit "$order->customer->name") = true
  /\ exists c r,
       trim (lit "$order->customer->name") = "$"%char :: c :: r
       /\ identStart c = true.
Proof.
  assert (isIdentifier (lit "order") = true) as H1 by reflexivity.
  assert (Forall (fun n => isIdentifier n = true)
            [lit "customer"; lit "name"]) as H2
    by (constructor; [reflexivity|constructor; [reflexivity|constructor]]).
  destruct (isPhpVariable_accepts_property_chains
              (lit "$order->customer->name") (lit "order")
              [lit "customer"; lit "name"]) as (Hhead & Hchain & _).
  split; [exact H1|]. split; [exact H2|].
  split; [exact (Hchain H1 H2)|]. exact (Hhead (Hchain H1 H2)).
Defined.
